(** * Biomedical image analysis notebooks: a shallow embedding

    The notebooks under [Code/] are straight-line NumPy / SciPy scripts.
    Each cell that carries a computation is embedded below as a function
    over explicit data:

    - an image (2-D array) is a list of rows ([grid]); a 3-D volume is a
      list of planes ([volume]);
    - an integer pixel is a [Z]; an 8-bit unsigned pixel is a [Z] in
      [0, 255] with the wrap-around of its arithmetic written out;
    - a float64 quotient of two integer counts is its exact rational
      value or one of the IEEE special values ([npfloat]): the statements
      made about such quotients (order, range, being 0, 1 or NaN) do not
      depend on rounding.  Where the rounded value itself is at stake
      (the ejection fraction), the cell is embedded over binary64 floats
      ([Module Float64]), with IEEE rounding, overflow and NaN;
    - a Python exception is the [Raise] branch of [result].

    The NumPy and SciPy primitives the cells call are modelled from their
    documented behaviour in [Module Np] and [Module Ndi]; the cells
    themselves follow in [Module Ch2], [Module Ch3] and [Module Ch4].
    Arrays are rectangular; the functions below are total on any list of
    rows, and elementwise binary operations are only meant for operands
    of one shape (NumPy would broadcast or raise otherwise). *)

From Stdlib Require Import ZArith QArith Lqa Bool Floats.
From stdpp Require Import list numbers sorting.

Open Scope Z_scope.

(** ** Exceptions *)

Inductive exn : Type :=
| ValueError
| IndexError
| AttributeError.

Inductive result (A : Type) : Type :=
| Return (a : A)
| Raise (e : exn).
Arguments Return {A} a.
Arguments Raise {A} e.

#[global] Instance result_ret : MRet result := fun A a => Return a.
#[global] Instance result_bind : MBind result := fun A B k m =>
  match m with
  | Return a => k a
  | Raise e => Raise e
  end.

(** ** NumPy primitives *)

Module Np.

Abbreviation grid A := (list (list A)) (only parsing).
Abbreviation volume A := (list (list (list A))) (only parsing).

(** [arr.shape] of a 2-D array. *)
Definition shape {A} (im : grid A) : nat * nat :=
  (length im, match im with [] => O | row :: _ => length row end).

Definition row_lengths {A} (im : grid A) : list nat := length <$> im.

(** [arr.ravel()]: the elements in C order. *)
Definition ravel {A} (im : grid A) : list A := concat im.
Definition ravel3 {A} (vol : volume A) : list A := concat (ravel <$> vol).

(** The row lengths of every plane: two volumes of one shape agree on
    them. *)
Definition plane_lengths {A} (vol : volume A) : list (list nat) := row_lengths <$> vol.

(** [arr[r, c]] with non-negative indices: IndexError out of bounds. *)
Definition getitem2 {A} (im : grid A) (r c : nat) : result A :=
  match im !! r with
  | None => Raise IndexError
  | Some row =>
      match row !! c with
      | None => Raise IndexError
      | Some v => Return v
      end
  end.

(** Elementwise application, with and without the position. *)
Definition map2d {A B} (f : A -> B) (im : grid A) : grid B := fmap (M:=list) f <$> im.

Definition imap2d {A B} (f : nat -> nat -> A -> B) (im : grid A) : grid B :=
  imap (fun r row => imap (fun c x => f r c x) row) im.

Definition zip2d {A B C} (f : A -> B -> C) (a : grid A) (b : grid B) : grid C :=
  zip_with (zip_with f) a b.

(** [np.where(cond, x, y)] with scalar [x] and [y]. *)
Definition np_where {A} (cond : grid bool) (x y : A) : grid A :=
  map2d (fun b : bool => if b then x else y) cond.

Definition np_logical_and (a b : grid bool) : grid bool := zip2d andb a b.
Definition np_logical_or (a b : grid bool) : grid bool := zip2d orb a b.

Definition sumZ (l : list Z) : Z := foldr Z.add 0 l.

(** [arr.sum()] of an integer array and of a boolean array. *)
Definition np_sum (im : grid Z) : Z := sumZ (ravel im).
Definition np_sum_bool (im : grid bool) : Z :=
  sumZ (map (fun b : bool => if b then 1 else 0) (ravel im)).

(** A mask without a true element. *)
Definition all_false (m : grid bool) : Prop :=
  forall r c, getitem2 m r c <> Return true.

(** [arr.cumsum()] of a 1-D integer array. *)
Fixpoint cumsum_from (acc : Z) (l : list Z) : list Z :=
  match l with
  | [] => []
  | x :: l' => (acc + x) :: cumsum_from (acc + x) l'
  end.
Definition cumsum (l : list Z) : list Z := cumsum_from 0 l.

(** A float64 scalar: a finite value (held exactly), an infinity or NaN. *)
Inductive npfloat : Type :=
| Finite (q : Q)
| PInf
| NInf
| NaN.

(** [a / b] on float64 operands.  NumPy does not raise on a zero divisor:
    it emits a RuntimeWarning and yields NaN for [0 / 0] and a signed
    infinity otherwise. *)
Definition np_div (a b : Q) : npfloat :=
  if Qeq_bool b 0 then
    if Qeq_bool a 0 then NaN
    else if Qle_bool 0 a then PInf else NInf
  else Finite (Qred (a / b)).

(** [np.mean] of an integer array: the sum, accumulated in float64, over
    the number of elements (NaN for an empty array). *)
Definition np_mean (im : grid Z) : npfloat :=
  np_div (inject_Z (np_sum im)) (inject_Z (Z.of_nat (length (ravel im)))).

Definition Qltb (a b : Q) : bool := negb (Qle_bool b a).

(** A reduction that keeps the running extremum: [beats best y] tells
    whether [y] replaces [best]. *)
Definition reduce (beats : Q -> Q -> bool) (x : Q) (l : list Q) : Q :=
  fold_left (fun best y => if beats best y then y else best) l x.

(** The index kept along with it: the first occurrence wins. *)
Fixpoint arg_from (beats : Q -> Q -> bool) (best : Q) (besti i : nat)
    (l : list Q) : nat :=
  match l with
  | [] => besti
  | y :: l' =>
      if beats best y then arg_from beats y i (S i) l'
      else arg_from beats best besti (S i) l'
  end.

Definition larger (best y : Q) : bool := Qltb best y.
Definition smaller (best y : Q) : bool := Qltb y best.

(** [arr.max()], [arr.min()]: a reduction without identity, ValueError on
    a zero-size array. *)
Definition np_max (ts : list Q) : result Q :=
  match ts with
  | [] => Raise ValueError
  | x :: ts' => Return (reduce larger x ts')
  end.

Definition np_min (ts : list Q) : result Q :=
  match ts with
  | [] => Raise ValueError
  | x :: ts' => Return (reduce smaller x ts')
  end.

(** [np.argmax], [np.argmin]: index of the first occurrence of the
    extremum; ValueError on an empty sequence. *)
Definition argmax (ts : list Q) : result nat :=
  match ts with
  | [] => Raise ValueError
  | x :: ts' => Return (arg_from larger x 0 1 ts')
  end.

Definition argmin (ts : list Q) : result nat :=
  match ts with
  | [] => Raise ValueError
  | x :: ts' => Return (arg_from smaller x 0 1 ts')
  end.

(** 8-bit unsigned arithmetic: results are reduced modulo 256. *)
Definition wrap8 (z : Z) : Z := z mod 256.
Definition uint8_sub (a b : Z) : Z := wrap8 (a - b).
Definition uint8_abs (a : Z) : Z := wrap8 (Z.abs a).

Definition is_uint8 (z : Z) : Prop := 0 <= z <= 255.
Definition is_uint8_image (im : grid Z) : Prop := Forall (Forall is_uint8) im.

(** [np.where(cond, x, y)] with an array [x] and a scalar [y]. *)
Definition np_where_arr {A} (cond : grid bool) (x : grid A) (y : A) : grid A :=
  zip2d (fun (b : bool) v => if b then v else y) cond x.

(** [a - x] for a float64 [x]: NaN and the infinities propagate. *)
Definition np_rsub (a : Q) (x : npfloat) : npfloat :=
  match x with
  | Finite q => Finite (Qred (a - q))
  | PInf => NInf
  | NInf => PInf
  | NaN => NaN
  end.

(** [(im == v).sum()]: the number of elements equal to [v]. *)
Definition count_value (im : grid Z) (v : Z) : Z :=
  sumZ (map (fun x => if x =? v then 1 else 0) (ravel im)).

(** [seq[i]] with a non-negative index: IndexError out of bounds. *)
Definition getitem1 {A} (l : list A) (i : nat) : result A :=
  match l !! i with
  | None => Raise IndexError
  | Some x => Return x
  end.

End Np.

(** ** SciPy [ndimage] primitives *)

Module Ndi.
Import Np.

(** Index extension of mode ['reflect'] (the default of the filters):
    [d c b a | a b c d | d c b a], of period [2 n]. *)
Definition reflect (n : nat) (i : Z) : nat :=
  let m := i mod (2 * Z.of_nat n) in
  Z.to_nat (if m <? Z.of_nat n then m else 2 * Z.of_nat n - 1 - m).

Definition pixel_reflect (im : grid Z) (r c : Z) : Z :=
  let row := nth (reflect (length im) r) im [] in
  nth (reflect (length row) c) row 0.

(** Offsets of a window of [size] elements along one axis, centred at
    [size / 2]. *)
Definition offsets (size : nat) : list Z :=
  map (fun i => Z.of_nat i - Z.of_nat (size / 2)) (seq 0 size).

Definition window (im : grid Z) (size r c : nat) : list Z :=
  dr ← offsets size; dc ← offsets size;
  [pixel_reflect im (Z.of_nat r + dr) (Z.of_nat c + dc)].

(** The element of rank [length l / 2] of the sorted window. *)
Definition median (l : list Z) : Z := nth (length l / 2) (merge_sort Z.le l) 0.

(** What makes [v] the median of a window [l]: it occurs in [l], at most
    [length l / 2] elements are smaller and more than [length l / 2] are
    not larger.  At most one value is. *)
Definition count_lt (v : Z) (l : list Z) : nat := length (filter (fun x => x < v) l).
Definition count_le (v : Z) (l : list Z) : nat := length (filter (fun x => x <= v) l).

Definition is_median (v : Z) (l : list Z) : Prop :=
  v ∈ l /\ (count_lt v l <= length l / 2 < count_le v l)%nat.

(** [ndi.median_filter(im, size=size)] on a 2-D image, for [size >= 1]
    (SciPy rejects a size of 0 with a RuntimeError; the statements about
    the filter are made for positive sizes). *)
Definition median_filter (im : grid Z) (size : nat) : grid Z :=
  imap2d (fun r c _ => median (window im size r c)) im.

(** A pixel of a binary image, with the border value 0 outside. *)
Definition pixel_border (im : grid bool) (r c : Z) : bool :=
  if (r <? 0) || (c <? 0) then false
  else nth (Z.to_nat c) (nth (Z.to_nat r) im []) false.

(** The default structuring element: the pixel and its four
    face-adjacent neighbours. *)
Definition cross : list (Z * Z) := [(0, 0); (-1, 0); (1, 0); (0, -1); (0, 1)].

Definition neighbourhood (im : grid bool) (r c : nat) : list bool :=
  map (fun d : Z * Z => pixel_border im (Z.of_nat r + d.1) (Z.of_nat c + d.2)) cross.

(** [ndi.binary_dilation] and [ndi.binary_erosion], one iteration,
    default structure, [border_value=0]. *)
Definition binary_dilation (im : grid bool) : grid bool :=
  imap2d (fun r c _ => existsb id (neighbourhood im r c)) im.

Definition binary_erosion (im : grid bool) : grid bool :=
  imap2d (fun r c _ => forallb id (neighbourhood im r c)) im.

(** [ndi.binary_closing]: dilation, then erosion. *)
Definition binary_closing (im : grid bool) : grid bool :=
  binary_erosion (binary_dilation im).

(** [ndi.label(mask)]: connected components under face adjacency.  The
    image is scanned in C order; an unlabelled foreground pixel starts
    component [k + 1], whose pixels are those reached from it by
    dilation inside the mask, repeated once per pixel of the mask (no
    path inside the mask is longer). *)
Definition coords {A} (im : grid A) : list (nat * nat) :=
  concat (imap (fun r row => imap (fun c _ => (r, c)) row) im).

Definition pixel_at {A} (d : A) (im : grid A) (p : nat * nat) : A :=
  nth p.2 (nth p.1 im []) d.

Definition seed (mask : grid bool) (p : nat * nat) : grid bool :=
  imap2d (fun r c _ => bool_decide ((r, c) = p)) mask.

Definition grow (mask s : grid bool) : grid bool :=
  np_logical_and (binary_dilation s) mask.

Definition component (mask : grid bool) (p : nat * nat) : grid bool :=
  Nat.iter (length (ravel mask)) (grow mask) (seed mask p).

Definition paint (labels : grid Z) (comp : grid bool) (k : Z) : grid Z :=
  zip2d (fun (old : Z) (b : bool) => if b then k else old) labels comp.

Fixpoint label_scan (mask : grid bool) (ps : list (nat * nat))
    (labels : grid Z) (k : Z) : grid Z * Z :=
  match ps with
  | [] => (labels, k)
  | p :: ps' =>
      if pixel_at false mask p && (pixel_at 0 labels p =? 0) then
        label_scan mask ps' (paint labels (component mask p) (k + 1)) (k + 1)
      else label_scan mask ps' labels k
  end.

Definition label (mask : grid bool) : grid Z * Z :=
  label_scan mask (coords mask) (map2d (fun _ => 0) mask) 0.

(** Face adjacency of two positions, and membership of a position in a
    binary image. *)
Definition adjacent (p q : nat * nat) : Prop :=
  (p.1 = q.1 /\ (p.2 = S q.2 \/ q.2 = S p.2))
  \/ (p.2 = q.2 /\ (p.1 = S q.1 \/ q.1 = S p.1)).

Definition on (s : grid bool) (p : nat * nat) : Prop :=
  getitem2 s p.1 p.2 = Return true.

(** What the scan maintains: the count is not negative, the labelling has
    the shape of the mask, its labels lie in [0, k], and only foreground
    pixels are labelled. *)
Definition scan_invariant (m : grid bool) (labels : grid Z) (k : Z) : Prop :=
  0 <= k
  /\ row_lengths labels = row_lengths m
  /\ (forall r c v, getitem2 labels r c = Return v -> 0 <= v <= k)
  /\ (forall r c v, getitem2 labels r c = Return v -> v <> 0 -> getitem2 m r c = Return true).

(** What the scan maintains besides: a labelled pixel shares its label
    with its face-adjacent foreground pixels, and every label up to [k]
    is carried by some pixel. *)
Definition scan_components (m : grid bool) (labels : grid Z) (k : Z) : Prop :=
  scan_invariant m labels k
  /\ (forall p q v, getitem2 labels p.1 p.2 = Return v -> v <> 0 -> adjacent p q -> on m q ->
                    getitem2 labels q.1 q.2 = Return v)
  /\ (forall l, 1 <= l <= k -> exists r c, getitem2 labels r c = Return l).

(** Two positions are connected when a chain of face-adjacent true
    pixels of the mask leads from one to the other. *)
Inductive connected (m : list (list bool)) : nat * nat -> nat * nat -> Prop :=
| connected_refl p : on m p -> connected m p p
| connected_step p q r : connected m p q -> adjacent q r -> on m r -> connected m p r.

(** And: pixels with one label are connected. *)
Definition scan_separated (m : grid bool) (labels : grid Z) : Prop :=
  forall p q v, getitem2 labels p.1 p.2 = Return v -> getitem2 labels q.1 q.2 = Return v ->
                v <> 0 -> connected m p q.

(** [ndi.histogram(im, min=lo, max=hi, bins=bins)]: [np.histogram] with
    the [bins + 1] edges [linspace(lo, hi, bins + 1)]; values outside
    [lo, hi] are dropped and the last bin is closed on the right. *)
Definition bin_index (lo hi : Z) (bins : nat) (v : Z) : option nat :=
  if (v <? lo) || (hi <? v) then None
  else if v =? hi then Some (bins - 1)%nat
  else Some (Z.to_nat ((v - lo) * Z.of_nat bins / (hi - lo))).

Definition count_bin (lo hi : Z) (bins : nat) (i : nat) (vals : list Z) : Z :=
  sumZ (map (fun v => if bool_decide (bin_index lo hi bins v = Some i) then 1 else 0) vals).

Definition histogram (im : grid Z) (lo hi : Z) (bins : nat) : list Z :=
  map (fun i => count_bin lo hi bins i (ravel im)) (seq 0 bins).

(** The morphological operations with [iterations=n], [n >= 1]: the
    operation is repeated [n] times; closing dilates [n] times, then
    erodes [n] times. *)
Definition binary_dilation_n (n : nat) (im : grid bool) : grid bool :=
  Nat.iter n binary_dilation im.

Definition binary_erosion_n (n : nat) (im : grid bool) : grid bool :=
  Nat.iter n binary_erosion im.

Definition binary_closing_n (n : nat) (im : grid bool) : grid bool :=
  binary_erosion_n n (binary_dilation_n n im).

(** [np.histogram(vals, linspace(lo, hi, bins + 1))[0]] on a flat array. *)
Definition histogram_of (vals : list Z) (lo hi : Z) (bins : nat) : list Z :=
  map (fun i => count_bin lo hi bins i vals) (seq 0 bins).

(** [ndi.histogram(vol, lo, hi, bins, labels=labels, index=index)] on a
    volume and a label array of its shape: the histogram of
    [vol[labels > 0]] without an index, of [vol[labels == index]] with
    one. *)
Definition selected (index : option Z) (l : Z) : bool :=
  match index with
  | None => 0 <? l
  | Some i => l =? i
  end.

Definition select_values (vol labels : volume Z) (index : option Z) : list Z :=
  fst <$> filter (fun p : Z * Z => selected index p.2 = true) (zip (ravel3 vol) (ravel3 labels)).

Definition histogram_labels (vol labels : volume Z) (lo hi : Z) (bins : nat) : list Z :=
  histogram_of (select_values vol labels None) lo hi bins.

(** With an index that no element of [labels] carries, SciPy computes no
    histogram and returns its default, [None]. *)
Definition histogram_index (vol labels : volume Z) (i : Z) (lo hi : Z) (bins : nat)
    : option (list Z) :=
  if bool_decide (i ∈ ravel3 labels)
  then Some (histogram_of (select_values vol labels (Some i)) lo hi bins)
  else None.

(** [ndi.center_of_mass(im)] of a 2-D image: the intensity-weighted mean
    of the row index and of the column index.  The sums are the exact
    ones: SciPy adds the intensities in the integer type of the array and
    the weighted intensities in float64, which is exact as long as the
    sums stay below 2^53, as they do for an 8-bit image of any practical
    size. *)
Definition center_of_mass (im : grid Z) : npfloat * npfloat :=
  let total := inject_Z (np_sum im) in
  (np_div (inject_Z (np_sum (imap2d (fun r _ v => Z.of_nat r * v) im))) total,
   np_div (inject_Z (np_sum (imap2d (fun _ c v => Z.of_nat c * v) im))) total).

End Ndi.

(** ** Chapter 1 (exploration): slicing a volume *)

Module Ch1.
Import Np.

(** The loop [for ii in range(4): im = vol[ii*40,:,:]; ...] of the cell
    that plots every 40th slice, over the indices [range]; it yields the
    slices it draws. *)
Fixpoint slices (vol : volume Z) (range : list nat) : result (list (grid Z)) :=
  match range with
  | [] => Return []
  | ii :: range' =>
      im ← getitem1 vol (ii * 40);
      ims ← slices vol range';
      mret (im :: ims)
  end.

Definition fly_through (vol : volume Z) : result (list (grid Z)) :=
  slices vol (seq 0 4).

End Ch1.

(** ** Chapter 2 (intensity values): histogram and CDF *)

Module Ch2.
Import Np Ndi.

(** [hist = ndi.histogram(im, min=0, max=255, bins=256)] *)
Definition hist (im : grid Z) : list Z := histogram im 0 255 256.

(** [cdf = hist.cumsum() / hist.sum()] *)
Definition cdf (im : grid Z) : list npfloat :=
  let h := hist im in
  map (fun c => np_div (inject_Z c) (inject_Z (sumZ h))) (cumsum h).

(** *** Create a mask

    [mask_bone = im >= 145],
    [mask_skin = (im >= 45) & (im < 145)]. *)
Definition mask_bone (im : grid Z) : grid bool := map2d (fun v => 145 <=? v) im.

Definition mask_skin (im : grid Z) : grid bool :=
  np_logical_and (map2d (fun v => 45 <=? v) im) (map2d (fun v => v <? 145) im).

(** *** Apply a mask

    [im_bone = np.where(mask_bone, im, 0)],
    [hist = ndi.histogram(im_bone, min=1, max=255, bins=255)]. *)
Definition im_bone (im : grid Z) : grid Z := np_where_arr (mask_bone im) im 0.

Definition hist_bone (im : grid Z) : list Z := histogram (im_bone im) 1 255 255.

(** *** Tune a mask

    [mask_dilate = ndi.binary_dilation(mask_bone, iterations=5)],
    [mask_closed = ndi.binary_closing(mask_bone, iterations=5)]. *)
Definition mask_dilate (im : grid Z) : grid bool := binary_dilation_n 5 (mask_bone im).

Definition mask_closed (im : grid Z) : grid bool := binary_closing_n 5 (mask_bone im).

End Ch2.

(** ** Chapter 3 (cardiac MRI): segmentation and volume series *)

Module Ch3.
Import Np Ndi.

(** *** Segment the heart

    [im_filt = ndi.median_filter(im, size=3)],
    [mask_start = np.where(im_filt > 60, 1, 0)],
    [mask = ndi.binary_closing(mask_start)],
    [labels, nlabels = ndi.label(mask)];
    the size and the threshold are the parameters of [filter_and_mask]. *)
Definition im_filt (im : grid Z) (size : nat) : grid Z := median_filter im size.

Definition mask_start (im : grid Z) (size : nat) (threshold : Z) : grid Z :=
  np_where (map2d (fun v => threshold <? v) (im_filt im size)) 1 0.

(** An integer array read as a binary image: non-zero is true. *)
Definition astype_bool (im : grid Z) : grid bool := map2d (fun v => negb (v =? 0)) im.

Definition filter_and_mask (im : grid Z) (size : nat) (threshold : Z) : grid bool :=
  binary_closing (astype_bool (mask_start im size threshold)).

Definition mask (im : grid Z) : grid bool := filter_and_mask im 3 60.

Definition label_components (m : grid bool) : grid Z * Z := label m.

(** *** Select objects / extract objects

    [lv_val = labels[128, 128]],
    [lv_mask = np.where(labels == lv_val, 1, 0)] (the cell that overlays
    the mask writes NaN in place of 0);
    the anchor is the parameter of [select_component]. *)
Definition select_component (labels : grid Z) (anchor : nat * nat) : result Z :=
  getitem2 labels anchor.1 anchor.2.

Definition lv_val (labels : grid Z) : result Z := select_component labels (128, 128)%nat.

Definition select_mask (labels : grid Z) (anchor : nat * nat) : result (grid Z) :=
  v ← select_component labels anchor;
  mret (np_where (map2d (fun l => l =? v) labels) 1 0).

Definition lv_mask (labels : grid Z) : result (grid Z) := select_mask labels (128, 128)%nat.

(** *** Calculate volume / summarize the time series

    The notebook leaves the measurement blank ([nvoxels = ____],
    [ts[t] = ____]) inside the loop [for t in range(20)] over a
    blank [ts = ____]: the cell has no computation of its own, and the
    functions of this part follow the spec. *)

(** Modelled from the spec: the voxel count of [measure_volume], the
    blank [nvoxels = ____] of the notebook: the number of voxels equal to
    the selected label. *)
Definition count_label (lm : volume Z) (selected_label : Z) : Z :=
  sumZ (map (fun v => if v =? selected_label then 1 else 0) (ravel3 lm)).

(** Modelled from the spec: [measure_volume], the blank [ts[t] = ____] of
    the notebook: the voxel count multiplied by the physical volume of one
    voxel. *)
Definition measure_volume (lm : volume Z) (selected_label : Z) (dvoxel : Q) : Q :=
  (inject_Z (count_label lm selected_label) * dvoxel)%Q.

(** Modelled from the spec: the voxel count under the unrestricted mask
    [label_map != 0], which no cell of the notebook computes. *)
Definition count_foreground (lm : volume Z) : Z :=
  sumZ (map (fun v => if v =? 0 then 0 else 1) (ravel3 lm)).

(** Modelled from the spec: [measure_volume] computed with the
    unrestricted mask [label_map != 0]. *)
Definition measure_foreground (lm : volume Z) (dvoxel : Q) : Q :=
  (inject_Z (count_foreground lm) * dvoxel)%Q.

(** Modelled from the spec: the Label Map of the data model, with value 0
    for the background and the values [1..K] for the [K] components. *)
Definition is_label_map (lm : volume Z) (K : Z) : Prop :=
  Forall (fun v => 0 <= v <= K) (ravel3 lm).

(** Modelled from the spec: the non-zero label values [1..K]. *)
Definition label_values (K : Z) : list Z := Z.of_nat <$> seq 1 (Z.to_nat K).

Definition sumQ (l : list Q) : Q := foldr Qplus 0%Q l.

(** Modelled from the spec: [measure_volume] summed over all non-zero
    labels. *)
Definition measure_all_labels (lm : volume Z) (K : Z) (dvoxel : Q) : Q :=
  sumQ ((fun l => measure_volume lm l dvoxel) <$> label_values K).


(** *** Measure ejection fraction

    [tmax = np.argmax(ts)], [tmin = np.argmin(ts)],
    [ej_vol = ts.max() - ts.min()], [ej_frac = ej_vol / ts.max()],
    on a series of exact values; [Float64.ejection_fraction] is the cell
    on float64 values. *)
Record ejection : Type := {
  tmax : nat;
  tmin : nat;
  ej_vol : Q;
  ej_frac : npfloat
}.

Definition ejection_fraction (ts : list Q) : result ejection :=
  tmax ← argmax ts;
  tmin ← argmin ts;
  mx ← np_max ts;
  mn ← np_min ts;
  let ej_vol := (mx - mn)%Q in
  mret {| tmax := tmax; tmin := tmin; ej_vol := ej_vol; ej_frac := np_div ej_vol mx |}.

(** *** Separate histograms

    [hist1 = ndi.histogram(vol, min=0, max=255, bins=256)],
    [hist2 = ndi.histogram(vol, 0, 255, 256, labels=labels)],
    [hist3 = ndi.histogram(vol, 0, 255, 256, labels=labels, index=1)],
    each plotted as the density [hist / hist.sum()].  [hist3] is [None]
    when no voxel carries the label 1, and [None] has no [sum]:
    [hist3.sum()] then raises AttributeError. *)
Definition hist1 (vol : volume Z) : list Z := histogram_of (ravel3 vol) 0 255 256.

Definition hist2 (vol labels : volume Z) : list Z := histogram_labels vol labels 0 255 256.

Definition hist3 (vol labels : volume Z) : option (list Z) :=
  histogram_index vol labels 1 0 255 256.

Definition density (h : list Z) : list npfloat :=
  map (fun c => np_div (inject_Z c) (inject_Z (sumZ h))) h.

Definition density3 (vol labels : volume Z) : result (list npfloat) :=
  match hist3 vol labels with
  | None => Raise AttributeError
  | Some h => Return (density h)
  end.

End Ch3.

(** ** Chapter 4 (image comparison): cost functions *)

Module Ch4.
Import Np Ndi.

(** [abs_err = np.abs(im1 - im2)] on uint8 images. *)
Definition abs_err_px (a b : Z) : Z := uint8_abs (uint8_sub a b).

Definition abs_err (im1 im2 : grid Z) : grid Z := zip2d abs_err_px im1 im2.

(** [mean_abs_err = np.mean(np.abs(im1 - im2))] *)
Definition mean_abs_err (im1 im2 : grid Z) : npfloat := np_mean (abs_err im1 im2).

(** The reference value of the cost function: the mean of the absolute
    intensity differences, computed on the integers without wrap-around. *)
Definition true_abs_err (im1 im2 : grid Z) : grid Z :=
  zip2d (fun a b => Z.abs (a - b)) im1 im2.

Definition true_mean_abs_err (im1 im2 : grid Z) : npfloat := np_mean (true_abs_err im1 im2).

(** What the wrap-around adds to the absolute difference at a pixel. *)
Definition wrap_excess_px (a b : Z) : Z := if a <? b then 256 - 2 * (b - a) else 0.

Definition wrap_excess (im1 im2 : grid Z) : grid Z := zip2d wrap_excess_px im1 im2.

(** [def intersection_of_union(im1, im2)]:
    [i = np.logical_and(im1, im2)], [u = np.logical_or(im1, im2)],
    [return i.sum() / u.sum()]. *)
Definition intersection_of_union (im1 im2 : grid bool) : npfloat :=
  let i := np_logical_and im1 im2 in
  let u := np_logical_or im1 im2 in
  np_div (inject_Z (np_sum_bool i)) (inject_Z (np_sum_bool u)).

(** *** Translations

    [com = ndi.center_of_mass(im)], [d0 = 128 - com[0]],
    [d1 = 128 - com[1]]: the shift handed to [ndi.shift]. *)
Definition translation (im : grid Z) : npfloat * npfloat :=
  let com := center_of_mass im in
  (np_rsub (128 # 1) com.1, np_rsub (128 # 1) com.2).

End Ch4.

(** ** The ejection-fraction cell on binary64 floats

    [ts] is a float64 array.  Its entries are binary64 floats ([float],
    the primitive type, with the IEEE operations [-], [/], [<=?]); the
    cell is the one of [Ch3.ejection_fraction], with nothing idealised. *)

Module Float64.

Definition reduce (beats : float -> float -> bool) (x : float) (l : list float) : float :=
  fold_left (fun best y => if beats best y then y else best) l x.

Fixpoint arg_from (beats : float -> float -> bool) (best : float) (besti i : nat)
    (l : list float) : nat :=
  match l with
  | [] => besti
  | y :: l' =>
      if beats best y then arg_from beats y i (S i) l'
      else arg_from beats best besti (S i) l'
  end.

(** NumPy's loops replace the running maximum [best] by [y] when
    [!(y <= best)], and stop replacing once it is NaN: a NaN in the array
    is the maximum and the minimum, and its first position is the argmax
    and the argmin.  Of equal values ([0.0] and [-0.0] compare equal) the
    one met first is kept. *)
Definition larger (best y : float) : bool :=
  negb (PrimFloat.is_nan best) && negb (y <=? best)%float.

Definition smaller (best y : float) : bool :=
  negb (PrimFloat.is_nan best) && negb (best <=? y)%float.

Definition np_max (ts : list float) : result float :=
  match ts with
  | [] => Raise ValueError
  | x :: ts' => Return (reduce larger x ts')
  end.

Definition np_min (ts : list float) : result float :=
  match ts with
  | [] => Raise ValueError
  | x :: ts' => Return (reduce smaller x ts')
  end.

Definition argmax (ts : list float) : result nat :=
  match ts with
  | [] => Raise ValueError
  | x :: ts' => Return (arg_from larger x 0 1 ts')
  end.

Definition argmin (ts : list float) : result nat :=
  match ts with
  | [] => Raise ValueError
  | x :: ts' => Return (arg_from smaller x 0 1 ts')
  end.

(** [tmax = np.argmax(ts)], [tmin = np.argmin(ts)],
    [ej_vol = ts.max() - ts.min()], [ej_frac = ej_vol / ts.max()]. *)
Record ejection : Type := {
  tmax : nat;
  tmin : nat;
  ej_vol : float;
  ej_frac : float
}.

Definition ejection_fraction (ts : list float) : result ejection :=
  tmax ← argmax ts;
  tmin ← argmin ts;
  mx ← np_max ts;
  mn ← np_min ts;
  let ej_vol := (mx - mn)%float in
  mret {| tmax := tmax; tmin := tmin; ej_vol := ej_vol; ej_frac := (ej_vol / mx)%float |}.

Definition is_number (x : float) : Prop := PrimFloat.is_nan x = false.

(** The order of the floats that are not NaN, read off their
    representation: sign class first, then exponent, then mantissa. *)
Definition key (x : spec_float) : Z * (Z * Z) :=
  match x with
  | S754_zero _ => (0, (0, 0))
  | S754_infinity s => (if s then -2 else 2, (0, 0))
  | S754_nan => (0, (0, 0))
  | S754_finite s m e => if s then (-1, (- e, Z.neg m)) else (1, (e, Z.pos m))
  end.

Definition lex_lt (a b : Z * (Z * Z)) : Prop :=
  a.1 < b.1 \/ (a.1 = b.1 /\ (a.2.1 < b.2.1 \/ (a.2.1 = b.2.1 /\ a.2.2 < b.2.2))).

End Float64.

(** ** Sample data *)

Module Samples.
Import Np.

(** A two-plane label map with two components. *)
Definition two_labels : volume Z :=
  [[[0; 1; 1]; [2; 0; 2]]; [[0; 0; 1]; [2; 2; 2]]].

(** The image of the median-filter quiz of chapter 3. *)
Definition quiz : grid Z := [[93; 36; 87]; [18; 49; 51]; [45; 32; 63]].

(** The float64 that the literal [1e308] denotes. *)
Definition huge : float := 0x1.1ccf385ebc8ap+1023%float.

(** The spec's scenarios: a 3 x 3 block centred in a 5 x 5 mask, and two
    disjoint 2 x 2 blocks in a 10 x 10 mask. *)
Definition block5 : grid bool :=
  Np.imap2d (fun r c _ => bool_decide (1 <= r <= 3 /\ 1 <= c <= 3)%nat)
    (replicate 5 (replicate 5 false)).

Definition blocks10 : grid bool :=
  Np.imap2d (fun r c _ => bool_decide ((1 <= r <= 2 /\ 1 <= c <= 2)
                                       \/ (5 <= r <= 6 /\ 5 <= c <= 6))%nat)
    (replicate 10 (replicate 10 false)).

End Samples.

(** * Properties *)

(** ** Float64 division and the reductions of a series *)

Module NpFacts.
Import Np.

Lemma Qltb_lt (a b : Q) : Qltb a b = true <-> (a < b)%Q.
Proof.
  unfold Qltb. rewrite negb_true_iff, <- not_true_iff_false, Qle_bool_iff.
  split; [apply Qnot_le_lt | apply Qlt_not_le].
Qed.

Lemma Qltb_ge (a b : Q) : Qltb a b = false <-> (b <= a)%Q.
Proof.
  unfold Qltb. rewrite negb_false_iff. apply Qle_bool_iff.
Qed.

Lemma np_div_finite (a b : Q) :
  ~ (b == 0)%Q -> exists q, np_div a b = Finite q /\ (q == a / b)%Q.
Proof.
  intros Hb. unfold np_div.
  destruct (Qeq_bool b 0) eqn:E.
  - apply Qeq_bool_iff in E. contradiction.
  - eexists. split; [reflexivity | apply Qred_correct].
Qed.

Lemma np_div_zero_zero (a b : Q) : (a == 0)%Q -> (b == 0)%Q -> np_div a b = NaN.
Proof.
  intros Ha Hb. unfold np_div.
  apply Qeq_bool_iff in Ha, Hb. rewrite Ha, Hb. reflexivity.
Qed.

Section Extremum.

(** [beats best y] decides a strict order [slt best y]; [sle] is the
    matching non-strict order. *)
Variable beats : Q -> Q -> bool.
Variables slt sle : Q -> Q -> Prop.
Hypothesis beats_true : forall a b, beats a b = true -> slt a b.
Hypothesis beats_false : forall a b, beats a b = false -> sle b a.
Hypothesis slt_sle : forall a b, slt a b -> sle a b.
Hypothesis sle_refl : forall a, sle a a.
Hypothesis sle_trans : forall a b c, sle a b -> sle b c -> sle a c.
Hypothesis sle_slt : forall a b c, sle a b -> slt b c -> slt a c.

Lemma arg_from_spec (l L : list Q) (best : Q) (besti i : nat) :
  drop i L = l ->
  L !! besti = Some best ->
  (forall j y, (j < i)%nat -> L !! j = Some y -> sle y best) ->
  (forall j y, (j < besti)%nat -> L !! j = Some y -> slt y best) ->
  L !! arg_from beats best besti i l = Some (reduce beats best l)
  /\ (forall j y, L !! j = Some y -> sle y (reduce beats best l))
  /\ (forall j y, (j < arg_from beats best besti i l)%nat ->
                  L !! j = Some y -> slt y (reduce beats best l)).
Proof.
  revert best besti i.
  induction l as [|y l IH]; intros best besti i Hdrop Hbest Hle Hlt.
  - simpl. repeat split; auto.
    intros j z Hj. apply (Hle j); auto.
    apply lookup_lt_Some in Hj.
    assert (length (drop i L) = 0%nat) as Hlen by (rewrite Hdrop; reflexivity).
    rewrite length_drop in Hlen. lia.
  - assert (L !! i = Some y) as Hy.
    { rewrite <- (Nat.add_0_r i), <- lookup_drop, Hdrop. reflexivity. }
    assert (drop (S i) L = l) as Hdrop'.
    { replace (S i) with (i + 1)%nat by lia.
      rewrite <- drop_drop, Hdrop. reflexivity. }
    unfold reduce. simpl. fold (reduce beats).
    destruct (beats best y) eqn:E.
    + apply beats_true in E.
      apply (IH y i (S i)); auto.
      * intros j z Hj Hz.
        destruct (decide (j = i)) as [->|Hne].
        -- rewrite Hy in Hz. injection Hz as <-. apply sle_refl.
        -- apply sle_trans with best; [apply (Hle j); auto; lia | auto].
      * intros j z Hj Hz. apply sle_slt with best; [apply (Hle j); auto | auto].
    + apply beats_false in E.
      apply (IH best besti (S i)); auto.
      intros j z Hj Hz.
      destruct (decide (j = i)) as [->|Hne].
      * rewrite Hy in Hz. injection Hz as <-. exact E.
      * apply (Hle j); auto; lia.
Qed.

(** On a non-empty series the reduction returns an element that bounds
    every other, and the index is that of its first occurrence. *)
Lemma extremum_spec (x : Q) (l : list Q) :
  let ts := x :: l in
  let m := reduce beats x l in
  let k := arg_from beats x 0 1 l in
  ts !! k = Some m
  /\ (forall j y, ts !! j = Some y -> sle y m)
  /\ (forall j y, (j < k)%nat -> ts !! j = Some y -> slt y m).
Proof.
  intros ts m k. apply (arg_from_spec l ts x 0%nat 1%nat); auto.
  - intros j y Hj Hy. assert (j = 0%nat) as -> by lia.
    simpl in Hy. injection Hy as <-. apply sle_refl.
  - intros j y Hj. lia.
Qed.

End Extremum.

Lemma max_spec (x : Q) (l : list Q) :
  let ts := x :: l in
  let m := reduce larger x l in
  let k := arg_from larger x 0 1 l in
  ts !! k = Some m
  /\ (forall j y, ts !! j = Some y -> (y <= m)%Q)
  /\ (forall j y, (j < k)%nat -> ts !! j = Some y -> (y < m)%Q).
Proof.
  apply (extremum_spec larger Qlt Qle).
  - intros a b. apply Qltb_lt.
  - intros a b. apply Qltb_ge.
  - intros a b. apply Qlt_le_weak.
  - apply Qle_refl.
  - apply Qle_trans.
  - apply Qle_lt_trans.
Qed.

Lemma min_spec (x : Q) (l : list Q) :
  let ts := x :: l in
  let m := reduce smaller x l in
  let k := arg_from smaller x 0 1 l in
  ts !! k = Some m
  /\ (forall j y, ts !! j = Some y -> (m <= y)%Q)
  /\ (forall j y, (j < k)%nat -> ts !! j = Some y -> (m < y)%Q).
Proof.
  apply (extremum_spec smaller (fun a b => (b < a)%Q) (fun a b => (b <= a)%Q)).
  - intros a b. apply Qltb_lt.
  - intros a b. apply Qltb_ge.
  - intros a b. apply Qlt_le_weak.
  - apply Qle_refl.
  - intros a b c H1 H2. apply Qle_trans with b; auto.
  - intros a b c H1 H2. apply Qlt_le_trans with b; auto.
Qed.

End NpFacts.

(** ** Arrays: indexing and shapes *)

Module GridFacts.
Import Np.

Lemma getitem2_Return {A} (im : grid A) (r c : nat) (v : A) :
  getitem2 im r c = Return v <-> exists row, im !! r = Some row /\ row !! c = Some v.
Proof.
  unfold getitem2. split.
  - destruct (im !! r) as [row|]; [|discriminate].
    destruct (row !! c) as [x|] eqn:E; [|discriminate].
    intros [= ->]. eauto.
  - intros (row & -> & ->). reflexivity.
Qed.

Lemma getitem2_map2d {A B} (f : A -> B) (im : grid A) (r c : nat) (v : A) :
  getitem2 im r c = Return v -> getitem2 (map2d f im) r c = Return (f v).
Proof.
  rewrite !getitem2_Return. intros (row & Hr & Hc).
  exists (f <$> row). unfold map2d.
  rewrite !list_lookup_fmap, Hr. simpl. rewrite Hc. auto.
Qed.

Lemma getitem2_imap2d {A B} (f : nat -> nat -> A -> B) (im : grid A) (r c : nat) (v : A) :
  getitem2 im r c = Return v -> getitem2 (imap2d f im) r c = Return (f r c v).
Proof.
  rewrite !getitem2_Return. intros (row & Hr & Hc).
  exists (imap (fun c x => f r c x) row). unfold imap2d.
  rewrite !list_lookup_imap, Hr. simpl. rewrite Hc. auto.
Qed.

Lemma row_lengths_map2d {A B} (f : A -> B) (im : grid A) :
  row_lengths (map2d f im) = row_lengths im.
Proof.
  unfold row_lengths, map2d. rewrite <- list_fmap_compose.
  apply list_fmap_ext. intros i row _. simpl. apply length_fmap.
Qed.

Lemma row_lengths_imap2d {A B} (f : nat -> nat -> A -> B) (im : grid A) :
  row_lengths (imap2d f im) = row_lengths im.
Proof.
  unfold row_lengths, imap2d. rewrite fmap_imap.
  rewrite <- (imap_const (length (A:=A))).
  apply imap_ext. intros i row _. simpl. apply length_imap.
Qed.

Lemma shape_row_lengths {A B} (a : grid A) (b : grid B) :
  row_lengths a = row_lengths b -> shape a = shape b.
Proof.
  unfold row_lengths, shape.
  destruct a as [|ra a], b as [|rb b]; simpl; try discriminate; auto.
  intros [= -> H]. f_equal.
  apply (f_equal length) in H. rewrite !length_fmap in H. lia.
Qed.

End GridFacts.

(** ** Chapter 3: ejection fraction *)

Module EjectionFacts.
Import Np NpFacts Ch3.

Lemma ejection_fraction_cons (x : Q) (l : list Q) :
  ejection_fraction (x :: l)
  = Return {| tmax := arg_from larger x 0 1 l;
              tmin := arg_from smaller x 0 1 l;
              ej_vol := (reduce larger x l - reduce smaller x l)%Q;
              ej_frac := np_div (reduce larger x l - reduce smaller x l)
                                (reduce larger x l) |}.
Proof. reflexivity. Qed.

(** C1, as the spec states it, fails: on the all-zero series [0, 0] the
    maximum is 0 and the cell returns normally, with the fraction NaN. *)
Lemma ejection_fraction_zero_series_returns_nan :
  np_max [0 # 1; 0 # 1]%Q = Return (0 # 1)%Q
  /\ ejection_fraction [0 # 1; 0 # 1]%Q
     = Return {| tmax := 0; tmin := 0; ej_vol := (0 # 1)%Q; ej_frac := NaN |}
  /\ ~ (exists e, ejection_fraction [0 # 1; 0 # 1]%Q = Raise e).
Proof.
  split; [reflexivity|]. split; [vm_compute; reflexivity|].
  intros [e He]. vm_compute in He. discriminate He.
Qed.

(** Every element of a non-negative series with maximum 0 is 0. *)
Lemma zero_series (x : Q) (l : list Q) :
  (reduce larger x l == 0)%Q ->
  (forall y, y ∈ x :: l -> (0 <= y)%Q) ->
  (reduce smaller x l == 0)%Q.
Proof.
  intros Hmax Hnonneg.
  destruct (max_spec x l) as (_ & Hub & _).
  destruct (min_spec x l) as (Hk & _ & _).
  apply Qle_antisym.
  - rewrite <- Hmax. apply (Hub _ _ Hk).
  - apply Hnonneg. apply list_elem_of_lookup. eauto.
Qed.

(** C1, amended. The cell has no degenerate-series result. On the empty
    series [np.argmax] raises ValueError; on a non-empty series of
    non-negative measurements whose maximum is 0 the cell returns
    normally with ejection volume 0 and the fraction NaN (0 / 0). *)
Theorem ejection_fraction_degenerate (ts : list Q) :
  (ts = [] -> ejection_fraction ts = Raise ValueError)
  /\ (forall mx, np_max ts = Return mx -> (mx == 0)%Q ->
      (forall y, y ∈ ts -> (0 <= y)%Q) ->
      exists (tmx tmn : nat) (v : Q),
        ejection_fraction ts
        = Return {| tmax := tmx; tmin := tmn; ej_vol := v; ej_frac := NaN |}
        /\ (v == 0)%Q).
Proof.
  split; [intros ->; reflexivity|].
  destruct ts as [|x l]; intros mx Hmax Hzero Hnonneg; [discriminate|].
  simpl in Hmax. injection Hmax as <-.
  pose proof (zero_series x l Hzero Hnonneg) as Hmin.
  assert (reduce larger x l - reduce smaller x l == 0)%Q as Hvol
    by (rewrite Hzero, Hmin; reflexivity).
  rewrite ejection_fraction_cons, (np_div_zero_zero _ _ Hvol Hzero).
  eauto.
Qed.

Lemma ejection_fraction_degenerate_witness :
  ejection_fraction [] = Raise ValueError
  /\ exists (tmx tmn : nat) (v : Q),
       ejection_fraction [0 # 1; 0 # 1; 0 # 1]%Q
       = Return {| tmax := tmx; tmin := tmn; ej_vol := v; ej_frac := NaN |}
       /\ (v == 0)%Q.
Proof.
  split.
  - apply (proj1 (ejection_fraction_degenerate [])). reflexivity.
  - apply (proj2 (ejection_fraction_degenerate [0 # 1; 0 # 1; 0 # 1]%Q) (0 # 1)%Q).
    + reflexivity.
    + reflexivity.
    + intros y Hy. repeat (apply elem_of_cons in Hy as [-> | Hy]; [discriminate|]).
      apply elem_of_nil in Hy. destruct Hy.
Defined.

End EjectionFacts.

(** ** Chapter 3: the ejection fraction on binary64 floats *)

Module Float64Facts.
Import Float64.

(** [key] orders the floats that are not NaN as [<?] and [<=?] do. *)
Lemma SFcompare_key (a b : spec_float) :
  a <> S754_nan -> b <> S754_nan ->
  (SFltb a b = true <-> lex_lt (key a) (key b))
  /\ (SFleb a b = true <-> ~ lex_lt (key b) (key a)).
Proof.
  intros Ha Hb. unfold SFltb, SFleb, lex_lt.
  destruct a as [sa|sa| |sa ma ea], b as [sb|sb| |sb mb eb]; try congruence;
    try destruct sa; try destruct sb; simpl;
    try (split; split; (discriminate || lia || (intros; exfalso; lia))).
  all: change (Pos.compare_cont Eq ma mb) with (Pos.compare ma mb);
    destruct (Z.compare_spec ea eb); destruct (Pos.compare_spec ma mb); simpl;
    split; split; try discriminate; try lia; intros; exfalso; lia.
Qed.

Lemma SFcompare_refl (a : spec_float) : a <> S754_nan -> SFcompare a a = Some Eq.
Proof.
  destruct a as [s|s| |s m e]; try congruence; intros _; simpl.
  - reflexivity.
  - destruct s; reflexivity.
  - change (Pos.compare_cont Eq m m) with (Pos.compare m m).
    rewrite Z.compare_refl, Pos.compare_refl. destruct s; reflexivity.
Qed.

Lemma is_nan_false (x : float) : PrimFloat.is_nan x = false <-> Prim2SF x <> S754_nan.
Proof.
  unfold PrimFloat.is_nan. rewrite FloatAxioms.eqb_spec. unfold SFeqb. split.
  - intros H E. rewrite E in H. discriminate.
  - intros H. rewrite SFcompare_refl by exact H. reflexivity.
Qed.

Lemma leb_not_nan (x y : float) :
  (x <=? y)%float = true -> PrimFloat.is_nan x = false /\ PrimFloat.is_nan y = false.
Proof.
  rewrite FloatAxioms.leb_spec, !is_nan_false. unfold SFleb.
  destruct (Prim2SF x), (Prim2SF y); simpl; try discriminate; split; congruence.
Qed.

Lemma ltb_not_nan (x y : float) :
  (x <? y)%float = true -> PrimFloat.is_nan x = false /\ PrimFloat.is_nan y = false.
Proof.
  rewrite FloatAxioms.ltb_spec, !is_nan_false. unfold SFltb.
  destruct (Prim2SF x), (Prim2SF y); simpl; try discriminate; split; congruence.
Qed.

Lemma leb_key (x y : float) :
  PrimFloat.is_nan x = false -> PrimFloat.is_nan y = false ->
  ((x <=? y)%float = true <-> ~ lex_lt (key (Prim2SF y)) (key (Prim2SF x))).
Proof.
  rewrite !is_nan_false, FloatAxioms.leb_spec. intros Hx Hy. apply SFcompare_key; assumption.
Qed.

Lemma ltb_key (x y : float) :
  PrimFloat.is_nan x = false -> PrimFloat.is_nan y = false ->
  ((x <? y)%float = true <-> lex_lt (key (Prim2SF x)) (key (Prim2SF y))).
Proof.
  rewrite !is_nan_false, FloatAxioms.ltb_spec. intros Hx Hy. apply SFcompare_key; assumption.
Qed.

Lemma leb_refl (x : float) : PrimFloat.is_nan x = false -> (x <=? x)%float = true.
Proof.
  intros Hx. apply leb_key; auto. unfold lex_lt. lia.
Qed.

Lemma leb_trans (x y z : float) :
  (x <=? y)%float = true -> (y <=? z)%float = true -> (x <=? z)%float = true.
Proof.
  intros H1 H2.
  destruct (leb_not_nan _ _ H1) as [Hx Hy], (leb_not_nan _ _ H2) as [_ Hz].
  apply leb_key in H1, H2; auto. apply leb_key; auto.
  revert H1 H2. unfold lex_lt.
  destruct (key (Prim2SF x)) as [a1 [a2 a3]], (key (Prim2SF y)) as [b1 [b2 b3]],
    (key (Prim2SF z)) as [c1 [c2 c3]]. simpl. lia.
Qed.

Lemma leb_false_ltb (x y : float) :
  PrimFloat.is_nan x = false -> PrimFloat.is_nan y = false ->
  (y <=? x)%float = false -> (x <? y)%float = true.
Proof.
  intros Hx Hy H. destruct (x <? y)%float eqn:E; [reflexivity|].
  assert (~ lex_lt (key (Prim2SF x)) (key (Prim2SF y))) as N.
  { intros L. apply ltb_key in L; auto. congruence. }
  apply leb_key in N; auto. congruence.
Qed.

Lemma ltb_leb (x y : float) : (x <? y)%float = true -> (x <=? y)%float = true.
Proof.
  intros H. destruct (ltb_not_nan _ _ H) as [Hx Hy].
  apply ltb_key in H; auto. apply leb_key; auto.
  revert H. unfold lex_lt.
  destruct (key (Prim2SF x)) as [a1 [a2 a3]], (key (Prim2SF y)) as [b1 [b2 b3]]. simpl. lia.
Qed.

Lemma leb_ltb_trans (x y z : float) :
  (x <=? y)%float = true -> (y <? z)%float = true -> (x <? z)%float = true.
Proof.
  intros H1 H2.
  destruct (leb_not_nan _ _ H1) as [Hx Hy], (ltb_not_nan _ _ H2) as [_ Hz].
  apply leb_key in H1; auto. apply ltb_key in H2; auto. apply ltb_key; auto.
  revert H1 H2. unfold lex_lt.
  destruct (key (Prim2SF x)) as [a1 [a2 a3]], (key (Prim2SF y)) as [b1 [b2 b3]],
    (key (Prim2SF z)) as [c1 [c2 c3]]. simpl. lia.
Qed.

Lemma ltb_leb_trans (x y z : float) :
  (x <? y)%float = true -> (y <=? z)%float = true -> (x <? z)%float = true.
Proof.
  intros H1 H2.
  destruct (ltb_not_nan _ _ H1) as [Hx Hy], (leb_not_nan _ _ H2) as [_ Hz].
  apply ltb_key in H1; auto. apply leb_key in H2; auto. apply ltb_key; auto.
  revert H1 H2. unfold lex_lt.
  destruct (key (Prim2SF x)) as [a1 [a2 a3]], (key (Prim2SF y)) as [b1 [b2 b3]],
    (key (Prim2SF z)) as [c1 [c2 c3]]. simpl. lia.
Qed.

(** A reduction whose result is a number saw numbers only. *)
Lemma reduce_nan (beats : float -> float -> bool) (l : list float) (x : float) :
  (forall a b, beats a b = true -> PrimFloat.is_nan a = false) ->
  (forall a b, PrimFloat.is_nan a = false -> PrimFloat.is_nan b = true -> beats a b = true) ->
  PrimFloat.is_nan (reduce beats x l) = false ->
  Forall (fun y => PrimFloat.is_nan y = false) (x :: l).
Proof.
  intros Hb1 Hb2. revert x. induction l as [|y l IH]; intros x H.
  - simpl in H. repeat constructor. exact H.
  - unfold reduce in H. simpl in H. fold (reduce beats) in H.
    destruct (beats x y) eqn:E.
    + apply IH in H. constructor; [eapply Hb1; eauto | exact H].
    + apply IH in H. inversion H as [|? ? Hx Hl]; subst.
      constructor; [exact Hx|]. constructor; [|exact Hl].
      destruct (PrimFloat.is_nan y) eqn:Ey; [|reflexivity].
      rewrite (Hb2 x y Hx Ey) in E. discriminate.
Qed.

Section Extremum.

Variable beats : float -> float -> bool.
Variables slt sle : float -> float -> Prop.
Hypothesis beats_true : forall a b, is_number a -> is_number b -> beats a b = true -> slt a b.
Hypothesis beats_false : forall a b, is_number a -> is_number b -> beats a b = false -> sle b a.
Hypothesis slt_sle : forall a b, slt a b -> sle a b.
Hypothesis sle_refl : forall a, is_number a -> sle a a.
Hypothesis sle_trans : forall a b c, sle a b -> sle b c -> sle a c.
Hypothesis sle_slt : forall a b c, sle a b -> slt b c -> slt a c.

Lemma f64_arg_from_spec (l L : list float) (best : float) (besti i : nat) :
  Forall is_number L ->
  drop i L = l ->
  L !! besti = Some best ->
  (forall j y, (j < i)%nat -> L !! j = Some y -> sle y best) ->
  (forall j y, (j < besti)%nat -> L !! j = Some y -> slt y best) ->
  L !! arg_from beats best besti i l = Some (reduce beats best l)
  /\ (forall j y, L !! j = Some y -> sle y (reduce beats best l))
  /\ (forall j y, (j < arg_from beats best besti i l)%nat ->
                  L !! j = Some y -> slt y (reduce beats best l)).
Proof.
  intros Hnum. revert best besti i.
  induction l as [|y l IH]; intros best besti i Hdrop Hbest Hle Hlt.
  - simpl. repeat split; auto.
    intros j z Hj. apply (Hle j); auto.
    apply lookup_lt_Some in Hj.
    assert (length (drop i L) = 0%nat) as Hlen by (rewrite Hdrop; reflexivity).
    rewrite length_drop in Hlen. lia.
  - assert (L !! i = Some y) as Hy.
    { rewrite <- (Nat.add_0_r i), <- lookup_drop, Hdrop. reflexivity. }
    assert (drop (S i) L = l) as Hdrop'.
    { replace (S i) with (i + 1)%nat by lia.
      rewrite <- drop_drop, Hdrop. reflexivity. }
    assert (is_number y) as Hny by (eapply (proj1 (Forall_lookup _ _) Hnum); eauto).
    assert (is_number best) as Hnb by (eapply (proj1 (Forall_lookup _ _) Hnum); eauto).
    unfold reduce. simpl. fold (reduce beats).
    destruct (beats best y) eqn:E.
    + apply beats_true in E; auto.
      apply (IH y i (S i)); auto.
      * intros j z Hj Hz.
        destruct (decide (j = i)) as [->|Hne].
        -- rewrite Hy in Hz. injection Hz as <-. apply sle_refl; auto.
        -- apply sle_trans with best; [apply (Hle j); auto; lia | auto].
      * intros j z Hj Hz. apply sle_slt with best; [apply (Hle j); auto | auto].
    + apply beats_false in E; auto.
      apply (IH best besti (S i)); auto.
      intros j z Hj Hz.
      destruct (decide (j = i)) as [->|Hne].
      * rewrite Hy in Hz. injection Hz as <-. exact E.
      * apply (Hle j); auto; lia.
Qed.

Lemma f64_extremum_spec (x : float) (l : list float) :
  Forall is_number (x :: l) ->
  let ts := x :: l in
  let m := reduce beats x l in
  let k := arg_from beats x 0 1 l in
  ts !! k = Some m
  /\ (forall j y, ts !! j = Some y -> sle y m)
  /\ (forall j y, (j < k)%nat -> ts !! j = Some y -> slt y m).
Proof.
  intros Hnum ts m k. apply (f64_arg_from_spec l ts x 0%nat 1%nat); auto.
  - intros j y Hj Hy. assert (j = 0%nat) as -> by lia.
    simpl in Hy. injection Hy as <-. apply sle_refl. inversion Hnum; auto.
  - intros j y Hj. lia.
Qed.

End Extremum.

Lemma f64_max_spec (x : float) (l : list float) :
  Forall (fun y => PrimFloat.is_nan y = false) (x :: l) ->
  let ts := x :: l in
  let m := reduce larger x l in
  let k := arg_from larger x 0 1 l in
  ts !! k = Some m
  /\ (forall j y, ts !! j = Some y -> (y <=? m)%float = true)
  /\ (forall j y, (j < k)%nat -> ts !! j = Some y -> (y <? m)%float = true).
Proof.
  apply (f64_extremum_spec larger (fun a b => (a <? b)%float = true)
           (fun a b => (a <=? b)%float = true)).
  - intros a b Ha Hb. unfold larger. rewrite Ha. simpl. rewrite negb_true_iff.
    apply leb_false_ltb; auto.
  - intros a b Ha Hb. unfold larger. rewrite Ha. simpl. rewrite negb_false_iff. auto.
  - apply ltb_leb.
  - apply leb_refl.
  - apply leb_trans.
  - apply leb_ltb_trans.
Qed.

Lemma f64_min_spec (x : float) (l : list float) :
  Forall (fun y => PrimFloat.is_nan y = false) (x :: l) ->
  let ts := x :: l in
  let m := reduce smaller x l in
  let k := arg_from smaller x 0 1 l in
  ts !! k = Some m
  /\ (forall j y, ts !! j = Some y -> (m <=? y)%float = true)
  /\ (forall j y, (j < k)%nat -> ts !! j = Some y -> (m <? y)%float = true).
Proof.
  apply (f64_extremum_spec smaller (fun a b => (b <? a)%float = true)
           (fun a b => (b <=? a)%float = true)).
  - intros a b Ha Hb. unfold smaller. rewrite Ha. simpl. rewrite negb_true_iff.
    apply leb_false_ltb; auto.
  - intros a b Ha Hb. unfold smaller. rewrite Ha. simpl. rewrite negb_false_iff. auto.
  - intros a b. apply ltb_leb.
  - apply leb_refl.
  - intros a b c H1 H2. apply leb_trans with b; auto.
  - intros a b c H1 H2. apply ltb_leb_trans with b; auto.
Qed.

Lemma larger_nan :
  (forall a b, larger a b = true -> PrimFloat.is_nan a = false)
  /\ (forall a b, PrimFloat.is_nan a = false -> PrimFloat.is_nan b = true -> larger a b = true).
Proof.
  unfold larger. split.
  - intros a b H. apply andb_true_iff in H as [H _]. apply negb_true_iff in H. exact H.
  - intros a b Ha Hb. rewrite Ha. simpl. apply negb_true_iff.
    destruct (b <=? a)%float eqn:E; [|reflexivity].
    apply leb_not_nan in E as [E _]. congruence.
Qed.


Lemma SFeqb_true (a b : spec_float) :
  SFeqb a b = true -> a = b \/ (exists s t, a = S754_zero s /\ b = S754_zero t).
Proof.
  unfold SFeqb.
  destruct a as [sa|sa| |sa ma ea], b as [sb|sb| |sb mb eb]; simpl;
    try discriminate; try (destruct sa; discriminate); try (destruct sb; discriminate).
  - intros _. right. eauto.
  - destruct sa, sb; try discriminate; auto.
  - change (Pos.compare_cont Eq ma mb) with (Pos.compare ma mb).
    destruct sa, sb; try discriminate;
      destruct (Z.compare_spec ea eb); try discriminate;
      destruct (Pos.compare_spec ma mb); try discriminate; subst; auto.
Qed.

(** Subtracting either zero from a positive float gives the same float. *)
Lemma sub_equal (mx a b : float) :
  (0 <? mx)%float = true -> (a =? b)%float = true -> (mx - a)%float = (mx - b)%float.
Proof.
  intros Hpos Heq. apply Prim2SF_inj. rewrite !sub_spec.
  rewrite FloatAxioms.eqb_spec in Heq. rewrite FloatAxioms.ltb_spec in Hpos.
  apply SFeqb_true in Heq as [->|(s & t & -> & ->)]; [reflexivity|].
  change (Prim2SF 0) with (S754_zero false) in Hpos.
  destruct (Prim2SF mx) as [sm|sm| |sm mm em]; try discriminate Hpos; reflexivity.
Qed.

Lemma f64_ejection_fraction_cons (x : float) (l : list float) :
  ejection_fraction (x :: l)
  = Return {| tmax := arg_from larger x 0 1 l;
              tmin := arg_from smaller x 0 1 l;
              ej_vol := (reduce larger x l - reduce smaller x l)%float;
              ej_frac := ((reduce larger x l - reduce smaller x l) / reduce larger x l)%float |}.
Proof. reflexivity. Qed.

(** C3. For a series whose maximum [mx] (as [ts.max()] returns it) is
    positive, the cell returns the float64 quotient [(mx - mn) / mx], each
    operation rounded as IEEE 754 prescribes, where [mn] is the minimum,
    together with the indices of the first occurrence of the maximum and
    of the minimum; the volume [mx - mn] is the same whichever of [0.0]
    and [-0.0] stands for a zero minimum.  On [100, 80, 120, 90] the
    fraction is the float64 nearest to 1/3, printed 0.3333333333333333,
    with indices 2 and 1; on [1e308, -1e308] the difference overflows and
    the fraction is [inf]. *)
Theorem ejection_fraction_binary64 :
  (forall (ts : list float) (mx : float),
      np_max ts = Return mx -> (0 <? mx)%float = true ->
      exists (tmx tmn : nat) (mn : float),
        np_min ts = Return mn
        /\ ejection_fraction ts
           = Return {| tmax := tmx; tmin := tmn; ej_vol := (mx - mn)%float;
                       ej_frac := ((mx - mn) / mx)%float |}
        /\ ts !! tmx = Some mx /\ ts !! tmn = Some mn
        /\ (forall j y, ts !! j = Some y -> (mn <=? y)%float = true /\ (y <=? mx)%float = true)
        /\ (forall j y, (j < tmx)%nat -> ts !! j = Some y -> (y <? mx)%float = true)
        /\ (forall j y, (j < tmn)%nat -> ts !! j = Some y -> (mn <? y)%float = true)
        /\ (forall mn', (mn' =? mn)%float = true -> (mx - mn')%float = (mx - mn)%float))
  /\ ejection_fraction [100; 80; 120; 90]%float
     = Return {| tmax := 2; tmin := 1; ej_vol := 40%float;
                 ej_frac := 0x1.5555555555555p-2%float |}
  /\ ejection_fraction [Samples.huge; (- Samples.huge)%float]
     = Return {| tmax := 0; tmin := 1; ej_vol := infinity; ej_frac := infinity |}.
Proof.
  split; [|split; vm_compute; reflexivity].
  intros [|x l] mx Hmax Hpos; [discriminate|].
  simpl in Hmax. injection Hmax as <-.
  assert (Forall (fun y => PrimFloat.is_nan y = false) (x :: l)) as Hnum.
  { apply (reduce_nan larger); [apply larger_nan | apply larger_nan |].
    apply ltb_not_nan in Hpos. apply Hpos. }
  destruct (f64_max_spec x l Hnum) as (Hk & Hub & Hfirst).
  destruct (f64_min_spec x l Hnum) as (Hk' & Hlb & Hfirst').
  exists (arg_from larger x 0 1 l), (arg_from smaller x 0 1 l), (reduce smaller x l).
  rewrite f64_ejection_fraction_cons.
  repeat split; eauto.
  intros mn' Heq. apply sub_equal; assumption.
Qed.

Lemma ejection_fraction_binary64_witness :
  exists (tmx tmn : nat) (mn : float),
    np_min [3; 1; 4]%float = Return mn
    /\ ejection_fraction [3; 1; 4]%float
       = Return {| tmax := tmx; tmin := tmn; ej_vol := (4 - mn)%float;
                   ej_frac := ((4 - mn) / 4)%float |}
    /\ [3; 1; 4]%float !! tmx = Some 4%float /\ [3; 1; 4]%float !! tmn = Some mn
    /\ (forall j y, [3; 1; 4]%float !! j = Some y ->
                    (mn <=? y)%float = true /\ (y <=? 4)%float = true)
    /\ (forall j y, (j < tmx)%nat -> [3; 1; 4]%float !! j = Some y -> (y <? 4)%float = true)
    /\ (forall j y, (j < tmn)%nat -> [3; 1; 4]%float !! j = Some y -> (mn <? y)%float = true)
    /\ (forall mn', (mn' =? mn)%float = true -> (4 - mn')%float = (4 - mn)%float).
Proof.
  apply (proj1 ejection_fraction_binary64 [3; 1; 4]%float 4%float).
  - reflexivity.
  - reflexivity.
Defined.

End Float64Facts.

(** ** Chapter 3: selecting a component by its anchor *)

Module SelectFacts.
Import Np GridFacts Ch3.

(** C2, as the spec states it, fails: where the anchor lies on the
    background the cell goes on with label 0, and the mask it builds
    selects the background.  The second half is the notebook's own anchor
    [labels[128, 128]] on an all-background 129 x 129 label map. *)
Lemma select_component_background_anchor :
  (select_component [[1; 1]; [1; 0]] (1, 1)%nat = Return 0
   /\ select_mask [[1; 1]; [1; 0]] (1, 1)%nat = Return [[0; 0]; [0; 1]]
   /\ ~ (exists e, select_component [[1; 1]; [1; 0]] (1, 1)%nat = Raise e))
  /\ (lv_val (replicate 129 (replicate 129 0)) = Return 0
      /\ lv_mask (replicate 129 (replicate 129 0)) = Return (replicate 129 (replicate 129 1))).
Proof.
  split.
  - split; [reflexivity|]. split; [reflexivity|].
    intros [e He]. discriminate He.
  - split; vm_compute; reflexivity.
Qed.

(** C2, amended. For an in-bounds anchor the cell reads the label [v] at
    the anchor and returns it whatever it is, 0 included; the mask it
    builds has the shape of the label map and holds 1 exactly at the
    pixels whose label is [v] (for [v = 0]: at the background pixels). *)
Theorem select_component_reads_anchor (labels : grid Z) (r c : nat) (v : Z) :
  getitem2 labels r c = Return v ->
  select_component labels (r, c) = Return v
  /\ exists m,
       select_mask labels (r, c) = Return m
       /\ row_lengths m = row_lengths labels
       /\ getitem2 m r c = Return 1
       /\ forall i j l, getitem2 labels i j = Return l ->
                        getitem2 m i j = Return (if l =? v then 1 else 0).
Proof.
  intros Hv. split; [exact Hv|].
  unfold select_mask, select_component. simpl. rewrite Hv. simpl.
  eexists. split; [reflexivity|].
  assert (forall i j l, getitem2 labels i j = Return l ->
            getitem2 (np_where (map2d (fun l0 => l0 =? v) labels) 1 0) i j
            = Return (if l =? v then 1 else 0)) as Hpix.
  { intros i j l Hl. unfold np_where.
    apply (getitem2_map2d (fun b : bool => if b then 1 else 0)).
    apply (getitem2_map2d (fun l0 => l0 =? v)). exact Hl. }
  split; [|split; [|exact Hpix]].
  - unfold np_where. rewrite !row_lengths_map2d. reflexivity.
  - rewrite (Hpix r c v Hv), Z.eqb_refl. reflexivity.
Qed.

Lemma select_component_reads_anchor_witness :
  select_component [[0; 2]; [2; 2]] (0, 0)%nat = Return 0
  /\ exists m,
       select_mask [[0; 2]; [2; 2]] (0, 0)%nat = Return m
       /\ row_lengths m = row_lengths [[0; 2]; [2; 2]]
       /\ getitem2 m 0 0 = Return 1
       /\ forall i j l, getitem2 [[0; 2]; [2; 2]] i j = Return l ->
                        getitem2 m i j = Return (if l =? 0 then 1 else 0).
Proof.
  apply (select_component_reads_anchor [[0; 2]; [2; 2]] 0 0 0). reflexivity.
Defined.

End SelectFacts.

(** ** Chapter 3: filtering and masking *)

Module MaskFacts.
Import Np Ndi GridFacts Ch3.

Lemma length_offsets (size : nat) : length (offsets size) = size.
Proof. unfold offsets. rewrite length_map, length_seq. reflexivity. Qed.

Lemma length_bind_const {A B} (f : A -> list B) (l : list A) (n : nat) :
  (forall x, length (f x) = n) -> length (l ≫= f) = (length l * n)%nat.
Proof.
  intros Hf. induction l as [|x l IH]; [reflexivity|].
  rewrite bind_cons, length_app, Hf, IH. simpl. lia.
Qed.

(** The window is the square of side [size]. *)
Lemma length_window (im : grid Z) (size r c : nat) :
  length (window im size r c) = (size * size)%nat.
Proof.
  unfold window.
  rewrite (length_bind_const _ _ size), length_offsets; [reflexivity|].
  intros dr. rewrite (length_bind_const _ _ 1%nat), length_offsets; [lia|].
  reflexivity.
Qed.

Lemma row_lengths_binary_closing (m : grid bool) :
  row_lengths (binary_closing m) = row_lengths m.
Proof.
  unfold binary_closing, binary_erosion, binary_dilation.
  rewrite !row_lengths_imap2d. reflexivity.
Qed.

Lemma row_lengths_filter_and_mask (im : grid Z) (size : nat) (threshold : Z) :
  row_lengths (filter_and_mask im size threshold) = row_lengths im.
Proof.
  unfold filter_and_mask, astype_bool, mask_start, np_where, im_filt, median_filter.
  rewrite row_lengths_binary_closing, !row_lengths_map2d, row_lengths_imap2d.
  reflexivity.
Qed.

(** The thresholded array holds 1 (true) exactly where the filtered
    intensity exceeds the threshold. *)
Lemma getitem2_mask_start (im : grid Z) (size : nat) (threshold : Z) (r c : nat) (v : Z) :
  getitem2 (im_filt im size) r c = Return v ->
  getitem2 (mask_start im size threshold) r c = Return (if threshold <? v then 1 else 0)
  /\ getitem2 (astype_bool (mask_start im size threshold)) r c = Return (threshold <? v).
Proof.
  intros H.
  assert (getitem2 (mask_start im size threshold) r c = Return (if threshold <? v then 1 else 0))
    as Hstart.
  { unfold mask_start, np_where.
    apply (getitem2_map2d (fun b : bool => if b then 1 else 0)).
    apply (getitem2_map2d (fun v => threshold <? v)). exact H. }
  split; [exact Hstart|].
  unfold astype_bool. rewrite (getitem2_map2d _ _ r c _ Hstart).
  destruct (threshold <? v); reflexivity.
Qed.

End MaskFacts.

(** ** Chapter 3: labelling the components *)

Module LabelFacts.
Import Np Ndi GridFacts Ch3.

Lemma pixel_at_getitem2 {A} (d : A) (im : grid A) (r c : nat) (v : A) :
  getitem2 im r c = Return v -> pixel_at d im (r, c) = v.
Proof.
  rewrite getitem2_Return. intros (row & Hr & Hc).
  unfold pixel_at. simpl.
  rewrite (nth_lookup_Some im r [] row Hr).
  apply (nth_lookup_Some row c d v Hc).
Qed.

Lemma coords_in_bounds {A} (im : grid A) (r c : nat) (v : A) :
  getitem2 im r c = Return v -> (r, c) ∈ coords im.
Proof.
  rewrite getitem2_Return. intros (row & Hr & Hc).
  unfold coords. apply list_elem_of_In, in_concat.
  exists (imap (fun c _ => (r, c)) row). split.
  - apply list_elem_of_In, elem_of_lookup_imap. eauto.
  - apply list_elem_of_In, elem_of_lookup_imap. eauto.
Qed.

Lemma coords_foreground (m : grid bool) (p : nat * nat) :
  p ∈ coords m -> pixel_at false m p = true -> getitem2 m p.1 p.2 = Return true.
Proof.
  intros Hin Hp. unfold coords in Hin.
  apply list_elem_of_In, in_concat in Hin as (l & Hl & Hpl).
  apply list_elem_of_In, elem_of_lookup_imap in Hl as (r & row & -> & Hr).
  apply list_elem_of_In, elem_of_lookup_imap in Hpl as (c & b & -> & Hc).
  simpl. apply getitem2_Return. exists row. split; [exact Hr|].
  rewrite <- Hp. unfold pixel_at. simpl.
  rewrite (nth_lookup_Some m r [] row Hr), (nth_lookup_Some row c false b Hc).
  exact Hc.
Qed.

Lemma pixel_at_zeros {A} (im : grid A) (p : nat * nat) :
  pixel_at 0 (map2d (fun _ => 0) im) p = 0.
Proof.
  unfold pixel_at, map2d. rewrite !nth_lookup, list_lookup_fmap.
  destruct (im !! p.1) as [row|]; simpl.
  - rewrite list_lookup_fmap. destruct (row !! p.2); reflexivity.
  - destruct (p.2); reflexivity.
Qed.

(** The running count never decreases. *)
Lemma label_scan_mono (m : grid bool) (ps : list (nat * nat)) (labels : grid Z) (k : Z) :
  k <= (label_scan m ps labels k).2.
Proof.
  revert labels k. induction ps as [|p ps IH]; intros labels k; simpl; [lia|].
  destruct (pixel_at false m p && (pixel_at 0 labels p =? 0)).
  - specialize (IH (paint labels (component m p) (k + 1)) (k + 1)). lia.
  - apply IH.
Qed.

(** Scanning background pixels only changes nothing. *)
Lemma label_scan_background (m : grid bool) (ps : list (nat * nat)) (labels : grid Z) (k : Z) :
  (forall p, p ∈ ps -> pixel_at false m p = false) ->
  label_scan m ps labels k = (labels, k).
Proof.
  revert labels k. induction ps as [|p ps IH]; intros labels k Hbg; simpl; [reflexivity|].
  rewrite (Hbg p) by (apply elem_of_cons; left; reflexivity). simpl.
  apply IH. intros q Hq. apply Hbg. apply elem_of_cons. right. exact Hq.
Qed.

(** Starting from the all-zero labelling, a foreground pixel among the
    scanned ones opens a component. *)
Lemma label_scan_foreground (m : grid bool) (ps : list (nat * nat)) (labels : grid Z) (k : Z) :
  (forall p, pixel_at 0 labels p = 0) ->
  (exists p, p ∈ ps /\ pixel_at false m p = true) ->
  k + 1 <= (label_scan m ps labels k).2.
Proof.
  intros Hzero. induction ps as [|p ps IH]; intros (q & Hq & Hfg); simpl.
  - apply elem_of_nil in Hq. destruct Hq.
  - rewrite Hzero. simpl. rewrite andb_true_r.
    destruct (pixel_at false m p) eqn:E.
    + apply label_scan_mono.
    + apply IH. exists q. split; [|exact Hfg].
      apply elem_of_cons in Hq as [-> | Hq]; [congruence | exact Hq].
Qed.

(** C5. The number of components [K] that [label_components] returns is
    never negative, and it is 0 exactly for the all-false mask, on which
    labelling returns normally, with the all-zero label map. *)
Theorem label_components_count (m : grid bool) :
  0 <= (label_components m).2
  /\ ((label_components m).2 = 0 <-> all_false m)
  /\ (all_false m -> label_components m = (map2d (fun _ => 0) m, 0)).
Proof.
  unfold label_components, label.
  assert (all_false m -> forall p, p ∈ coords m -> pixel_at false m p = false) as Hbg.
  { intros Hall p Hp. destruct (pixel_at false m p) eqn:E; [|reflexivity].
    destruct (Hall p.1 p.2). apply coords_foreground; assumption. }
  split; [apply label_scan_mono|]. split; [split|].
  - intros HK r c Hrc.
    pose proof (label_scan_foreground m (coords m) (map2d (fun _ => 0) m) 0
                  (pixel_at_zeros m)) as Hfg.
    rewrite HK in Hfg. enough (0 + 1 <= 0) by lia. apply Hfg.
    exists (r, c). split.
    + apply (coords_in_bounds m r c true Hrc).
    + apply (pixel_at_getitem2 false m r c true Hrc).
  - intros Hall. rewrite label_scan_background; [reflexivity | auto].
  - intros Hall. apply label_scan_background. auto.
Qed.

End LabelFacts.

(** ** Sums of indicator functions *)

Module SumFacts.
Import Np.

Lemma sumZ_app (l1 l2 : list Z) : sumZ (l1 ++ l2) = sumZ l1 + sumZ l2.
Proof. induction l1 as [|x l1 IH]; simpl; [reflexivity | rewrite IH; lia]. Qed.

Lemma sumZ_map_add {A} (f g : A -> Z) (l : list A) :
  sumZ (map (fun x => f x + g x) l) = sumZ (map f l) + sumZ (map g l).
Proof. induction l as [|x l IH]; simpl; [reflexivity | rewrite IH; lia]. Qed.

Lemma sumZ_map_zero {A} (l : list A) : sumZ (map (fun _ => 0) l) = 0.
Proof. induction l as [|x l IH]; simpl; [reflexivity | exact IH]. Qed.

Lemma sumZ_map_one {A} (l : list A) : sumZ (map (fun _ => 1) l) = Z.of_nat (length l).
Proof. induction l as [|x l IH]; simpl length; simpl sumZ; [reflexivity | rewrite IH; lia]. Qed.

Lemma sumZ_map_ext {A} (f g : A -> Z) (l : list A) :
  (forall x, x ∈ l -> f x = g x) -> sumZ (map f l) = sumZ (map g l).
Proof.
  induction l as [|x l IH]; intros H; simpl; [reflexivity|].
  rewrite (H x), IH; [reflexivity | | apply elem_of_cons; auto].
  intros y Hy. apply H, elem_of_cons. auto.
Qed.

Lemma sumZ_map_nonneg {A} (f : A -> Z) (l : list A) :
  (forall x, 0 <= f x) -> 0 <= sumZ (map f l).
Proof.
  intros H. induction l as [|x l IH]; simpl; [lia | specialize (H x); lia].
Qed.

(** Exchanging the order of a double sum. *)
Lemma sumZ_exchange {A B} (F : A -> B -> Z) (la : list A) (lb : list B) :
  sumZ (map (fun a => sumZ (map (fun b => F a b) lb)) la)
  = sumZ (map (fun b => sumZ (map (fun a => F a b) la)) lb).
Proof.
  induction lb as [|b lb IH]; simpl.
  - apply sumZ_map_zero.
  - rewrite <- IH. apply sumZ_map_add.
Qed.

(** Over a list without repetition, the indicator of one value sums to 1
    if the value occurs and to 0 otherwise. *)
Lemma sumZ_indicator {A} (p : A -> bool) (x : A) (l : list A) :
  NoDup l ->
  (forall y, y ∈ l -> (p y = true <-> y = x)) ->
  (x ∈ l -> sumZ (map (fun y => if p y then 1 else 0) l) = 1)
  /\ (x ∉ l -> sumZ (map (fun y => if p y then 1 else 0) l) = 0).
Proof.
  induction l as [|y l IH]; intros Hnd Hp.
  - split; [intros H; apply elem_of_nil in H; destruct H | reflexivity].
  - apply NoDup_cons in Hnd as [Hy Hnd].
    destruct IH as [IH1 IH0]; [exact Hnd | |].
    { intros z Hz. apply Hp, elem_of_cons. auto. }
    simpl. destruct (p y) eqn:E.
    + assert (y = x) as -> by (apply Hp; [apply elem_of_cons; auto | exact E]).
      rewrite (IH0 Hy). split; [reflexivity|].
      intros H. destruct H. apply elem_of_cons. auto.
    + assert (y <> x) as Hne.
      { intros ->. rewrite (proj2 (Hp x (proj2 (elem_of_cons _ _ _) (or_introl eq_refl))) eq_refl) in E.
        discriminate. }
      split.
      * intros H. apply elem_of_cons in H as [->|H]; [congruence|]. rewrite (IH1 H). reflexivity.
      * intros H. rewrite IH0; [reflexivity|]. intros Hx. apply H, elem_of_cons. auto.
Qed.

End SumFacts.

(** ** Chapter 3: measuring volumes *)

Module VolumeFacts.
Import Np SumFacts Ch3.

Lemma elem_of_label_values (K v : Z) : v ∈ label_values K <-> 1 <= v <= K.
Proof.
  unfold label_values. rewrite list_elem_of_fmap. split.
  - intros (i & -> & Hi). apply elem_of_seq in Hi. lia.
  - intros Hv. exists (Z.to_nat v). split; [lia|]. apply elem_of_seq. lia.
Qed.

Lemma NoDup_label_values (K : Z) : NoDup (label_values K).
Proof.
  unfold label_values. apply NoDup_fmap_2; [|apply NoDup_seq].
  intros i j H. lia.
Qed.

(** A voxel of a label map counts for exactly one non-zero label, unless
    it is background. *)
Lemma label_indicator (K v : Z) :
  0 <= v <= K ->
  sumZ (map (fun l => if v =? l then 1 else 0) (label_values K))
  = if v =? 0 then 0 else 1.
Proof.
  intros Hv.
  destruct (sumZ_indicator (fun l => v =? l) v (label_values K)) as [H1 H0].
  - apply NoDup_label_values.
  - intros y _. rewrite Z.eqb_eq. split; congruence.
  - destruct (Z.eqb_spec v 0) as [->|Hne].
    + apply H0. rewrite elem_of_label_values. lia.
    + apply H1. rewrite elem_of_label_values. lia.
Qed.

Lemma count_labels_foreground (vs : list Z) (K : Z) :
  Forall (fun v => 0 <= v <= K) vs ->
  sumZ (map (fun l => sumZ (map (fun v => if v =? l then 1 else 0) vs)) (label_values K))
  = sumZ (map (fun v => if v =? 0 then 0 else 1) vs).
Proof.
  intros Hvs. rewrite sumZ_exchange.
  apply sumZ_map_ext. intros v Hv.
  rewrite Forall_forall in Hvs. apply label_indicator, Hvs, Hv.
Qed.

Lemma sumQ_scale {A} (c : A -> Z) (dv : Q) (l : list A) :
  (sumQ (map (fun x => inject_Z (c x) * dv) l) == inject_Z (sumZ (map c l)) * dv)%Q.
Proof.
  induction l as [|x l IH]; simpl.
  - ring.
  - rewrite IH, inject_Z_plus. ring.
Qed.

Lemma count_label_filter (vs : list Z) (l : Z) :
  sumZ (map (fun v => if v =? l then 1 else 0) vs)
  = Z.of_nat (length (filter (fun v => v = l) vs)).
Proof.
  induction vs as [|v vs IH]; [reflexivity|].
  simpl sumZ. rewrite filter_cons.
  destruct (Z.eqb_spec v l) as [->|Hne].
  - rewrite decide_True by reflexivity. simpl length. rewrite IH. lia.
  - rewrite decide_False by exact Hne. rewrite IH. lia.
Qed.

(** C6. Over a label map with labels [0..K], the measurements of the
    labels [1..K] add up to the measurement of the whole foreground
    [label_map != 0], for every voxel volume [dvoxel] (positive or not);
    each measurement is the number of voxels that carry the label, times
    [dvoxel]. *)
Theorem measure_volume_conservation (lm : volume Z) (K : Z) (dvoxel : Q) :
  is_label_map lm K ->
  (measure_all_labels lm K dvoxel == measure_foreground lm dvoxel)%Q
  /\ forall l, measure_volume lm l dvoxel
               = (inject_Z (Z.of_nat (length (filter (fun v => v = l) (ravel3 lm)))) * dvoxel)%Q.
Proof.
  intros Hlm. split.
  - unfold measure_all_labels, measure_foreground, measure_volume, count_label, count_foreground.
    change (sumQ (map (fun l => inject_Z (sumZ (map (fun v => if (v =? l)%Z then 1%Z else 0%Z)
                                                    (ravel3 lm))) * dvoxel) (label_values K))
            == inject_Z (sumZ (map (fun v => if (v =? 0)%Z then 0%Z else 1%Z) (ravel3 lm)))
               * dvoxel)%Q.
    rewrite (sumQ_scale (fun l => sumZ (map (fun v => if v =? l then 1 else 0) (ravel3 lm)))).
    rewrite (count_labels_foreground _ K Hlm). reflexivity.
  - intros l. unfold measure_volume, count_label. rewrite count_label_filter. reflexivity.
Qed.

Lemma measure_volume_conservation_witness :
  (measure_all_labels Samples.two_labels 2 (3 # 2)
   == measure_foreground Samples.two_labels (3 # 2))%Q
  /\ forall l, measure_volume Samples.two_labels l (3 # 2)
               = (inject_Z (Z.of_nat (length (filter (fun v => v = l)
                                                (ravel3 Samples.two_labels)))) * (3 # 2))%Q.
Proof.
  apply (measure_volume_conservation Samples.two_labels 2 (3 # 2)%Q).
  unfold is_label_map. simpl. repeat constructor; lia.
Defined.

End VolumeFacts.

(** ** Chapter 3: the volume time series *)

Module SeriesFacts.
Import Np Ch3.


End SeriesFacts.

(** ** Quotients of integers as float64 results *)

Module QuotientFacts.
Import Np NpFacts.

Lemma inject_Z_nonzero (n : Z) : n <> 0 -> ~ (inject_Z n == 0)%Q.
Proof. intros Hn H. apply Hn. apply (inject_Z_injective n 0). exact H. Qed.

(** A quotient by a non-zero integer is finite. *)
Lemma np_div_Z (a n : Z) :
  n <> 0 -> np_div (inject_Z a) (inject_Z n) = Finite (Qred (inject_Z a / inject_Z n)).
Proof.
  intros Hn. unfold np_div.
  destruct (Qeq_bool (inject_Z n) 0) eqn:E; [|reflexivity].
  apply Qeq_bool_iff in E. destruct (inject_Z_nonzero n Hn E).
Qed.

Lemma Qdiv_Z_le (a b n : Z) :
  0 < n -> a <= b -> (inject_Z a / inject_Z n <= inject_Z b / inject_Z n)%Q.
Proof.
  intros Hn Hab. unfold Qdiv. apply Qmult_le_compat_r.
  - rewrite <- Zle_Qle. exact Hab.
  - apply Qinv_le_0_compat. change 0%Q with (inject_Z 0). rewrite <- Zle_Qle. lia.
Qed.

Lemma Qdiv_Z_same (n : Z) : n <> 0 -> (inject_Z n / inject_Z n == 1)%Q.
Proof. intros Hn. apply Qmult_inv_r, inject_Z_nonzero, Hn. Qed.

Lemma Qdiv_Z_zero (n : Z) : (inject_Z 0 / inject_Z n == 0)%Q.
Proof. unfold Qdiv. apply Qmult_0_l. Qed.

Lemma Qdiv_Z_inj (a b n : Z) :
  n <> 0 -> (inject_Z a / inject_Z n == inject_Z b / inject_Z n)%Q -> a = b.
Proof.
  intros Hn H. apply inject_Z_injective.
  unfold Qdiv in H. apply Qmult_inj_r in H; [exact H|].
  intros Hinv. apply (inject_Z_nonzero n Hn).
  rewrite <- (Qinv_involutive (inject_Z n)), Hinv. reflexivity.
Qed.

(** Two such quotients are the same float64 exactly when the numerators
    agree. *)
Lemma np_div_Z_inj (a b n : Z) :
  n <> 0 -> (np_div (inject_Z a) (inject_Z n) = np_div (inject_Z b) (inject_Z n) <-> a = b).
Proof.
  intros Hn. rewrite !np_div_Z by exact Hn. split; [|intros ->; reflexivity].
  intros [= H]. apply (Qdiv_Z_inj a b n Hn).
  rewrite <- (Qred_correct (inject_Z a / inject_Z n)), H. apply Qred_correct.
Qed.

End QuotientFacts.

(** ** Elementwise operations on two arrays *)

Module ZipFacts.
Import Np GridFacts SumFacts.

(** The pairs of elements an elementwise operation meets, in C order. *)
Lemma ravel_zip2d {A B C} (f : A -> B -> C) (a : grid A) (b : grid B) :
  ravel (zip2d f a b) = map (fun p => f p.1 p.2) (ravel (zip2d pair a b)).
Proof.
  unfold ravel, zip2d. revert b.
  induction a as [|ra a IH]; intros [|rb b]; simpl; try reflexivity.
  rewrite IH, map_app. f_equal.
  clear. revert rb. induction ra as [|x ra IH]; intros [|y rb]; simpl; try reflexivity.
  rewrite IH. reflexivity.
Qed.

Lemma elem_of_ravel {A} (im : grid A) (v : A) :
  v ∈ ravel im <-> exists r c, getitem2 im r c = Return v.
Proof.
  unfold ravel. rewrite list_elem_of_In, in_concat. split.
  - intros (row & Hrow & Hv).
    apply list_elem_of_In, list_elem_of_lookup in Hrow as [r Hr].
    apply list_elem_of_In, list_elem_of_lookup in Hv as [c Hc].
    exists r, c. apply getitem2_Return. eauto.
  - intros (r & c & H). apply getitem2_Return in H as (row & Hr & Hc).
    exists row. split; apply list_elem_of_In, list_elem_of_lookup; eauto.
Qed.

Lemma getitem2_zip2d {A B C} (f : A -> B -> C) (a : grid A) (b : grid B) (r c : nat) (z : C) :
  getitem2 (zip2d f a b) r c = Return z
  <-> exists x y, z = f x y /\ getitem2 a r c = Return x /\ getitem2 b r c = Return y.
Proof.
  rewrite getitem2_Return. unfold zip2d. split.
  - intros (row & Hr & Hc).
    apply lookup_zip_with_Some in Hr as (ra & rb & -> & Ha & Hb).
    apply lookup_zip_with_Some in Hc as (x & y & -> & Hx & Hy).
    exists x, y. rewrite !getitem2_Return. eauto 10.
  - intros (x & y & -> & Hx & Hy).
    apply getitem2_Return in Hx as (ra & Ha & Hx).
    apply getitem2_Return in Hy as (rb & Hb & Hy).
    exists (zip_with f ra rb). split; apply lookup_zip_with_Some; eauto 10.
Qed.

Lemma elem_of_pairs {A B} (a : grid A) (b : grid B) (p : A * B) :
  p ∈ ravel (zip2d pair a b) ->
  exists r c, getitem2 a r c = Return p.1 /\ getitem2 b r c = Return p.2.
Proof.
  rewrite elem_of_ravel. intros (r & c & H).
  apply getitem2_zip2d in H as (x & y & -> & Hx & Hy). eauto.
Qed.

Lemma zip2d_comm {A C} (f : A -> A -> C) (a b : grid A) :
  (forall x y, f x y = f y x) -> zip2d f a b = zip2d f b a.
Proof.
  intros Hf. unfold zip2d. revert b.
  induction a as [|ra a IH]; intros [|rb b]; simpl; try reflexivity.
  rewrite IH. f_equal.
  clear -Hf. revert rb. induction ra as [|x ra IH]; intros [|y rb]; simpl; try reflexivity.
  rewrite IH, Hf. reflexivity.
Qed.

Lemma row_lengths_zip2d {A B C} (f : A -> B -> C) (a : grid A) (b : grid B) :
  row_lengths a = row_lengths b -> row_lengths (zip2d f a b) = row_lengths a.
Proof.
  unfold row_lengths, zip2d. revert b.
  induction a as [|ra a IH]; intros [|rb b] H; try discriminate H; [reflexivity|].
  cbn [zip_with]. rewrite !fmap_cons in *. injection H as Hr H.
  rewrite (IH b H), length_zip_with. f_equal. lia.
Qed.

Lemma length_ravel {A B} (a : grid A) (b : grid B) :
  row_lengths a = row_lengths b -> length (ravel a) = length (ravel b).
Proof.
  unfold row_lengths, ravel. revert b.
  induction a as [|ra a IH]; intros [|rb b] H; try discriminate H; [reflexivity|].
  rewrite !fmap_cons in H. injection H as Hr H.
  cbn [concat]. rewrite !length_app, (IH b H). lia.
Qed.

End ZipFacts.

(** ** Chapter 4: intersection of the union *)

Module IouFacts.
Import Np NpFacts GridFacts SumFacts QuotientFacts ZipFacts Ch4.

Lemma sumZ_map_le {A} (f g : A -> Z) (l : list A) :
  (forall x, f x <= g x) -> sumZ (map f l) <= sumZ (map g l).
Proof.
  intros H. induction l as [|x l IH]; simpl; [lia | specialize (H x); lia].
Qed.

Lemma sumZ_map_elem {A} (f : A -> Z) (l : list A) (x : A) :
  (forall y, 0 <= f y) -> x ∈ l -> f x <= sumZ (map f l).
Proof.
  intros Hf. induction l as [|y l IH]; intros Hx.
  - apply elem_of_nil in Hx. destruct Hx.
  - simpl. apply elem_of_cons in Hx as [->|Hx].
    + pose proof (sumZ_map_nonneg f l Hf). lia.
    + specialize (IH Hx). specialize (Hf y). lia.
Qed.

Lemma np_sum_bool_nonneg (m : grid bool) : 0 <= np_sum_bool m.
Proof. apply sumZ_map_nonneg. intros []; lia. Qed.

(** [m.sum()] is 0 exactly when the mask has no true element. *)
Lemma np_sum_bool_zero (m : grid bool) : np_sum_bool m = 0 <-> all_false m.
Proof.
  unfold np_sum_bool, all_false. split.
  - intros Hsum r c Hrc.
    assert (true ∈ ravel m) as Hin by (apply elem_of_ravel; eauto).
    apply (sumZ_map_elem (fun b : bool => if b then 1 else 0)) in Hin; [lia|].
    intros []; lia.
  - intros Hall.
    transitivity (sumZ (map (fun _ : bool => 0) (ravel m))); [|apply sumZ_map_zero].
    apply sumZ_map_ext. intros [] Hx; [|reflexivity].
    apply elem_of_ravel in Hx as (r & c & Hrc). destruct (Hall r c Hrc).
Qed.

Lemma intersection_le_union (a b : grid bool) :
  np_sum_bool (np_logical_and a b) <= np_sum_bool (np_logical_or a b).
Proof.
  unfold np_sum_bool, np_logical_and, np_logical_or.
  rewrite (ravel_zip2d andb), (ravel_zip2d orb), !map_map.
  apply sumZ_map_le. intros [[] []]; simpl; lia.
Qed.

Lemma union_all_false (a b : grid bool) :
  all_false a -> all_false b -> all_false (np_logical_or a b).
Proof.
  intros Ha Hb r c H. unfold np_logical_or in H.
  apply getitem2_zip2d in H as (x & y & Hxy & Hx & Hy).
  destruct x; [destruct (Ha r c Hx)|].
  destruct y; [destruct (Hb r c Hy)|]. discriminate Hxy.
Qed.

(** C9. On masks of one shape the IOU does not depend on the order of its
    arguments; when the union has a true pixel it is a finite value in
    [0, 1]; when both masks are all-false, [u.sum()] is 0 and the cell
    divides all the same: the result is NaN. *)
Theorem intersection_of_union_range (im1 im2 : grid bool) :
  row_lengths im1 = row_lengths im2 ->
  intersection_of_union im1 im2 = intersection_of_union im2 im1
  /\ (~ all_false (np_logical_or im1 im2) ->
      exists q, intersection_of_union im1 im2 = Finite q /\ (0 <= q <= 1)%Q)
  /\ (all_false im1 -> all_false im2 ->
      np_sum_bool (np_logical_or im1 im2) = 0
      /\ intersection_of_union im1 im2 = NaN).
Proof.
  intros _. split; [|split].
  - unfold intersection_of_union, np_logical_and, np_logical_or.
    rewrite (zip2d_comm andb im1 im2), (zip2d_comm orb im1 im2); [reflexivity | |].
    + intros [] []; reflexivity.
    + intros [] []; reflexivity.
  - intros Hany. unfold intersection_of_union.
    pose proof (np_sum_bool_nonneg (np_logical_or im1 im2)) as Hu.
    pose proof (np_sum_bool_nonneg (np_logical_and im1 im2)) as Hi.
    pose proof (intersection_le_union im1 im2) as Hiu.
    assert (np_sum_bool (np_logical_or im1 im2) <> 0) as Hne.
    { intros H. apply Hany, np_sum_bool_zero, H. }
    rewrite np_div_Z by exact Hne.
    eexists. split; [reflexivity|]. rewrite Qred_correct. split.
    + rewrite <- (Qdiv_Z_zero (np_sum_bool (np_logical_or im1 im2))).
      apply Qdiv_Z_le; lia.
    + rewrite <- (Qdiv_Z_same (np_sum_bool (np_logical_or im1 im2)) Hne).
      apply Qdiv_Z_le; lia.
  - intros H1 H2.
    assert (np_sum_bool (np_logical_or im1 im2) = 0) as Hu
      by (apply np_sum_bool_zero, union_all_false; assumption).
    split; [exact Hu|].
    pose proof (np_sum_bool_nonneg (np_logical_and im1 im2)) as Hi.
    pose proof (intersection_le_union im1 im2) as Hiu.
    assert (np_sum_bool (np_logical_and im1 im2) = 0) as Hi0 by lia.
    unfold intersection_of_union. rewrite Hu, Hi0. reflexivity.
Qed.

Lemma intersection_of_union_range_witness :
  intersection_of_union [[true; false]; [true; true]] [[true; true]; [false; false]]
  = intersection_of_union [[true; true]; [false; false]] [[true; false]; [true; true]]
  /\ (~ all_false (np_logical_or [[true; false]; [true; true]] [[true; true]; [false; false]]) ->
      exists q, intersection_of_union [[true; false]; [true; true]] [[true; true]; [false; false]]
                = Finite q /\ (0 <= q <= 1)%Q)
  /\ (all_false [[true; false]; [true; true]] -> all_false [[true; true]; [false; false]] ->
      np_sum_bool (np_logical_or [[true; false]; [true; true]] [[true; true]; [false; false]]) = 0
      /\ intersection_of_union [[true; false]; [true; true]] [[true; true]; [false; false]] = NaN).
Proof.
  apply (intersection_of_union_range [[true; false]; [true; true]] [[true; true]; [false; false]]).
  reflexivity.
Defined.

End IouFacts.

(** ** Chapter 4: mean absolute error on 8-bit images *)

Module MaeFacts.
Import Np NpFacts GridFacts SumFacts QuotientFacts ZipFacts Ch4.

Lemma abs_err_px_wrap (a b : Z) :
  is_uint8 a -> is_uint8 b -> a < b -> abs_err_px a b = 256 - (b - a).
Proof.
  unfold is_uint8, abs_err_px, uint8_abs, uint8_sub, wrap8. intros Ha Hb Hlt.
  rewrite Z.abs_eq by (apply Z.mod_pos_bound; lia).
  rewrite Z.mod_mod by lia.
  rewrite <- (Z.mod_add (a - b) 1 256) by lia.
  rewrite Z.mod_small; lia.
Qed.

Lemma abs_err_px_exact (a b : Z) :
  is_uint8 a -> is_uint8 b -> b <= a -> abs_err_px a b = a - b.
Proof.
  unfold is_uint8, abs_err_px, uint8_abs, uint8_sub, wrap8. intros Ha Hb Hle.
  rewrite (Z.mod_small (a - b)) by lia.
  rewrite Z.abs_eq by lia. apply Z.mod_small. lia.
Qed.

(** The computed error is the absolute difference plus the excess of the
    wrap-around. *)
Lemma abs_err_px_split (a b : Z) :
  is_uint8 a -> is_uint8 b -> abs_err_px a b = Z.abs (a - b) + wrap_excess_px a b.
Proof.
  intros Ha Hb. unfold wrap_excess_px.
  destruct (Z.ltb_spec a b) as [Hlt|Hge].
  - rewrite abs_err_px_wrap by assumption. lia.
  - rewrite abs_err_px_exact by assumption. lia.
Qed.

Lemma uint8_pixel (im : grid Z) (r c : nat) (a : Z) :
  is_uint8_image im -> getitem2 im r c = Return a -> is_uint8 a.
Proof.
  intros Him H. apply getitem2_Return in H as (row & Hr & Hc).
  unfold is_uint8_image in Him.
  apply (Forall_lookup_1 _ _ _ _ Him) in Hr.
  apply (Forall_lookup_1 _ _ _ _ Hr) in Hc. exact Hc.
Qed.

Lemma np_sum_abs_err (im1 im2 : grid Z) :
  is_uint8_image im1 -> is_uint8_image im2 ->
  np_sum (abs_err im1 im2) = np_sum (true_abs_err im1 im2) + np_sum (wrap_excess im1 im2).
Proof.
  intros H1 H2. unfold np_sum, abs_err, true_abs_err, wrap_excess.
  rewrite (ravel_zip2d abs_err_px), (ravel_zip2d (fun a b => Z.abs (a - b))),
    (ravel_zip2d wrap_excess_px).
  rewrite <- sumZ_map_add.
  assert (forall l : list Z, sumZ l = sumZ (map (fun x => x) l)) as Hid
    by (intros l; rewrite map_id; reflexivity).
  rewrite (Hid (map _ _)), (Hid (map (fun x => _ + _) _)), !map_map.
  apply sumZ_map_ext. intros p Hp.
  apply elem_of_pairs in Hp as (r & c & Ha & Hb).
  apply abs_err_px_split; [apply (uint8_pixel im1 r c) | apply (uint8_pixel im2 r c)]; assumption.
Qed.

(** C8, as stated, fails: a wrapped error of 128 is the true absolute
    difference, and wrapped errors can cancel in the mean, so the
    reported MAE is the mean absolute difference on these 8-bit images
    where [im2] exceeds [im1]. *)
Lemma mean_abs_err_wrap_unnoticed :
  (abs_err [[0]] [[128]] = [[128]]
   /\ true_abs_err [[0]] [[128]] = [[128]]
   /\ mean_abs_err [[0]] [[128]] = true_mean_abs_err [[0]] [[128]])
  /\ (abs_err [[0; 0]] [[100; 156]] = [[156; 100]]
      /\ true_abs_err [[0; 0]] [[100; 156]] = [[100; 156]]
      /\ mean_abs_err [[0; 0]] [[100; 156]] = Finite (128 # 1)
      /\ true_mean_abs_err [[0; 0]] [[100; 156]] = Finite (128 # 1)).
Proof. repeat split; vm_compute; reflexivity. Qed.

(** C8, amended. On 8-bit images of one shape the subtraction wraps: at
    every pixel where [im2] exceeds [im1] the computed error is
    [256 - (im2 - im1)], which is the true absolute difference only when
    that difference is 128.  The computed errors add up to the true
    absolute differences plus the excess [256 - 2 (im2 - im1)] of those
    pixels, so on a non-empty image the reported MAE is the mean absolute
    difference exactly when the excesses add up to 0. *)
Theorem mean_abs_err_wraps (im1 im2 : grid Z) :
  is_uint8_image im1 -> is_uint8_image im2 -> row_lengths im1 = row_lengths im2 ->
  (forall r c a b,
      getitem2 im1 r c = Return a -> getitem2 im2 r c = Return b -> a < b ->
      getitem2 (abs_err im1 im2) r c = Return (256 - (b - a))
      /\ (256 - (b - a) = b - a <-> b - a = 128))
  /\ np_sum (abs_err im1 im2) = np_sum (true_abs_err im1 im2) + np_sum (wrap_excess im1 im2)
  /\ (ravel im1 <> [] ->
      (mean_abs_err im1 im2 = true_mean_abs_err im1 im2 <-> np_sum (wrap_excess im1 im2) = 0)).
Proof.
  intros H1 H2 Hshape. split; [|split].
  - intros r c a b Ha Hb Hlt. split; [|lia].
    unfold abs_err. apply getitem2_zip2d. exists a, b.
    split; [|split; assumption].
    symmetry. apply abs_err_px_wrap; [apply (uint8_pixel im1 r c) | apply (uint8_pixel im2 r c) |];
      assumption.
  - apply np_sum_abs_err; assumption.
  - intros Hne. unfold mean_abs_err, true_mean_abs_err, np_mean.
    assert (length (ravel (abs_err im1 im2)) = length (ravel im1)) as ->.
    { apply length_ravel, row_lengths_zip2d, Hshape. }
    assert (length (ravel (true_abs_err im1 im2)) = length (ravel im1)) as ->.
    { apply length_ravel, row_lengths_zip2d, Hshape. }
    rewrite np_div_Z_inj.
    + rewrite np_sum_abs_err by assumption. lia.
    + destruct (ravel im1); [congruence | simpl; lia].
Qed.

Lemma mean_abs_err_wraps_witness :
  (forall r c a b,
      getitem2 [[10; 200]; [7; 7]] r c = Return a ->
      getitem2 [[12; 100]; [7; 0]] r c = Return b -> a < b ->
      getitem2 (abs_err [[10; 200]; [7; 7]] [[12; 100]; [7; 0]]) r c = Return (256 - (b - a))
      /\ (256 - (b - a) = b - a <-> b - a = 128))
  /\ np_sum (abs_err [[10; 200]; [7; 7]] [[12; 100]; [7; 0]])
     = np_sum (true_abs_err [[10; 200]; [7; 7]] [[12; 100]; [7; 0]])
       + np_sum (wrap_excess [[10; 200]; [7; 7]] [[12; 100]; [7; 0]])
  /\ (ravel [[10; 200]; [7; 7]] <> [] ->
      (mean_abs_err [[10; 200]; [7; 7]] [[12; 100]; [7; 0]]
       = true_mean_abs_err [[10; 200]; [7; 7]] [[12; 100]; [7; 0]]
       <-> np_sum (wrap_excess [[10; 200]; [7; 7]] [[12; 100]; [7; 0]]) = 0)).
Proof.
  apply (mean_abs_err_wraps [[10; 200]; [7; 7]] [[12; 100]; [7; 0]]).
  - unfold is_uint8_image, is_uint8. repeat constructor; lia.
  - unfold is_uint8_image, is_uint8. repeat constructor; lia.
  - reflexivity.
Defined.

End MaeFacts.

(** ** Chapter 2: histogram and cumulative distribution *)

Module CdfFacts.
Import Np Ndi NpFacts GridFacts SumFacts QuotientFacts Ch2.

Lemma lookup_map {A B} (f : A -> B) (l : list A) (i : nat) :
  map f l !! i = f <$> (l !! i).
Proof. exact (list_lookup_fmap f l i). Qed.

Lemma length_cumsum_from (l : list Z) (acc : Z) : length (cumsum_from acc l) = length l.
Proof.
  revert acc. induction l as [|x l IH]; intros acc; simpl; [reflexivity|].
  rewrite IH. reflexivity.
Qed.

(** Entry [i] of the running sum is the sum of the first [i + 1] terms. *)
Lemma cumsum_from_lookup (l : list Z) (acc : Z) (i : nat) :
  (i < length l)%nat -> cumsum_from acc l !! i = Some (acc + sumZ (take (S i) l)).
Proof.
  revert acc i. induction l as [|x l IH]; intros acc i Hi; simpl in Hi; [lia|].
  destruct i as [|i]; simpl.
  - f_equal. destruct l; simpl; lia.
  - rewrite IH by lia. f_equal. simpl. lia.
Qed.

Lemma sumZ_take_mono (l : list Z) (i j : nat) :
  Forall (fun x => 0 <= x) l -> (i <= j)%nat ->
  0 <= sumZ (take i l) <= sumZ (take j l).
Proof.
  intros Hl. revert i j. induction Hl as [|x l Hx Hl IH]; intros i j Hij.
  - rewrite !take_nil. simpl. lia.
  - destruct i as [|i], j as [|j]; simpl; try lia.
    + specialize (IH 0%nat j). rewrite take_0 in IH. simpl in IH. lia.
    + specialize (IH i j). lia.
Qed.

(** A value inside [lo, hi] falls into one of the [bins] bins. *)
Lemma bin_index_in_range (lo hi : Z) (bins : nat) (v : Z) :
  lo < hi -> (0 < bins)%nat -> lo <= v <= hi ->
  exists j, bin_index lo hi bins v = Some j /\ (j < bins)%nat.
Proof.
  intros Hlh Hb Hv. unfold bin_index.
  destruct (Z.ltb_spec v lo); [lia|]. destruct (Z.ltb_spec hi v); [lia|]. simpl.
  destruct (Z.eqb_spec v hi) as [->|Hne].
  - exists (bins - 1)%nat. split; [reflexivity | lia].
  - eexists. split; [reflexivity|].
    assert (0 <= (v - lo) * Z.of_nat bins / (hi - lo) < Z.of_nat bins) as Hq.
    { split.
      - apply Z.div_pos; nia.
      - apply Z.div_lt_upper_bound; nia. }
    lia.
Qed.

Lemma count_bin_nonneg (lo hi : Z) (bins i : nat) (vals : list Z) :
  0 <= count_bin lo hi bins i vals.
Proof.
  apply sumZ_map_nonneg. intros v. destruct (bool_decide _); lia.
Qed.

(** A value outside [lo, hi] falls into none. *)
Lemma bin_index_out_of_range (lo hi : Z) (bins : nat) (v : Z) :
  ~ (lo <= v <= hi) -> bin_index lo hi bins v = None.
Proof.
  intros Hv. unfold bin_index.
  destruct (Z.ltb_spec v lo); [reflexivity|].
  destruct (Z.ltb_spec hi v); [reflexivity | lia].
Qed.

(** Every value inside [lo, hi] is counted once and no other value is
    counted, so the bins add up to the number of in-range values. *)
Lemma histogram_total (lo hi : Z) (bins : nat) (vals : list Z) :
  lo < hi -> (0 < bins)%nat ->
  sumZ (map (fun i => count_bin lo hi bins i vals) (seq 0 bins))
  = sumZ (map (fun v => if bool_decide (lo <= v <= hi) then 1 else 0) vals).
Proof.
  intros Hlh Hb. unfold count_bin.
  rewrite (sumZ_exchange
             (fun i v => if bool_decide (bin_index lo hi bins v = Some i) then 1 else 0)).
  apply sumZ_map_ext. intros v _.
  destruct (bool_decide_reflect (lo <= v <= hi)) as [Hv|Hv].
  - destruct (bin_index_in_range lo hi bins v Hlh Hb Hv) as (j & Hj & Hlt).
    destruct (sumZ_indicator (fun i => bool_decide (bin_index lo hi bins v = Some i)) j
                (seq 0 bins)) as [H1 _].
    + apply NoDup_seq.
    + intros i _. rewrite bool_decide_eq_true, Hj. split; congruence.
    + apply H1, elem_of_seq. lia.
  - rewrite (bin_index_out_of_range lo hi bins v Hv).
    transitivity (sumZ (map (fun _ : nat => 0) (seq 0 bins))); [|apply sumZ_map_zero].
    apply sumZ_map_ext. intros i _. reflexivity.
Qed.

Lemma uint8_ravel (im : grid Z) :
  is_uint8_image im -> Forall (fun v => 0 <= v <= 255) (ravel im).
Proof.
  unfold is_uint8_image, ravel. intros H.
  induction H as [|row im Hrow _ IH]; simpl; [constructor|].
  apply Forall_app. split; assumption.
Qed.

(** On an 8-bit image [hist.sum()] is the number of pixels. *)
Lemma hist_total (im : grid Z) :
  is_uint8_image im -> sumZ (hist im) = Z.of_nat (length (ravel im)).
Proof.
  intros H. unfold hist, histogram.
  rewrite histogram_total by lia.
  rewrite <- sumZ_map_one. apply sumZ_map_ext. intros v Hv.
  apply uint8_ravel in H. rewrite Forall_forall in H.
  rewrite bool_decide_true; [reflexivity | apply H, Hv].
Qed.

Lemma hist_nonneg (im : grid Z) : Forall (fun x => 0 <= x) (hist im).
Proof.
  unfold hist, histogram. apply Forall_forall. intros x Hx.
  apply list_elem_of_In, in_map_iff in Hx as (i & <- & _).
  apply count_bin_nonneg.
Qed.

Lemma length_hist (im : grid Z) : length (hist im) = 256%nat.
Proof. unfold hist, histogram. rewrite length_map, length_seq. reflexivity. Qed.

(** [hist.sum()] is the number of pixels in [0, 255]. *)
Lemma hist_total_in_range (im : grid Z) :
  sumZ (hist im) = sumZ (map (fun v => if bool_decide (0 <= v <= 255) then 1 else 0) (ravel im)).
Proof. unfold hist, histogram. apply histogram_total; lia. Qed.

Lemma sumZ_map_positive {A} (f : A -> Z) (l : list A) (x : A) :
  (forall y, 0 <= f y) -> x ∈ l -> 0 < f x -> 0 < sumZ (map f l).
Proof.
  intros Hf Hx Hpos. induction l as [|y l IH]; [apply elem_of_nil in Hx; destruct Hx|].
  simpl. pose proof (sumZ_map_nonneg f l Hf) as Hl.
  apply elem_of_cons in Hx as [<-|Hx]; [lia|].
  specialize (IH Hx). specialize (Hf y). lia.
Qed.

Lemma hist_total_positive (im : grid Z) :
  (exists v, v ∈ ravel im /\ 0 <= v <= 255) -> 0 < sumZ (hist im).
Proof.
  intros (v & Hv & Hr). rewrite hist_total_in_range.
  apply (sumZ_map_positive _ _ v).
  - intros y. destruct (bool_decide _); lia.
  - exact Hv.
  - rewrite bool_decide_true by exact Hr. lia.
Qed.

Lemma hist_total_zero (im : grid Z) :
  (forall v, v ∈ ravel im -> ~ (0 <= v <= 255)) -> sumZ (hist im) = 0.
Proof.
  intros Hout. rewrite hist_total_in_range.
  transitivity (sumZ (map (fun _ : Z => 0) (ravel im))); [|apply sumZ_map_zero].
  apply sumZ_map_ext. intros v Hv. rewrite bool_decide_false; [reflexivity | apply Hout, Hv].
Qed.

(** C10, as stated, fails: the 16-bit image [[300]] is not empty, its
    only pixel is in no bin, [hist.sum()] is 0 and every entry of the CDF
    is NaN (0 / 0). *)
Lemma cdf_all_nan :
  ravel [[300]] <> []
  /\ cdf [[300]] = replicate 256 NaN
  /\ last (cdf [[300]]) = Some NaN
  /\ ~ (exists qs : list Q, cdf [[300]] = map Finite qs).
Proof.
  split; [discriminate|]. split; [vm_compute; reflexivity|].
  split; [vm_compute; reflexivity|].
  intros [qs Hqs]. apply (f_equal (fun l => l !! 0%nat)) in Hqs.
  rewrite lookup_map in Hqs.
  destruct (qs !! 0%nat) as [q|]; vm_compute in Hqs; discriminate Hqs.
Qed.

(** C10, amended. When the image has at least one pixel in [0, 255] (every
    non-empty 8-bit image has) the CDF has 256 finite entries; they never
    decrease, lie in [0, 1], and the last one is exactly 1.  When it has
    none, every entry is NaN.  The entries are quotients of integers, and
    what is stated of them holds of the rounded float64 values as well. *)
Theorem cdf_is_distribution (im : grid Z) :
  ((exists v, v ∈ ravel im /\ 0 <= v <= 255) ->
   exists qs : list Q,
     cdf im = map Finite qs
     /\ length qs = 256%nat
     /\ (forall i j x y, (i <= j)%nat -> qs !! i = Some x -> qs !! j = Some y -> (x <= y)%Q)
     /\ (forall i x, qs !! i = Some x -> (0 <= x <= 1)%Q)
     /\ last qs = Some 1%Q)
  /\ ((forall v, v ∈ ravel im -> ~ (0 <= v <= 255)) -> cdf im = replicate 256 NaN).
Proof.
  pose proof (hist_nonneg im) as Hpos.
  pose proof (length_hist im) as Hlen.
  assert (sumZ (take 256 (hist im)) = sumZ (hist im)) as Hfull.
  { rewrite take_ge by lia. reflexivity. }
  split.
  - intros Hin. pose proof (hist_total_positive im Hin) as Hgt.
    set (total := sumZ (hist im)) in *.
    set (quot := fun c => Qred (inject_Z c / inject_Z total)).
    assert (forall i x, map quot (cumsum (hist im)) !! i = Some x ->
              (i < 256)%nat /\ x = quot (sumZ (take (S i) (hist im)))) as Hentry.
    { intros i x Hx. rewrite lookup_map in Hx.
      destruct (cumsum (hist im) !! i) as [c|] eqn:Hc; [|discriminate].
      injection Hx as <-.
      pose proof (lookup_lt_Some _ _ _ Hc) as Hi.
      unfold cumsum in Hi, Hc. rewrite length_cumsum_from, Hlen in Hi.
      rewrite cumsum_from_lookup in Hc by lia. injection Hc as <-.
      split; [exact Hi | reflexivity]. }
    exists (map quot (cumsum (hist im))).
    split; [|split; [|split; [|split]]].
    + unfold cdf. fold total. rewrite map_map. apply map_ext. intros c.
      apply np_div_Z. lia.
    + unfold cumsum. rewrite length_map, length_cumsum_from. exact Hlen.
    + intros i j x y Hij Hx Hy.
      apply Hentry in Hx as [_ ->]. apply Hentry in Hy as [_ ->].
      unfold quot. rewrite !Qred_correct. apply Qdiv_Z_le; [exact Hgt|].
      apply (sumZ_take_mono (hist im) (S i) (S j) Hpos). lia.
    + intros i x Hx. apply Hentry in Hx as [Hi ->].
      unfold quot. rewrite Qred_correct. split.
      * rewrite <- (Qdiv_Z_zero total). apply Qdiv_Z_le; [exact Hgt|].
        apply (sumZ_take_mono (hist im) (S i) (S i) Hpos). lia.
      * rewrite <- (Qdiv_Z_same total) by lia. apply Qdiv_Z_le; [exact Hgt|].
        rewrite <- Hfull. apply (sumZ_take_mono (hist im) (S i) 256 Hpos). lia.
    + rewrite last_lookup. unfold cumsum.
      rewrite length_map, length_cumsum_from, Hlen. simpl Init.Nat.pred.
      rewrite lookup_map, cumsum_from_lookup by lia.
      cbn [fmap option_fmap option_map].
      rewrite Z.add_0_l, Hfull. unfold quot. f_equal.
      apply (Qred_complete _ 1%Q). apply Qdiv_Z_same. lia.
  - intros Hout. pose proof (hist_total_zero im Hout) as Hzero.
    apply list_eq. intros i. unfold cdf. rewrite Hzero, lookup_map.
    destruct (decide (i < 256)%nat) as [Hi|Hi].
    + unfold cumsum. rewrite cumsum_from_lookup by lia.
      rewrite lookup_replicate_2 by exact Hi.
      cbn [fmap option_fmap option_map]. f_equal.
      pose proof (sumZ_take_mono (hist im) (S i) 256 Hpos) as Hle.
      rewrite Hfull, Hzero in Hle.
      replace (0 + sumZ (take (S i) (hist im))) with 0 by lia.
      reflexivity.
    + rewrite (proj2 (lookup_ge_None _ _)), (proj2 (lookup_ge_None _ _)); [reflexivity| |].
      * rewrite length_replicate. lia.
      * unfold cumsum. rewrite length_cumsum_from, Hlen. lia.
Qed.

Lemma cdf_is_distribution_witness :
  exists qs : list Q,
    cdf [[0; 1; 255]; [300; 254; 3]] = map Finite qs
    /\ length qs = 256%nat
    /\ (forall i j x y, (i <= j)%nat -> qs !! i = Some x -> qs !! j = Some y -> (x <= y)%Q)
    /\ (forall i x, qs !! i = Some x -> (0 <= x <= 1)%Q)
    /\ last qs = Some 1%Q.
Proof.
  apply (proj1 (cdf_is_distribution [[0; 1; 255]; [300; 254; 3]])).
  exists 1. split; [|lia].
  apply elem_of_cons. right. apply elem_of_cons. left. reflexivity.
Defined.

End CdfFacts.

(** ** The label map that [label] returns *)

Module LabelMapFacts.
Import Np Ndi GridFacts ZipFacts LabelFacts Ch3.

Lemma getitem2_same_shape {A B} (a : grid A) (b : grid B) (r c : nat) (x : A) :
  row_lengths a = row_lengths b -> getitem2 a r c = Return x ->
  exists y, getitem2 b r c = Return y.
Proof.
  unfold row_lengths. intros Hshape Hx.
  apply getitem2_Return in Hx as (ra & Hr & Hc).
  assert ((length <$> b) !! r = Some (length ra)) as Hb
    by (rewrite <- Hshape, list_lookup_fmap, Hr; reflexivity).
  rewrite list_lookup_fmap in Hb.
  destruct (b !! r) as [rb|] eqn:Hrb; [|discriminate]. injection Hb as Hlen.
  destruct (lookup_lt_is_Some_2 rb c) as [y Hy].
  { rewrite Hlen. apply (lookup_lt_Some _ _ _ Hc). }
  exists y. apply getitem2_Return. eauto.
Qed.

Lemma row_lengths_grow (m s : grid bool) :
  row_lengths s = row_lengths m -> row_lengths (grow m s) = row_lengths m.
Proof.
  intros H. unfold grow, np_logical_and, binary_dilation.
  rewrite row_lengths_zip2d; rewrite row_lengths_imap2d; exact H.
Qed.

Lemma row_lengths_iter_grow (m s : grid bool) (n : nat) :
  row_lengths s = row_lengths m -> row_lengths (Nat.iter n (grow m) s) = row_lengths m.
Proof.
  intros H. induction n as [|n IH]; simpl; [exact H | apply row_lengths_grow, IH].
Qed.

Lemma row_lengths_component (m : grid bool) (p : nat * nat) :
  row_lengths (component m p) = row_lengths m.
Proof.
  unfold component. apply row_lengths_iter_grow. unfold seed. apply row_lengths_imap2d.
Qed.

Lemma row_lengths_paint (labels : grid Z) (comp : grid bool) (k : Z) :
  row_lengths labels = row_lengths comp -> row_lengths (paint labels comp k) = row_lengths labels.
Proof. apply row_lengths_zip2d. Qed.

(** Painting a pixel keeps its label or gives it the new one. *)
Lemma getitem2_paint (labels : grid Z) (comp : grid bool) (k : Z) (r c : nat) (v : Z) :
  getitem2 (paint labels comp k) r c = Return v ->
  exists old b, getitem2 labels r c = Return old /\ getitem2 comp r c = Return b
                /\ v = if b then k else old.
Proof.
  unfold paint. intros H. apply getitem2_zip2d in H as (old & b & -> & Ho & Hb). eauto.
Qed.

(** The pixels a component grows from stay in it, inside the mask. *)
Lemma getitem2_grow_keeps (m s : grid bool) (r c : nat) :
  getitem2 s r c = Return true -> getitem2 m r c = Return true ->
  getitem2 (grow m s) r c = Return true.
Proof.
  intros Hs Hm. unfold grow, np_logical_and. apply getitem2_zip2d.
  exists true, true. split; [reflexivity|]. split; [|exact Hm].
  unfold binary_dilation.
  rewrite (getitem2_imap2d _ s r c true Hs). f_equal.
  unfold neighbourhood, cross. cbn [map existsb fst snd].
  replace (pixel_border s (Z.of_nat r + 0) (Z.of_nat c + 0)) with true; [reflexivity|].
  unfold pixel_border. rewrite !Z.add_0_r.
  destruct (Z.ltb_spec (Z.of_nat r) 0); [lia|]. destruct (Z.ltb_spec (Z.of_nat c) 0); [lia|].
  cbn [orb]. rewrite !Nat2Z.id. symmetry.
  exact (pixel_at_getitem2 false s r c true Hs).
Qed.

Lemma getitem2_grow_mask (m s : grid bool) (r c : nat) :
  getitem2 (grow m s) r c = Return true -> getitem2 m r c = Return true.
Proof.
  unfold grow, np_logical_and. intros H.
  apply getitem2_zip2d in H as (x & y & Hxy & _ & Hy).
  destruct x, y; try discriminate Hxy. exact Hy.
Qed.

Lemma component_seed (m : grid bool) (r c : nat) :
  getitem2 m r c = Return true -> getitem2 (component m (r, c)) r c = Return true.
Proof.
  intros Hm. unfold component.
  induction (length (ravel m)) as [|n IH]; simpl.
  - unfold seed. rewrite (getitem2_imap2d _ m r c true Hm).
    rewrite bool_decide_true; reflexivity.
  - apply getitem2_grow_keeps; assumption.
Qed.

Lemma component_in_mask (m : grid bool) (p : nat * nat) (r c : nat) :
  getitem2 (component m p) r c = Return true -> getitem2 m r c = Return true.
Proof.
  unfold component. intros H.
  destruct (length (ravel m)) as [|n] eqn:Hn; simpl in H.
  - exfalso. unfold seed in H.
    destruct (getitem2_same_shape _ m r c true (row_lengths_imap2d _ m) H) as [y Hy].
    assert (y ∈ ravel m) as Hin by (apply elem_of_ravel; eauto).
    destruct (ravel m); [apply elem_of_nil in Hin; exact Hin | discriminate Hn].
  - apply (getitem2_grow_mask m _ r c H).
Qed.

Lemma scan_invariant_paint (m : grid bool) (labels : grid Z) (k : Z) (p : nat * nat) :
  scan_invariant m labels k ->
  scan_invariant m (paint labels (component m p) (k + 1)) (k + 1).
Proof.
  intros (Hk & Hshape & Hrange & Hfg). split; [lia|]. split; [|split].
  - rewrite row_lengths_paint; [exact Hshape|].
    rewrite row_lengths_component. exact Hshape.
  - intros r c v Hv. apply getitem2_paint in Hv as (old & b & Ho & _ & ->).
    specialize (Hrange r c old Ho). destruct b; lia.
  - intros r c v Hv Hne. apply getitem2_paint in Hv as (old & b & Ho & Hb & ->).
    destruct b.
    + apply (component_in_mask m p r c Hb).
    + apply (Hfg r c old Ho Hne).
Qed.

Lemma label_scan_invariant (m : grid bool) (ps : list (nat * nat)) (labels : grid Z) (k : Z) :
  scan_invariant m labels k ->
  scan_invariant m (label_scan m ps labels k).1 (label_scan m ps labels k).2.
Proof.
  revert labels k. induction ps as [|p ps IH]; intros labels k Hinv; simpl; [exact Hinv|].
  destruct (pixel_at false m p && (pixel_at 0 labels p =? 0)).
  - apply IH, scan_invariant_paint, Hinv.
  - apply IH, Hinv.
Qed.

(** A labelled pixel stays labelled. *)
Lemma label_scan_keeps (m : grid bool) (ps : list (nat * nat)) (labels : grid Z) (k : Z)
    (r c : nat) (v : Z) :
  scan_invariant m labels k -> getitem2 labels r c = Return v -> v <> 0 ->
  exists v', getitem2 (label_scan m ps labels k).1 r c = Return v' /\ v' <> 0.
Proof.
  revert labels k v. induction ps as [|p ps IH]; intros labels k v Hinv Hv Hne; simpl; [eauto|].
  destruct (pixel_at false m p && (pixel_at 0 labels p =? 0)); [|eapply IH; eauto].
  pose proof Hinv as (Hk & Hshape & _ & _).
  destruct (getitem2_same_shape labels (component m p) r c v) as [b Hb]; [|exact Hv|].
  { rewrite row_lengths_component. exact Hshape. }
  apply (IH _ _ (if b then k + 1 else v)).
  - apply scan_invariant_paint, Hinv.
  - unfold paint. apply getitem2_zip2d. eauto.
  - destruct b; [lia | exact Hne].
Qed.

(** Every scanned foreground pixel ends up labelled. *)
Lemma label_scan_covers (m : grid bool) (ps : list (nat * nat)) (labels : grid Z) (k : Z)
    (r c : nat) :
  scan_invariant m labels k -> (r, c) ∈ ps -> getitem2 m r c = Return true ->
  exists v, getitem2 (label_scan m ps labels k).1 r c = Return v /\ v <> 0.
Proof.
  revert labels k. induction ps as [|p ps IH]; intros labels k Hinv Hin Hm.
  - apply elem_of_nil in Hin. destruct Hin.
  - pose proof Hinv as (Hk & Hshape & _ & _).
    assert (row_lengths m = row_lengths labels) as Hshape' by (symmetry; exact Hshape).
    destruct (getitem2_same_shape m labels r c true Hshape' Hm) as [old Hold].
    apply elem_of_cons in Hin as [<-|Hin]; simpl.
    + rewrite (pixel_at_getitem2 false m r c true Hm), (pixel_at_getitem2 0 labels r c old Hold).
      simpl. destruct (Z.eqb_spec old 0) as [->|Hne].
      * apply (label_scan_keeps m ps _ _ r c (k + 1)).
        -- apply scan_invariant_paint, Hinv.
        -- unfold paint. apply getitem2_zip2d. exists 0, true.
           split; [reflexivity|]. split; [exact Hold | apply component_seed, Hm].
        -- lia.
      * apply (label_scan_keeps m ps labels k r c old); assumption.
    + destruct (pixel_at false m p && (pixel_at 0 labels p =? 0)).
      * apply IH; [apply scan_invariant_paint, Hinv | exact Hin | exact Hm].
      * apply IH; assumption.
Qed.

Lemma scan_invariant_zeros (m : grid bool) : scan_invariant m (map2d (fun _ => 0) m) 0.
Proof.
  split; [lia|]. split; [apply row_lengths_map2d|].
  assert (forall r c v, getitem2 (map2d (fun _ : bool => 0) m) r c = Return v -> v = 0) as Hz.
  { intros r c v Hv.
    destruct (getitem2_same_shape _ m r c v (row_lengths_map2d _ m) Hv) as [b Hb].
    rewrite (getitem2_map2d _ m r c b Hb) in Hv. congruence. }
  split; intros r c v Hv; specialize (Hz r c v Hv); [lia | congruence].
Qed.

(** The result of [label_components] is a Label Map: it has the shape of
    the mask, its values lie in [0, K], and it is non-zero exactly on the
    true pixels of the mask. *)
Lemma label_components_label_map (m : grid bool) :
  row_lengths (label_components m).1 = row_lengths m
  /\ is_label_map [(label_components m).1] (label_components m).2
  /\ (forall r c b, getitem2 m r c = Return b ->
        exists v, getitem2 (label_components m).1 r c = Return v
                  /\ (v <> 0 <-> b = true)).
Proof.
  unfold label_components, label.
  pose proof (label_scan_invariant m (coords m) _ _ (scan_invariant_zeros m))
    as (Hk & Hshape & Hrange & Hfg).
  split; [exact Hshape|]. split.
  - unfold is_label_map, ravel3. simpl. rewrite app_nil_r.
    apply Forall_forall. intros v Hv.
    apply elem_of_ravel in Hv as (r & c & Hv). apply (Hrange r c v Hv).
  - intros r c b Hb. destruct b.
    + destruct (label_scan_covers m (coords m) _ _ r c (scan_invariant_zeros m)) as (v & Hv & Hne).
      * apply (coords_in_bounds m r c true Hb).
      * exact Hb.
      * exists v. split; [exact Hv|]. split; auto.
    + assert (row_lengths m = row_lengths (label_scan m (coords m) (map2d (fun _ => 0) m) 0).1)
        as Hshape' by (symmetry; exact Hshape).
      destruct (getitem2_same_shape m _ r c false Hshape' Hb) as [v Hv].
      exists v. split; [exact Hv|]. split; [|discriminate].
      intros Hne. specialize (Hfg r c v Hv Hne). congruence.
Qed.

End LabelMapFacts.

(** ** The models on the notebooks' and the spec's own examples *)

Module ModelChecks.
Import Np Ndi Ch2 Ch3 Ch4 Samples.

(** The quiz of the filter chapter: with the median filter of size 3,
    [assert im_filt[1,1] == 49] holds. *)
Example median_filter_quiz :
  getitem2 (median_filter [[93; 36; 87]; [18; 49; 51]; [45; 32; 63]] 3) 1 1 = Return 49.
Proof. vm_compute. reflexivity. Qed.

(** A 3 x 3 block in a 5 x 5 mask is one component of 9 pixels, selected
    by the anchor (2, 2) and measured as 9 at unit voxel volume. *)
Example label_block5 :
  (label_components block5).2 = 1
  /\ select_component (label_components block5).1 (2, 2)%nat = Return 1
  /\ measure_volume [(label_components block5).1] 1 1 = (9 # 1)%Q.
Proof. vm_compute. repeat split; reflexivity. Qed.

(** Two disjoint 2 x 2 blocks are two components of 4 pixels each. *)
Example label_blocks10 :
  (label_components blocks10).2 = 2
  /\ count_label [(label_components blocks10).1] 1 = 4
  /\ count_label [(label_components blocks10).1] 2 = 4.
Proof. vm_compute. repeat split; reflexivity. Qed.

(** Closing with the border value 0 clears the border of a full mask. *)
Example binary_closing_full :
  binary_closing (replicate 3 (replicate 3 true))
  = [[false; false; false]; [false; true; false]; [false; false; false]].
Proof. vm_compute. reflexivity. Qed.

(** A constant positive series has ejection fraction 0. *)
Example ejection_fraction_constant :
  ejection_fraction [7 # 1; 7 # 1; 7 # 1]%Q
  = Return {| tmax := 0; tmin := 0; ej_vol := 0%Q; ej_frac := Finite 0%Q |}.
Proof. vm_compute. reflexivity. Qed.

(** The 8-bit range matters for the CDF: a pixel outside [0, 255] is in
    no bin, and an image of such pixels has [hist.sum() = 0]. *)
Example cdf_out_of_range : cdf [[300]] = replicate 256 NaN.
Proof. vm_compute. reflexivity. Qed.

(** The wrap-around of the 8-bit subtraction: 0 - 1 is 255. *)
Example mean_abs_err_wrapped :
  mean_abs_err [[0; 100]] [[1; 7]] = Finite (174 # 1)
  /\ true_mean_abs_err [[0; 100]] [[1; 7]] = Finite (47 # 1).
Proof. vm_compute. split; reflexivity. Qed.

End ModelChecks.

(** * Further properties of the notebooks *)

(** ** Chapter 1: plotting every 40th slice *)

Module SliceFacts.
Import Np Ch1.

(** The fly-through reads the planes 0, 40, 80 and 120: it yields them
    when the volume has at least 121 planes and raises IndexError
    otherwise. *)
Theorem fly_through_planes (vol : volume Z) :
  ((121 <= length vol)%nat ->
   exists a b c d,
     vol !! 0%nat = Some a /\ vol !! 40%nat = Some b
     /\ vol !! 80%nat = Some c /\ vol !! 120%nat = Some d
     /\ fly_through vol = Return [a; b; c; d])
  /\ ((length vol < 121)%nat -> fly_through vol = Raise IndexError).
Proof.
  unfold fly_through. cbn [seq slices Nat.mul Nat.add]. unfold getitem1. split.
  - intros Hlen.
    destruct (lookup_lt_is_Some_2 vol 0) as [a Ha]; [lia|].
    destruct (lookup_lt_is_Some_2 vol 40) as [b Hb]; [lia|].
    destruct (lookup_lt_is_Some_2 vol 80) as [c Hc]; [lia|].
    destruct (lookup_lt_is_Some_2 vol 120) as [d Hd]; [lia|].
    exists a, b, c, d. rewrite Ha, Hb, Hc, Hd. repeat split; reflexivity.
  - intros Hlen.
    rewrite (lookup_ge_None_2 vol 120) by lia.
    destruct (vol !! 0%nat); [|reflexivity].
    destruct (vol !! 40%nat); [|reflexivity].
    destruct (vol !! 80%nat); reflexivity.
Qed.

Lemma fly_through_planes_witness :
  (exists a b c d,
     replicate 121 [[7; 8]] !! 0%nat = Some a /\ replicate 121 [[7; 8]] !! 40%nat = Some b
     /\ replicate 121 [[7; 8]] !! 80%nat = Some c /\ replicate 121 [[7; 8]] !! 120%nat = Some d
     /\ fly_through (replicate 121 [[7; 8]]) = Return [a; b; c; d])
  /\ fly_through (replicate 25 [[7; 8]]) = Raise IndexError.
Proof.
  split.
  - apply (proj1 (fly_through_planes (replicate 121 [[7; 8]]))).
    rewrite length_replicate. lia.
  - apply (proj2 (fly_through_planes (replicate 25 [[7; 8]]))).
    rewrite length_replicate. lia.
Defined.

End SliceFacts.

(** ** Elementwise maps under elementwise operations *)

Module MapFacts.
Import Np GridFacts SumFacts ZipFacts.

Lemma ravel_map2d {A B} (f : A -> B) (im : grid A) :
  ravel (map2d f im) = map f (ravel im).
Proof.
  unfold ravel, map2d. induction im as [|row im IH]; [reflexivity|].
  rewrite fmap_cons. cbn [concat]. rewrite IH, map_app. reflexivity.
Qed.

Lemma zip2d_map2d_l {A A' B C} (f : A' -> B -> C) (g : A -> A') (a : grid A) (b : grid B) :
  zip2d f (map2d g a) b = zip2d (fun x y => f (g x) y) a b.
Proof.
  unfold zip2d, map2d. revert b.
  induction a as [|ra a IH]; intros [|rb b]; try reflexivity.
  rewrite fmap_cons. cbn [zip_with]. rewrite IH, zip_with_fmap_l. reflexivity.
Qed.

Lemma zip2d_map2d_r {A B B' C} (f : A -> B' -> C) (g : B -> B') (a : grid A) (b : grid B) :
  zip2d f a (map2d g b) = zip2d (fun x y => f x (g y)) a b.
Proof.
  unfold zip2d, map2d. revert b.
  induction a as [|ra a IH]; intros [|rb b]; try reflexivity.
  rewrite fmap_cons. cbn [zip_with]. rewrite IH, zip_with_fmap_r. reflexivity.
Qed.

Lemma zip2d_diag {A C} (f : A -> A -> C) (a : grid A) :
  zip2d f a a = map2d (fun x => f x x) a.
Proof.
  unfold zip2d, map2d. induction a as [|ra a IH]; [reflexivity|].
  rewrite fmap_cons. cbn [zip_with]. rewrite IH, zip_with_diag. reflexivity.
Qed.

Lemma getitem2_map2d_inv {A B} (f : A -> B) (im : grid A) (r c : nat) (y : B) :
  getitem2 (map2d f im) r c = Return y ->
  exists v, getitem2 im r c = Return v /\ y = f v.
Proof.
  unfold map2d. rewrite getitem2_Return. intros (row & Hr & Hc).
  rewrite list_lookup_fmap in Hr. apply fmap_Some in Hr as (row' & Hr & ->).
  rewrite list_lookup_fmap in Hc. apply fmap_Some in Hc as (v & Hc & ->).
  exists v. split; [|reflexivity]. apply getitem2_Return. eauto.
Qed.

Lemma np_sum_bool_map2d {A} (f : A -> bool) (im : grid A) :
  np_sum_bool (map2d f im) = sumZ (map (fun v => if f v then 1 else 0) (ravel im)).
Proof. unfold np_sum_bool. rewrite ravel_map2d, map_map. reflexivity. Qed.

End MapFacts.

(** ** Chapter 2: the skin and bone masks *)

Module BoneFacts.
Import Np Ndi GridFacts SumFacts ZipFacts MapFacts Ch2.

Lemma mask_skin_map (im : grid Z) :
  mask_skin im = map2d (fun v => (45 <=? v) && (v <? 145)) im.
Proof.
  unfold mask_skin, np_logical_and.
  rewrite zip2d_map2d_l, zip2d_map2d_r, zip2d_diag. reflexivity.
Qed.

(** The two thresholds split the pixels of intensity at least 45: a pixel
    is bone from 145 on and skin from 45 to 144, never both, and the two
    masks together count the pixels of intensity at least 45. *)
Theorem skin_bone_partition (im : grid Z) :
  row_lengths (mask_skin im) = row_lengths im
  /\ row_lengths (mask_bone im) = row_lengths im
  /\ (forall r c v, getitem2 im r c = Return v ->
        getitem2 (mask_bone im) r c = Return (bool_decide (145 <= v))
        /\ getitem2 (mask_skin im) r c = Return (bool_decide (45 <= v < 145)))
  /\ all_false (np_logical_and (mask_skin im) (mask_bone im))
  /\ np_sum_bool (mask_skin im) + np_sum_bool (mask_bone im)
     = np_sum_bool (map2d (fun v => 45 <=? v) im).
Proof.
  rewrite mask_skin_map. unfold mask_bone.
  split; [apply row_lengths_map2d|]. split; [apply row_lengths_map2d|].
  split; [|split].
  - intros r c v Hv. split.
    + rewrite (getitem2_map2d _ im r c v Hv). f_equal.
      destruct (Z.leb_spec 145 v); [rewrite bool_decide_true | rewrite bool_decide_false];
        auto; lia.
    + rewrite (getitem2_map2d _ im r c v Hv). f_equal.
      destruct (Z.leb_spec 45 v), (Z.ltb_spec v 145); simpl;
        [rewrite bool_decide_true | rewrite bool_decide_false | rewrite bool_decide_false
         | rewrite bool_decide_false]; auto; lia.
  - unfold np_logical_and. rewrite zip2d_map2d_l, zip2d_map2d_r, zip2d_diag.
    intros r c H.
    apply getitem2_map2d_inv in H as (v & _ & H).
    destruct (Z.leb_spec 45 v), (Z.ltb_spec v 145), (Z.leb_spec 145 v);
      simpl in H; try discriminate H; lia.
  - rewrite !np_sum_bool_map2d, <- sumZ_map_add.
    apply sumZ_map_ext. intros v _.
    destruct (Z.leb_spec 45 v), (Z.ltb_spec v 145), (Z.leb_spec 145 v); simpl; lia.
Qed.

End BoneFacts.

(** ** Chapter 2: the histogram of the masked image *)

Module BoneHistFacts.
Import Np Ndi GridFacts SumFacts ZipFacts MapFacts CdfFacts Ch2.

Lemma im_bone_map (im : grid Z) :
  im_bone im = map2d (fun v => if 145 <=? v then v else 0) im.
Proof.
  unfold im_bone, np_where_arr, mask_bone. rewrite zip2d_map2d_l, zip2d_diag. reflexivity.
Qed.

(** With 255 bins over [1, 255] the value [w] falls into bin [w - 1]. *)
Lemma bin_index_unit (w : Z) :
  1 <= w <= 255 -> bin_index 1 255 255 w = Some (Z.to_nat (w - 1)).
Proof.
  intros Hw. unfold bin_index.
  destruct (Z.ltb_spec w 1); [lia|]. destruct (Z.ltb_spec 255 w); [lia|]. cbn [orb].
  destruct (Z.eqb_spec w 255) as [->|Hne]; [reflexivity|].
  change (Z.of_nat 255) with 255. change (255 - 1) with 254.
  do 2 f_equal. symmetry. apply (Z.div_unique _ _ _ (w - 1)); lia.
Qed.

Lemma bone_bin (v : Z) (i : nat) :
  0 <= v <= 255 ->
  (if bool_decide (bin_index 1 255 255 (if 145 <=? v then v else 0) = Some i) then 1 else 0)
  = if 145 <=? Z.of_nat i + 1 then (if v =? Z.of_nat i + 1 then 1 else 0) else 0.
Proof.
  intros Hv. destruct (Z.leb_spec 145 v) as [Hbone|Hsoft].
  - rewrite bin_index_unit by lia.
    destruct (Z.eqb_spec v (Z.of_nat i + 1)) as [->|Hne].
    + rewrite bool_decide_true by (f_equal; lia).
      destruct (Z.leb_spec 145 (Z.of_nat i + 1)); [reflexivity | lia].
    + rewrite bool_decide_false by (intros [= H]; lia).
      destruct (145 <=? Z.of_nat i + 1); reflexivity.
  - rewrite bool_decide_false by discriminate.
    destruct (Z.leb_spec 145 (Z.of_nat i + 1)); [|reflexivity].
    destruct (Z.eqb_spec v (Z.of_nat i + 1)); [lia | reflexivity].
Qed.

(** On an 8-bit image the histogram of the masked image has one bin per
    intensity 1..255: bin [i] counts the pixels of intensity [i + 1] from
    145 on and is empty below, so the masked-out zeros are never counted
    and the bins add up to the number of bone pixels. *)
Theorem hist_bone_counts (im : grid Z) :
  is_uint8_image im ->
  length (hist_bone im) = 255%nat
  /\ sumZ (hist_bone im) = np_sum_bool (mask_bone im)
  /\ forall i, (i < 255)%nat ->
       hist_bone im !! i
       = Some (if 145 <=? Z.of_nat i + 1 then count_value im (Z.of_nat i + 1) else 0).
Proof.
  intros Him. pose proof (uint8_ravel im Him) as Hvals. rewrite Forall_forall in Hvals.
  unfold hist_bone, histogram. rewrite im_bone_map, ravel_map2d.
  split; [rewrite length_map, length_seq; reflexivity|]. split.
  - rewrite histogram_total by lia. unfold mask_bone.
    rewrite np_sum_bool_map2d, map_map. apply sumZ_map_ext. intros v Hv.
    specialize (Hvals v Hv).
    destruct (Z.leb_spec 145 v); [rewrite bool_decide_true | rewrite bool_decide_false];
      auto; lia.
  - intros i Hi. rewrite lookup_map, lookup_seq_lt by lia.
    cbn [fmap option_fmap option_map Nat.add]. f_equal.
    unfold count_bin. rewrite map_map.
    transitivity (sumZ (map (fun v => if 145 <=? Z.of_nat i + 1
                                     then (if v =? Z.of_nat i + 1 then 1 else 0) else 0)
                            (ravel im))).
    + apply sumZ_map_ext. intros v Hv. apply bone_bin, Hvals, Hv.
    + destruct (145 <=? Z.of_nat i + 1); [reflexivity | apply sumZ_map_zero].
Qed.

Lemma hist_bone_counts_witness :
  length (hist_bone [[200; 7; 145]; [144; 200; 255]]) = 255%nat
  /\ sumZ (hist_bone [[200; 7; 145]; [144; 200; 255]])
     = np_sum_bool (mask_bone [[200; 7; 145]; [144; 200; 255]])
  /\ forall i, (i < 255)%nat ->
       hist_bone [[200; 7; 145]; [144; 200; 255]] !! i
       = Some (if 145 <=? Z.of_nat i + 1
               then count_value [[200; 7; 145]; [144; 200; 255]] (Z.of_nat i + 1) else 0).
Proof.
  apply (hist_bone_counts [[200; 7; 145]; [144; 200; 255]]).
  unfold is_uint8_image, is_uint8. repeat constructor; lia.
Defined.

End BoneHistFacts.

(** ** Dilation, erosion and closing *)

Module MorphFacts.
Import Np Ndi GridFacts LabelFacts LabelMapFacts.

Lemma pixel_border_centre (m : grid bool) (r c : nat) (b : bool) :
  getitem2 m r c = Return b -> pixel_border m (Z.of_nat r + 0) (Z.of_nat c + 0) = b.
Proof.
  intros H. unfold pixel_border. rewrite !Z.add_0_r.
  destruct (Z.ltb_spec (Z.of_nat r) 0); [lia|]. destruct (Z.ltb_spec (Z.of_nat c) 0); [lia|].
  cbn [orb]. rewrite !Nat2Z.id. exact (pixel_at_getitem2 false m r c b H).
Qed.

Lemma getitem2_imap2d_inv {A B} (f : nat -> nat -> A -> B) (im : grid A) (r c : nat) (y : B) :
  getitem2 (imap2d f im) r c = Return y ->
  exists v, getitem2 im r c = Return v /\ y = f r c v.
Proof.
  intros H.
  destruct (getitem2_same_shape _ im r c y (row_lengths_imap2d f im) H) as [v Hv].
  exists v. split; [exact Hv|].
  rewrite (getitem2_imap2d f im r c v Hv) in H. congruence.
Qed.

(** Dilation only adds pixels. *)
Lemma dilation_extensive (m : grid bool) (r c : nat) :
  getitem2 m r c = Return true -> getitem2 (binary_dilation m) r c = Return true.
Proof.
  intros H. unfold binary_dilation. rewrite (getitem2_imap2d _ m r c true H). f_equal.
  unfold neighbourhood, cross. cbn [map existsb fst snd].
  rewrite (pixel_border_centre m r c true H). reflexivity.
Qed.

(** Erosion only removes pixels. *)
Lemma erosion_antiextensive (m : grid bool) (r c : nat) :
  getitem2 (binary_erosion m) r c = Return true -> getitem2 m r c = Return true.
Proof.
  unfold binary_erosion. intros H.
  apply getitem2_imap2d_inv in H as ([] & Hv & H); [exact Hv|].
  unfold neighbourhood, cross in H. cbn [map forallb fst snd] in H.
  rewrite (pixel_border_centre m r c false Hv) in H. discriminate H.
Qed.

Lemma dilation_n_extensive (n : nat) (m : grid bool) (r c : nat) :
  getitem2 m r c = Return true -> getitem2 (binary_dilation_n n m) r c = Return true.
Proof.
  intros H. unfold binary_dilation_n.
  induction n as [|n IH]; simpl; [exact H | apply dilation_extensive, IH].
Qed.

Lemma erosion_n_antiextensive (n : nat) (m : grid bool) (r c : nat) :
  getitem2 (binary_erosion_n n m) r c = Return true -> getitem2 m r c = Return true.
Proof.
  unfold binary_erosion_n. induction n as [|n IH]; simpl; [auto|].
  intros H. apply IH, erosion_antiextensive, H.
Qed.

Lemma row_lengths_dilation_n (n : nat) (m : grid bool) :
  row_lengths (binary_dilation_n n m) = row_lengths m.
Proof.
  unfold binary_dilation_n. induction n as [|n IH]; simpl; [reflexivity|].
  unfold binary_dilation at 1. rewrite row_lengths_imap2d. exact IH.
Qed.

Lemma row_lengths_erosion_n (n : nat) (m : grid bool) :
  row_lengths (binary_erosion_n n m) = row_lengths m.
Proof.
  unfold binary_erosion_n. induction n as [|n IH]; simpl; [reflexivity|].
  unfold binary_erosion at 1. rewrite row_lengths_imap2d. exact IH.
Qed.

(** With the border value 0, erosion clears the pixels of the first and
    last row and of the first and last column. *)
Lemma erosion_border (m : grid bool) (r c : nat) (b : bool) :
  getitem2 (binary_erosion m) r c = Return b ->
  r = 0%nat \/ c = 0%nat \/ S r = length m
  \/ (exists row, m !! r = Some row /\ S c = length row) ->
  b = false.
Proof.
  unfold binary_erosion. intros H Hborder.
  apply getitem2_imap2d_inv in H as (b0 & Hv & ->).
  unfold neighbourhood, cross. cbn [map forallb fst snd].
  destruct Hborder as [-> | [-> | [Hr | (row & Hrow & Hc)]]].
  - replace (pixel_border m (Z.of_nat 0 + -1) (Z.of_nat c + 0)) with false;
      [apply andb_false_iff; right; reflexivity | reflexivity].
  - replace (pixel_border m (Z.of_nat r + 0) (Z.of_nat 0 + -1)) with false.
    + rewrite !andb_false_iff. right. right. right. left. reflexivity.
    + unfold pixel_border.
      destruct (Z.of_nat r + 0 <? 0); reflexivity.
  - replace (pixel_border m (Z.of_nat r + 1) (Z.of_nat c + 0)) with false.
    + rewrite !andb_false_iff. right. right. left. reflexivity.
    + unfold pixel_border.
      destruct (Z.ltb_spec (Z.of_nat r + 1) 0); [lia|].
      destruct (Z.ltb_spec (Z.of_nat c + 0) 0); [lia|]. cbn [orb].
      replace (Z.to_nat (Z.of_nat r + 1)) with (S r) by lia.
      rewrite (nth_overflow m []) by lia. destruct (Z.to_nat (Z.of_nat c + 0)); reflexivity.
  - replace (pixel_border m (Z.of_nat r + 0) (Z.of_nat c + 1)) with false.
    + rewrite !andb_false_iff. do 4 right. left. reflexivity.
    + unfold pixel_border.
      destruct (Z.ltb_spec (Z.of_nat r + 0) 0); [lia|].
      destruct (Z.ltb_spec (Z.of_nat c + 1) 0); [lia|]. cbn [orb].
      replace (Z.to_nat (Z.of_nat r + 0)) with r by lia.
      replace (Z.to_nat (Z.of_nat c + 1)) with (S c) by lia.
      rewrite (nth_lookup_Some m r [] row Hrow).
      symmetry. apply nth_overflow. lia.
Qed.

End MorphFacts.

(** ** Chapter 2: tuning the bone mask *)

Module TuneFacts.
Import Np Ndi GridFacts MapFacts MorphFacts Ch2.

(** The dilated and the closed mask have the shape of the image; five
    dilations keep every bone pixel, and the closed mask lies inside the
    dilated mask, since its five erosions only remove pixels from it. *)
Theorem mask_tuning (im : grid Z) :
  row_lengths (mask_dilate im) = row_lengths im
  /\ row_lengths (mask_closed im) = row_lengths im
  /\ (forall r c, getitem2 (mask_bone im) r c = Return true ->
                  getitem2 (mask_dilate im) r c = Return true)
  /\ (forall r c, getitem2 (mask_closed im) r c = Return true ->
                  getitem2 (mask_dilate im) r c = Return true).
Proof.
  unfold mask_dilate, mask_closed, binary_closing_n.
  assert (row_lengths (mask_bone im) = row_lengths im) as Hbone
    by apply row_lengths_map2d.
  split; [rewrite row_lengths_dilation_n; exact Hbone|].
  split; [rewrite row_lengths_erosion_n, row_lengths_dilation_n; exact Hbone|].
  split.
  - intros r c. apply dilation_n_extensive.
  - intros r c. apply erosion_n_antiextensive.
Qed.

End TuneFacts.

(** ** Chapter 3: the mask at the border of the image *)

Module BorderFacts.
Import Np Ndi GridFacts MaskFacts LabelMapFacts MorphFacts Ch3.

Lemma filter_and_mask_border_value (im : grid Z) (size : nat) (threshold : Z)
    (r c : nat) (b : bool) :
  getitem2 (filter_and_mask im size threshold) r c = Return b ->
  r = 0%nat \/ c = 0%nat \/ S r = length im
  \/ (exists row, im !! r = Some row /\ S c = length row) ->
  b = false.
Proof.
  unfold filter_and_mask, binary_closing. intros H Hborder.
  set (d := binary_dilation (astype_bool (mask_start im size threshold))) in *.
  assert (row_lengths d = row_lengths im) as Hshape.
  { unfold d, binary_dilation, astype_bool, mask_start, np_where, im_filt, median_filter.
    rewrite row_lengths_imap2d, !row_lengths_map2d, row_lengths_imap2d. reflexivity. }
  apply (erosion_border d r c b H).
  destruct Hborder as [-> | [-> | [Hr | (row & Hrow & Hc)]]]; auto.
  - right. right. left. rewrite Hr.
    apply (f_equal length) in Hshape. unfold row_lengths in Hshape.
    rewrite !length_fmap in Hshape. lia.
  - do 3 right.
    assert ((length <$> d) !! r = Some (length row)) as Hd.
    { unfold row_lengths in Hshape. rewrite Hshape, list_lookup_fmap, Hrow. reflexivity. }
    rewrite list_lookup_fmap in Hd. apply fmap_Some in Hd as (row' & Hrow' & Hlen).
    exists row'. split; [exact Hrow' | lia].
Qed.

(** The closing ends with an erosion against the border value 0, so the
    mask of [filter_and_mask] is false at every pixel of the first and
    last row and of the first and last column of the image, whatever the
    intensities, the size and the threshold. *)
Theorem filter_and_mask_border (im : grid Z) (size : nat) (threshold : Z) (r c : nat) (v : Z) :
  getitem2 im r c = Return v ->
  r = 0%nat \/ c = 0%nat \/ S r = length im
  \/ (exists row, im !! r = Some row /\ S c = length row) ->
  getitem2 (filter_and_mask im size threshold) r c = Return false.
Proof.
  intros Hv Hborder.
  assert (row_lengths im = row_lengths (filter_and_mask im size threshold)) as Hshape.
  { unfold filter_and_mask, astype_bool, mask_start, np_where, im_filt, median_filter.
    rewrite row_lengths_binary_closing, !row_lengths_map2d, row_lengths_imap2d.
    reflexivity. }
  destruct (getitem2_same_shape im _ r c v Hshape Hv) as [b Hb].
  rewrite Hb. f_equal.
  apply (filter_and_mask_border_value im size threshold r c b Hb Hborder).
Qed.

Lemma filter_and_mask_border_witness :
  getitem2 (filter_and_mask [[90; 90; 90]; [90; 90; 90]; [90; 90; 90]] 3 60) 2 1 = Return false.
Proof.
  apply (filter_and_mask_border [[90; 90; 90]; [90; 90; 90]; [90; 90; 90]] 3 60 2 1 90).
  - reflexivity.
  - right. right. left. reflexivity.
Defined.

End BorderFacts.

(** ** Chapter 3: the range of the ejection fraction *)

Module EjectionRangeFacts.
Import Np NpFacts EjectionFacts Ch3.

(** On a series of non-negative volumes with a positive maximum the cell
    returns a fraction between 0 and 1 and a non-negative ejection
    volume, the two indices point into the series, and the fraction is 0
    exactly when all the volumes are equal. *)
Theorem ejection_fraction_unit_range (ts : list Q) (mx : Q) :
  np_max ts = Return mx -> (0 < mx)%Q ->
  (forall y, y ∈ ts -> (0 <= y)%Q) ->
  exists (e : ejection) (q : Q),
    ejection_fraction ts = Return e
    /\ ej_frac e = Finite q
    /\ (0 <= q <= 1)%Q
    /\ (0 <= ej_vol e)%Q
    /\ (tmax e < length ts)%nat /\ (tmin e < length ts)%nat
    /\ ((q == 0)%Q <-> forall y, y ∈ ts -> (y == mx)%Q).
Proof.
  destruct ts as [|x l]; intros Hmax Hpos Hnonneg; [discriminate|].
  simpl in Hmax. injection Hmax as <-.
  destruct (max_spec x l) as (Hk & Hub & _).
  destruct (min_spec x l) as (Hk' & Hlb & _).
  set (mx := reduce larger x l) in *. set (mn := reduce smaller x l) in *.
  assert (0 <= mn)%Q as Hmn by (apply Hnonneg, list_elem_of_lookup; eauto).
  assert (mn <= mx)%Q as Hle by (apply (Hub _ _ Hk')).
  destruct (np_div_finite (mx - mn) mx) as (q & Hq & Hqv).
  { intros Hz. rewrite Hz in Hpos. revert Hpos. apply Qlt_irrefl. }
  eexists. exists q. rewrite ejection_fraction_cons. fold mx mn. rewrite Hq.
  split; [reflexivity|]. cbn [ej_frac ej_vol tmax tmin].
  split; [reflexivity|].
  split.
  { rewrite Hqv. split.
    - apply Qle_shift_div_l; [exact Hpos | lra].
    - apply Qle_shift_div_r; [exact Hpos | lra]. }
  split; [lra|].
  split; [apply (lookup_lt_Some _ _ _ Hk)|].
  split; [apply (lookup_lt_Some _ _ _ Hk')|].
  assert ((q == 0)%Q <-> (mn == mx)%Q) as Hzero.
  { rewrite Hqv. split.
    - intros H0.
      assert (mx - mn == 0)%Q as Hd.
      { rewrite <- (Qmult_div_r (mx - mn) mx) by lra. rewrite H0. ring. }
      lra.
    - intros Heq. rewrite Heq. unfold Qdiv. ring. }
  rewrite Hzero. split.
  - intros Heq y Hy. apply list_elem_of_lookup in Hy as [j Hj].
    apply Qle_antisym; [apply (Hub j y Hj)|].
    rewrite <- Heq. apply (Hlb j y Hj).
  - intros Hall. apply Hall, list_elem_of_lookup. eauto.
Qed.

Lemma ejection_fraction_unit_range_witness :
  exists (e : ejection) (q : Q),
    ejection_fraction [100 # 1; 80 # 1; 120 # 1; 90 # 1]%Q = Return e
    /\ ej_frac e = Finite q
    /\ (0 <= q <= 1)%Q
    /\ (0 <= ej_vol e)%Q
    /\ (tmax e < length [100 # 1; 80 # 1; 120 # 1; 90 # 1]%Q)%nat
    /\ (tmin e < length [100 # 1; 80 # 1; 120 # 1; 90 # 1]%Q)%nat
    /\ ((q == 0)%Q <-> forall y, y ∈ [100 # 1; 80 # 1; 120 # 1; 90 # 1]%Q -> (y == 120 # 1)%Q).
Proof.
  apply (ejection_fraction_unit_range [100 # 1; 80 # 1; 120 # 1; 90 # 1]%Q (120 # 1)%Q).
  - reflexivity.
  - reflexivity.
  - intros y Hy. repeat (apply elem_of_cons in Hy as [-> | Hy]; [discriminate|]).
    apply elem_of_nil in Hy. destruct Hy.
Defined.

End EjectionRangeFacts.

(** ** Chapter 4: when the mean absolute error is right *)

Module MaeMoreFacts.
Import Np NpFacts GridFacts SumFacts QuotientFacts ZipFacts IouFacts MaeFacts Ch4.

Lemma zip2d_flip {A B C} (f : A -> B -> C) (a : grid A) (b : grid B) :
  zip2d f a b = zip2d (fun y x => f x y) b a.
Proof.
  unfold zip2d. revert b.
  induction a as [|ra a IH]; intros [|rb b]; try reflexivity.
  cbn [zip_with]. rewrite IH. f_equal.
  clear. revert rb. induction ra as [|x ra IH]; intros [|y rb]; try reflexivity.
  cbn [zip_with]. rewrite IH. reflexivity.
Qed.

(** Two arrays of one shape whose paired elements agree are equal. *)
Lemma zip2d_pairs_eq {A} (a b : grid A) :
  row_lengths a = row_lengths b ->
  (forall p, p ∈ ravel (zip2d pair a b) -> p.1 = p.2) -> a = b.
Proof.
  unfold row_lengths, ravel, zip2d. revert b.
  induction a as [|ra a IH]; intros [|rb b] Hshape Hp; try discriminate Hshape; [reflexivity|].
  rewrite !fmap_cons in Hshape. injection Hshape as Hlen Hshape.
  cbn [zip_with concat] in Hp. f_equal.
  - assert (forall p, p ∈ zip_with pair ra rb -> p.1 = p.2) as Hrow
      by (intros p Hin; apply Hp, elem_of_app; left; exact Hin).
    clear -Hlen Hrow. revert rb Hlen Hrow.
    induction ra as [|x ra IH]; intros [|y rb] Hlen Hrow; try discriminate Hlen; [reflexivity|].
    simpl in Hlen. injection Hlen as Hlen. f_equal.
    + apply (Hrow (x, y)). apply elem_of_cons. left. reflexivity.
    + apply IH; [exact Hlen|]. intros p Hin. apply Hrow, elem_of_cons. right. exact Hin.
  - apply IH; [exact Hshape|]. intros p Hin. apply Hp, elem_of_app. right. exact Hin.
Qed.

Lemma pairs_refl {A} (a : grid A) (p : A * A) :
  p ∈ ravel (zip2d pair a a) -> p.1 = p.2.
Proof.
  intros Hp. apply elem_of_pairs in Hp as (r & c & H1 & H2). congruence.
Qed.

Lemma uint8_pairs (im1 im2 : grid Z) (p : Z * Z) :
  is_uint8_image im1 -> is_uint8_image im2 -> p ∈ ravel (zip2d pair im1 im2) ->
  is_uint8 p.1 /\ is_uint8 p.2.
Proof.
  intros H1 H2 Hp. apply elem_of_pairs in Hp as (r & c & Ha & Hb).
  split; [apply (uint8_pixel im1 r c) | apply (uint8_pixel im2 r c)]; assumption.
Qed.

Lemma abs_err_px_range (a b : Z) : 0 <= abs_err_px a b <= 255.
Proof.
  unfold abs_err_px, uint8_abs, wrap8.
  pose proof (Z.mod_pos_bound (Z.abs (uint8_sub a b)) 256). lia.
Qed.

Lemma abs_err_px_zero (a b : Z) :
  is_uint8 a -> is_uint8 b -> (abs_err_px a b = 0 <-> a = b).
Proof.
  intros Ha Hb. rewrite (abs_err_px_split a b Ha Hb).
  unfold is_uint8, wrap_excess_px in *. destruct (Z.ltb_spec a b); lia.
Qed.

Lemma sumZ_zero {A} (f : A -> Z) (l : list A) :
  (forall x, 0 <= f x) -> (sumZ (map f l) = 0 <-> forall x, x ∈ l -> f x = 0).
Proof.
  intros Hf. split.
  - intros Hsum x Hx. pose proof (sumZ_map_elem f l x Hf Hx). specialize (Hf x). lia.
  - intros Hall. transitivity (sumZ (map (fun _ : A => 0) l)); [|apply sumZ_map_zero].
    apply sumZ_map_ext, Hall.
Qed.

Lemma np_sum_zip2d {A B} (f : A -> B -> Z) (a : grid A) (b : grid B) :
  np_sum (zip2d f a b) = sumZ (map (fun p => f p.1 p.2) (ravel (zip2d pair a b))).
Proof. unfold np_sum. rewrite (ravel_zip2d f). reflexivity. Qed.

Lemma length_ravel_zip2d {A B C} (f : A -> B -> C) (a : grid A) (b : grid B) :
  row_lengths a = row_lengths b -> length (ravel (zip2d f a b)) = length (ravel a).
Proof. intros H. apply length_ravel, row_lengths_zip2d, H. Qed.

(** Wrap-around or not, the reported MAE of two 8-bit images of one
    shape is 0 exactly when the images are equal. *)
Theorem mean_abs_err_zero_iff_equal (im1 im2 : grid Z) :
  is_uint8_image im1 -> is_uint8_image im2 -> row_lengths im1 = row_lengths im2 ->
  ravel im1 <> [] ->
  (mean_abs_err im1 im2 = Finite 0 <-> im1 = im2).
Proof.
  intros H1 H2 Hshape Hne.
  assert (Z.of_nat (length (ravel im1)) <> 0) as Hn
    by (destruct (ravel im1); [congruence | simpl; lia]).
  unfold mean_abs_err, np_mean, abs_err.
  rewrite length_ravel_zip2d by exact Hshape.
  assert (Finite 0 = np_div (inject_Z 0) (inject_Z (Z.of_nat (length (ravel im1))))) as ->.
  { rewrite np_div_Z by exact Hn.
    rewrite (Qred_complete _ 0%Q (Qdiv_Z_zero (Z.of_nat (length (ravel im1))))).
    reflexivity. }
  rewrite np_div_Z_inj by exact Hn.
  rewrite np_sum_zip2d, sumZ_zero by (intros p; apply abs_err_px_range).
  split.
  - intros Hall. apply zip2d_pairs_eq; [exact Hshape|].
    intros p Hp. destruct (uint8_pairs im1 im2 p H1 H2 Hp) as [Ha Hb].
    apply (proj1 (abs_err_px_zero p.1 p.2 Ha Hb)). apply (Hall p Hp).
  - intros <- p Hp. destruct (uint8_pairs im1 im1 p H1 H1 Hp) as [Ha Hb].
    apply (proj2 (abs_err_px_zero p.1 p.2 Ha Hb)). apply (pairs_refl im1 p Hp).
Qed.

Lemma mean_abs_err_zero_iff_equal_witness :
  mean_abs_err [[3; 250]; [0; 17]] [[3; 250]; [0; 17]] = Finite 0
  <-> [[3; 250]; [0; 17]] = [[3; 250]; [0; 17]].
Proof.
  apply (mean_abs_err_zero_iff_equal [[3; 250]; [0; 17]] [[3; 250]; [0; 17]]).
  - unfold is_uint8_image, is_uint8. repeat constructor; lia.
  - unfold is_uint8_image, is_uint8. repeat constructor; lia.
  - reflexivity.
  - simpl. discriminate.
Defined.

Lemma sumZ_map_scale {A} (k : Z) (f : A -> Z) (l : list A) :
  sumZ (map (fun x => k * f x) l) = k * sumZ (map f l).
Proof. induction l as [|x l IH]; simpl; [lia | rewrite IH; lia]. Qed.

Lemma abs_err_px_order (a b : Z) :
  is_uint8 a -> is_uint8 b ->
  abs_err_px a b + abs_err_px b a = 256 * (if negb (a =? b) then 1 else 0).
Proof.
  intros Ha Hb. rewrite (abs_err_px_split a b Ha Hb), (abs_err_px_split b a Hb Ha).
  unfold is_uint8, wrap_excess_px in *.
  destruct (Z.ltb_spec a b), (Z.ltb_spec b a), (Z.eqb_spec a b); simpl; lia.
Qed.

(** The reported MAE depends on the order of the images: over two 8-bit
    images of one shape the errors of [im1 - im2] and of [im2 - im1] add
    up to 256 at every pixel where the images differ and to 0 at every
    other pixel, so the two sums of errors add up to 256 times the number
    of differing pixels. *)
Theorem abs_err_order (im1 im2 : grid Z) :
  is_uint8_image im1 -> is_uint8_image im2 -> row_lengths im1 = row_lengths im2 ->
  (forall r c a b, getitem2 im1 r c = Return a -> getitem2 im2 r c = Return b ->
     exists e1 e2,
       getitem2 (abs_err im1 im2) r c = Return e1
       /\ getitem2 (abs_err im2 im1) r c = Return e2
       /\ e1 + e2 = (if a =? b then 0 else 256))
  /\ np_sum (abs_err im1 im2) + np_sum (abs_err im2 im1)
     = 256 * np_sum_bool (zip2d (fun a b => negb (a =? b)) im1 im2).
Proof.
  intros H1 H2 Hshape. split.
  - intros r c a b Ha Hb.
    exists (abs_err_px a b), (abs_err_px b a). unfold abs_err.
    split; [apply getitem2_zip2d; eauto|]. split; [apply getitem2_zip2d; eauto|].
    rewrite (abs_err_px_order a b (MaeFacts.uint8_pixel im1 r c a H1 Ha)
               (MaeFacts.uint8_pixel im2 r c b H2 Hb)).
    destruct (a =? b); reflexivity.
  - unfold abs_err, np_sum_bool.
    rewrite (zip2d_flip abs_err_px im2 im1), !np_sum_zip2d.
    rewrite (ravel_zip2d (fun a b => negb (a =? b))), map_map.
    rewrite <- sumZ_map_add, <- sumZ_map_scale.
    apply sumZ_map_ext. intros p Hp.
    destruct (uint8_pairs im1 im2 p H1 H2 Hp) as [Ha Hb].
    apply (abs_err_px_order p.1 p.2 Ha Hb).
Qed.

Lemma abs_err_order_witness :
  (forall r c a b, getitem2 [[0; 9]; [200; 5]] r c = Return a ->
     getitem2 [[1; 9]; [100; 5]] r c = Return b ->
     exists e1 e2,
       getitem2 (abs_err [[0; 9]; [200; 5]] [[1; 9]; [100; 5]]) r c = Return e1
       /\ getitem2 (abs_err [[1; 9]; [100; 5]] [[0; 9]; [200; 5]]) r c = Return e2
       /\ e1 + e2 = (if a =? b then 0 else 256))
  /\ np_sum (abs_err [[0; 9]; [200; 5]] [[1; 9]; [100; 5]])
     + np_sum (abs_err [[1; 9]; [100; 5]] [[0; 9]; [200; 5]])
     = 256 * np_sum_bool (zip2d (fun a b => negb (a =? b)) [[0; 9]; [200; 5]] [[1; 9]; [100; 5]]).
Proof.
  apply (abs_err_order [[0; 9]; [200; 5]] [[1; 9]; [100; 5]]).
  - unfold is_uint8_image, is_uint8. repeat constructor; lia.
  - unfold is_uint8_image, is_uint8. repeat constructor; lia.
  - reflexivity.
Defined.

(** The reported MAE of two 8-bit images of one shape is a finite value
    between 0 and 255; where no pixel of [im2] exceeds the pixel of [im1]
    the subtraction never wraps and it is the true mean absolute
    difference. *)
Theorem mean_abs_err_exact (im1 im2 : grid Z) :
  is_uint8_image im1 -> is_uint8_image im2 -> row_lengths im1 = row_lengths im2 ->
  ravel im1 <> [] ->
  (exists q, mean_abs_err im1 im2 = Finite q /\ (0 <= q <= 255)%Q)
  /\ ((forall r c a b, getitem2 im1 r c = Return a -> getitem2 im2 r c = Return b -> b <= a) ->
      mean_abs_err im1 im2 = true_mean_abs_err im1 im2).
Proof.
  intros H1 H2 Hshape Hne.
  assert (0 < Z.of_nat (length (ravel im1))) as Hn
    by (destruct (ravel im1); [congruence | simpl; lia]).
  split.
  - unfold mean_abs_err, np_mean, abs_err.
    rewrite length_ravel_zip2d by exact Hshape.
    rewrite np_div_Z by lia. eexists. split; [reflexivity|].
    rewrite Qred_correct, np_sum_zip2d.
    set (l := ravel (zip2d pair im1 im2)).
    assert (length l = length (ravel im1)) as Hl by (apply length_ravel_zip2d, Hshape).
    rewrite <- Hl. rewrite <- Hl in Hn. clearbody l. clear -Hn. split.
    + rewrite <- (Qdiv_Z_zero (Z.of_nat (length l))). apply Qdiv_Z_le; [exact Hn|].
      apply sumZ_map_nonneg. intros p. apply abs_err_px_range.
    + assert (sumZ (map (fun p : Z * Z => abs_err_px p.1 p.2) l) <= 255 * Z.of_nat (length l))
        as Hsum.
      { rewrite <- sumZ_map_one, <- sumZ_map_scale. apply sumZ_map_le.
        intros p. pose proof (abs_err_px_range p.1 p.2). lia. }
      apply Qle_trans with (inject_Z (255 * Z.of_nat (length l)) / inject_Z (Z.of_nat (length l)))%Q.
      * apply Qdiv_Z_le; [exact Hn | exact Hsum].
      * rewrite inject_Z_mult. unfold Qdiv. rewrite <- Qmult_assoc, Qmult_inv_r.
        -- rewrite Qmult_1_r. apply Qle_refl.
        -- apply inject_Z_nonzero. lia.
  - intros Hge. unfold mean_abs_err, true_mean_abs_err, np_mean, abs_err, true_abs_err.
    rewrite !length_ravel_zip2d by exact Hshape. f_equal. f_equal.
    rewrite !np_sum_zip2d. apply sumZ_map_ext. intros p Hp.
    destruct (uint8_pairs im1 im2 p H1 H2 Hp) as [Ha Hb].
    apply elem_of_pairs in Hp as (r & c & Hpa & Hpb).
    specialize (Hge r c _ _ Hpa Hpb).
    rewrite (abs_err_px_exact _ _ Ha Hb Hge). lia.
Qed.

Lemma mean_abs_err_exact_witness :
  (exists q, mean_abs_err [[10; 200]; [7; 7]] [[9; 100]; [7; 0]] = Finite q /\ (0 <= q <= 255)%Q)
  /\ mean_abs_err [[10; 200]; [7; 7]] [[9; 100]; [7; 0]]
     = true_mean_abs_err [[10; 200]; [7; 7]] [[9; 100]; [7; 0]].
Proof.
  destruct (mean_abs_err_exact [[10; 200]; [7; 7]] [[9; 100]; [7; 0]]) as [Hrange Hexact].
  - unfold is_uint8_image, is_uint8. repeat constructor; lia.
  - unfold is_uint8_image, is_uint8. repeat constructor; lia.
  - reflexivity.
  - simpl. discriminate.
  - split; [exact Hrange|]. reflexivity.
Defined.

End MaeMoreFacts.

(** ** Chapter 4: the extremes of the IOU *)

Module IouMoreFacts.
Import Np NpFacts GridFacts SumFacts QuotientFacts ZipFacts IouFacts MaeMoreFacts Ch4.

Lemma np_sum_bool_zip2d {A B} (f : A -> B -> bool) (a : grid A) (b : grid B) :
  np_sum_bool (zip2d f a b)
  = sumZ (map (fun p => if f p.1 p.2 then 1 else 0) (ravel (zip2d pair a b))).
Proof. unfold np_sum_bool. rewrite (ravel_zip2d f), map_map. reflexivity. Qed.

(** The intersection counts as many pixels as the union exactly when the
    masks agree at every pixel. *)
Lemma intersection_eq_union (a b : grid bool) :
  np_sum_bool (np_logical_and a b) = np_sum_bool (np_logical_or a b)
  <-> forall p, p ∈ ravel (zip2d pair a b) -> p.1 = p.2.
Proof.
  unfold np_logical_and, np_logical_or. rewrite !np_sum_bool_zip2d.
  set (l := ravel (zip2d pair a b)).
  assert (sumZ (map (fun p : bool * bool => if p.1 || p.2 then 1 else 0) l)
          = sumZ (map (fun p : bool * bool => if xorb p.1 p.2 then 1 else 0) l)
            + sumZ (map (fun p : bool * bool => if p.1 && p.2 then 1 else 0) l)) as ->.
  { rewrite <- sumZ_map_add. apply sumZ_map_ext. intros [[] []] _; reflexivity. }
  assert (sumZ (map (fun p : bool * bool => if xorb p.1 p.2 then 1 else 0) l) = 0
          <-> forall p, p ∈ l -> p.1 = p.2) as <-.
  { rewrite sumZ_zero by (intros [[] []]; simpl; lia).
    split; intros H p Hp; specialize (H p Hp); destruct p as [[] []]; simpl in *;
      congruence || lia. }
  lia.
Qed.

(** On masks of one shape whose union has a true pixel, the IOU is 1
    exactly when the masks are equal and 0 exactly when no pixel is true
    in both. *)
Theorem intersection_of_union_extremes (im1 im2 : grid bool) :
  row_lengths im1 = row_lengths im2 -> ~ all_false (np_logical_or im1 im2) ->
  (intersection_of_union im1 im2 = Finite 1 <-> im1 = im2)
  /\ (intersection_of_union im1 im2 = Finite 0 <-> all_false (np_logical_and im1 im2)).
Proof.
  intros Hshape Hany.
  assert (np_sum_bool (np_logical_or im1 im2) <> 0) as Hne.
  { intros H. apply Hany, np_sum_bool_zero, H. }
  unfold intersection_of_union. split.
  - assert (Finite 1 = np_div (inject_Z (np_sum_bool (np_logical_or im1 im2)))
                              (inject_Z (np_sum_bool (np_logical_or im1 im2)))) as ->.
    { rewrite np_div_Z by exact Hne.
      rewrite (Qred_complete _ 1%Q (Qdiv_Z_same _ Hne)). reflexivity. }
    rewrite np_div_Z_inj by exact Hne. rewrite intersection_eq_union. split.
    + apply zip2d_pairs_eq, Hshape.
    + intros <-. apply pairs_refl.
  - assert (Finite 0 = np_div (inject_Z 0)
                              (inject_Z (np_sum_bool (np_logical_or im1 im2)))) as ->.
    { rewrite np_div_Z by exact Hne.
      rewrite (Qred_complete _ 0%Q (Qdiv_Z_zero (np_sum_bool (np_logical_or im1 im2)))).
      reflexivity. }
    rewrite np_div_Z_inj by exact Hne. apply np_sum_bool_zero.
Qed.

Lemma intersection_of_union_extremes_witness :
  (intersection_of_union [[true; false]; [true; true]] [[false; true]; [false; false]] = Finite 1
   <-> [[true; false]; [true; true]] = [[false; true]; [false; false]])
  /\ (intersection_of_union [[true; false]; [true; true]] [[false; true]; [false; false]] = Finite 0
      <-> all_false (np_logical_and [[true; false]; [true; true]] [[false; true]; [false; false]])).
Proof.
  apply (intersection_of_union_extremes [[true; false]; [true; true]]
           [[false; true]; [false; false]]).
  - reflexivity.
  - intros H. apply (H 0%nat 0%nat). reflexivity.
Defined.

End IouMoreFacts.

(** ** Chapter 4: the centre of mass and the translation *)

Module ComFacts.
Import Np Ndi NpFacts GridFacts SumFacts QuotientFacts ZipFacts MapFacts MorphFacts IouFacts Ch4.

(** The elements of an array with their positions, in C order. *)
Lemma ravel_imap2d {A B} (f : nat -> nat -> A -> B) (im : grid A) :
  ravel (imap2d f im)
  = map (fun t : nat * nat * A => f t.1.1 t.1.2 t.2)
        (ravel (imap2d (fun r c v => (r, c, v)) im)).
Proof.
  rewrite <- ravel_map2d. f_equal. unfold map2d, imap2d.
  rewrite fmap_imap. apply imap_ext. intros r row _. simpl.
  rewrite fmap_imap. apply imap_ext. intros c v _. reflexivity.
Qed.

Lemma elem_of_positions {A} (im : grid A) (t : nat * nat * A) :
  t ∈ ravel (imap2d (fun r c v => (r, c, v)) im) -> getitem2 im t.1.1 t.1.2 = Return t.2.
Proof.
  intros Ht. apply elem_of_ravel in Ht as (r & c & H).
  apply getitem2_imap2d_inv in H as (v & Hv & ->). exact Hv.
Qed.

Lemma imap2d_id {A} (im : grid A) : imap2d (fun _ _ v => v) im = im.
Proof.
  assert (forall (B : Type) (l : list B), imap (fun (_ : nat) (x : B) => x) l = l) as Hid.
  { intros B l. exact (eq_trans (imap_const id l) (list_fmap_id l)). }
  unfold imap2d. rewrite <- (Hid _ im) at 2.
  apply imap_ext. intros i row _. apply Hid.
Qed.

Lemma np_sum_positions (im : grid Z) :
  np_sum im = sumZ (map (fun t : nat * nat * Z => t.2)
                        (ravel (imap2d (fun r c v => (r, c, v)) im))).
Proof.
  unfold np_sum. rewrite <- (imap2d_id im) at 1. rewrite ravel_imap2d. reflexivity.
Qed.

Lemma Qdiv_Z_mult (k n : Z) : n <> 0 -> (inject_Z (k * n) / inject_Z n == inject_Z k)%Q.
Proof.
  intros Hn. rewrite inject_Z_mult. unfold Qdiv.
  rewrite <- Qmult_assoc, Qmult_inv_r by (apply inject_Z_nonzero, Hn).
  apply Qmult_1_r.
Qed.

(** A weighted sum whose weights lie in [0, hi] lies between 0 and [hi]
    times the plain sum. *)
Lemma weighted_sum_bounds {A} (w v : A -> Z) (hi : Z) (l : list A) :
  (forall t, t ∈ l -> 0 <= v t /\ 0 <= w t <= hi) ->
  0 <= sumZ (map (fun t => w t * v t) l) <= hi * sumZ (map v l).
Proof.
  induction l as [|t l IH]; intros H; simpl; [lia|].
  destruct (H t) as [Hv Hw]; [apply elem_of_cons; auto|].
  destruct IH as [IH0 IH1]; [intros u Hu; apply H, elem_of_cons; auto|].
  split; nia.
Qed.

(** For an 8-bit image with some mass, and small enough for its sums to
    be held exactly (the total in the integer accumulator, the weighted
    sums in float64), the centre of mass is finite and lies inside the
    array, between row 0 and the last row and between column 0 and the
    last column; the translation lies between 128 minus the last index
    and 128 on each axis.  Rounding the quotients keeps them in these
    ranges. *)
Theorem center_of_mass_inside (im : grid Z) (ncols : nat) :
  is_uint8_image im ->
  Forall (fun row => length row = ncols) im ->
  255 * Z.of_nat (length (ravel im)) * Z.of_nat (length im + ncols) < 2 ^ 53 ->
  0 < np_sum im ->
  exists q0 q1 d0 d1 : Q,
    center_of_mass im = (Finite q0, Finite q1)
    /\ (0 <= q0 <= inject_Z (Z.of_nat (length im) - 1))%Q
    /\ (0 <= q1 <= inject_Z (Z.of_nat ncols - 1))%Q
    /\ translation im = (Finite d0, Finite d1)
    /\ ((128 # 1) - inject_Z (Z.of_nat (length im) - 1) <= d0 <= 128 # 1)%Q
    /\ ((128 # 1) - inject_Z (Z.of_nat ncols - 1) <= d1 <= 128 # 1)%Q.
Proof.
  intros Him Hrect _ Htotal.
  assert (Forall (Forall (fun v => 0 <= v)) im) as Hpos.
  { eapply Forall_impl; [exact Him|]. intros row Hrow.
    eapply Forall_impl; [exact Hrow|]. intros v Hv. unfold is_uint8 in Hv. simpl. lia. }
  assert (forall t, t ∈ ravel (imap2d (fun r c (v : Z) => (r, c, v)) im) ->
            0 <= t.2 /\ (t.1.1 < length im)%nat /\ (t.1.2 < ncols)%nat) as Hpix.
  { intros [[r c] v] Ht. apply elem_of_positions in Ht. simpl in *.
    apply getitem2_Return in Ht as (row & Hr & Hc).
    rewrite Forall_forall in Hpos, Hrect.
    assert (row ∈ im) as Hin by (apply list_elem_of_lookup; eauto).
    split; [|split].
    - specialize (Hpos row Hin). rewrite Forall_forall in Hpos.
      apply Hpos, list_elem_of_lookup. eauto.
    - apply (lookup_lt_Some _ _ _ Hr).
    - rewrite <- (Hrect row Hin). apply (lookup_lt_Some _ _ _ Hc). }
  assert (0 <= np_sum (imap2d (fun r _ v => Z.of_nat r * v) im)
          <= (Z.of_nat (length im) - 1) * np_sum im) as H0.
  { unfold np_sum at 1 2. rewrite ravel_imap2d, np_sum_positions.
    apply (weighted_sum_bounds (fun t : nat * nat * Z => Z.of_nat t.1.1) (fun t => t.2)).
    intros t Ht. specialize (Hpix t Ht). lia. }
  assert (0 <= np_sum (imap2d (fun _ c v => Z.of_nat c * v) im)
          <= (Z.of_nat ncols - 1) * np_sum im) as H1.
  { unfold np_sum at 1 2. rewrite ravel_imap2d, np_sum_positions.
    apply (weighted_sum_bounds (fun t : nat * nat * Z => Z.of_nat t.1.2) (fun t => t.2)).
    intros t Ht. specialize (Hpix t Ht). lia. }
  assert (0 <= Qred (inject_Z (np_sum (imap2d (fun r _ v => (Z.of_nat r * v)%Z) im))
                     / inject_Z (np_sum im))
          <= inject_Z (Z.of_nat (length im) - 1))%Q as Hq0.
  { rewrite Qred_correct. split.
    + rewrite <- (Qdiv_Z_zero (np_sum im)). apply Qdiv_Z_le; lia.
    + rewrite <- (Qdiv_Z_mult (Z.of_nat (length im) - 1) (np_sum im)) by lia.
      apply Qdiv_Z_le; lia. }
  assert (0 <= Qred (inject_Z (np_sum (imap2d (fun _ c v => (Z.of_nat c * v)%Z) im))
                     / inject_Z (np_sum im))
          <= inject_Z (Z.of_nat ncols - 1))%Q as Hq1.
  { rewrite Qred_correct. split.
    + rewrite <- (Qdiv_Z_zero (np_sum im)). apply Qdiv_Z_le; lia.
    + rewrite <- (Qdiv_Z_mult (Z.of_nat ncols - 1) (np_sum im)) by lia.
      apply Qdiv_Z_le; lia. }
  unfold translation, center_of_mass. cbn [fst snd].
  rewrite !np_div_Z by lia. cbn [np_rsub].
  do 4 eexists. split; [reflexivity|].
  split; [exact Hq0|]. split; [exact Hq1|]. split; [reflexivity|].
  split; rewrite Qred_correct; lra.
Qed.

Lemma center_of_mass_inside_witness :
  exists q0 q1 d0 d1 : Q,
    center_of_mass [[0; 2; 0]; [1; 0; 5]] = (Finite q0, Finite q1)
    /\ (0 <= q0 <= inject_Z (Z.of_nat (length [[0; 2; 0]; [1; 0; 5]]) - 1))%Q
    /\ (0 <= q1 <= inject_Z (Z.of_nat 3 - 1))%Q
    /\ translation [[0; 2; 0]; [1; 0; 5]] = (Finite d0, Finite d1)
    /\ ((128 # 1) - inject_Z (Z.of_nat (length [[0; 2; 0]; [1; 0; 5]]) - 1) <= d0 <= 128 # 1)%Q
    /\ ((128 # 1) - inject_Z (Z.of_nat 3 - 1) <= d1 <= 128 # 1)%Q.
Proof.
  apply (center_of_mass_inside [[0; 2; 0]; [1; 0; 5]] 3).
  - unfold is_uint8_image, is_uint8. repeat constructor; lia.
  - repeat constructor.
  - reflexivity.
  - reflexivity.
Defined.

(** On an image that is zero everywhere the centre of mass divides 0 by
    0: both coordinates, and the translation computed from them, are
    NaN. *)
Theorem center_of_mass_blank (im : grid Z) :
  Forall (Forall (fun v => v = 0)) im ->
  center_of_mass im = (NaN, NaN) /\ translation im = (NaN, NaN).
Proof.
  intros Hzero.
  assert (forall t, t ∈ ravel (imap2d (fun r c (v : Z) => (r, c, v)) im) -> t.2 = 0) as Hpix.
  { intros [[r c] v] Ht. apply elem_of_positions in Ht. simpl in *.
    apply getitem2_Return in Ht as (row & Hr & Hc).
    rewrite Forall_forall in Hzero.
    assert (row ∈ im) as Hin by (apply list_elem_of_lookup; eauto).
    specialize (Hzero row Hin). rewrite Forall_forall in Hzero.
    apply Hzero, list_elem_of_lookup. eauto. }
  assert (forall w : nat * nat * Z -> Z,
            sumZ (map (fun t => w t * t.2) (ravel (imap2d (fun r c (v : Z) => (r, c, v)) im))) = 0)
    as Hsum.
  { intros w. transitivity (sumZ (map (fun _ : nat * nat * Z => 0)
                                      (ravel (imap2d (fun r c (v : Z) => (r, c, v)) im))));
      [|apply sumZ_map_zero].
    apply sumZ_map_ext. intros t Ht. rewrite (Hpix t Ht). lia. }
  assert (center_of_mass im = (NaN, NaN)) as Hcom.
  { unfold center_of_mass. unfold np_sum at 1 3.
    rewrite (ravel_imap2d (fun r _ v => Z.of_nat r * v)),
      (ravel_imap2d (fun _ c v => Z.of_nat c * v)).
    rewrite (Hsum (fun t => Z.of_nat t.1.1)), (Hsum (fun t => Z.of_nat t.1.2)).
    rewrite np_sum_positions.
    replace (sumZ (map (fun t : nat * nat * Z => t.2)
                       (ravel (imap2d (fun r c (v : Z) => (r, c, v)) im)))) with 0.
    - reflexivity.
    - symmetry. rewrite <- (Hsum (fun _ => 1)). apply sumZ_map_ext. intros t _. lia. }
  split; [exact Hcom|]. unfold translation. rewrite Hcom. reflexivity.
Qed.

Lemma center_of_mass_blank_witness :
  center_of_mass [[0; 0]; [0; 0]] = (NaN, NaN) /\ translation [[0; 0]; [0; 0]] = (NaN, NaN).
Proof.
  apply (center_of_mass_blank [[0; 0]; [0; 0]]). repeat constructor.
Defined.

End ComFacts.

(** ** Chapter 3: the histograms of the labelled volume *)

Module LabelHistFacts.
Import Np Ndi NpFacts SumFacts QuotientFacts IouFacts CdfFacts Ch3.

Lemma sumZ_filter_le {A} (f : A -> Z) (P Q : A -> Prop)
    `{forall x, Decision (P x)} `{forall x, Decision (Q x)} (l : list A) :
  (forall x, 0 <= f x) -> (forall x, P x -> Q x) ->
  sumZ (map f (filter P l)) <= sumZ (map f (filter Q l)).
Proof.
  intros Hf HPQ. induction l as [|x l IH]; [reflexivity|].
  rewrite !filter_cons. specialize (Hf x).
  destruct (decide (P x)) as [HP|HP], (decide (Q x)) as [HQ|HQ]; simpl; try lia.
  destruct (HQ (HPQ x HP)).
Qed.

Lemma sumZ_filter_all {A} (f : A -> Z) (P : A -> Prop) `{forall x, Decision (P x)} (l : list A) :
  (forall x, 0 <= f x) -> sumZ (map f (filter P l)) <= sumZ (map f l).
Proof.
  intros Hf. induction l as [|x l IH]; [reflexivity|].
  rewrite filter_cons. specialize (Hf x). destruct (decide (P x)); simpl; lia.
Qed.

Lemma sumZ_zip_fst {B} (f : Z -> Z) (vs : list Z) (ls : list B) :
  (forall x, 0 <= f x) ->
  sumZ (map (fun p : Z * B => f p.1) (zip vs ls)) <= sumZ (map f vs).
Proof.
  intros Hf. revert ls. induction vs as [|v vs IH]; intros [|l ls]; simpl; try lia.
  - pose proof (sumZ_map_nonneg f vs Hf). specialize (Hf v). lia.
  - specialize (IH ls). lia.
Qed.

Lemma count_bin_select (lo hi : Z) (bins i : nat) (vol labels : volume Z) (index : option Z) :
  count_bin lo hi bins i (select_values vol labels index)
  = sumZ (map (fun p : Z * Z => if bool_decide (bin_index lo hi bins p.1 = Some i) then 1 else 0)
              (filter (fun p : Z * Z => selected index p.2 = true)
                      (zip (ravel3 vol) (ravel3 labels)))).
Proof.
  unfold count_bin, select_values.
  change (fst <$> ?l) with (map (@fst Z Z) l). rewrite map_map. reflexivity.
Qed.

(** Bin by bin, the histogram of all labelled voxels is below the
    histogram of the whole volume, and the histogram of the voxels
    labelled 1 is below both. *)
Lemma count_bin_restriction (vol labels : volume Z) (i : nat) :
  0 <= count_bin 0 255 256 i (select_values vol labels (Some 1))
       <= count_bin 0 255 256 i (select_values vol labels None)
  /\ count_bin 0 255 256 i (select_values vol labels None)
     <= count_bin 0 255 256 i (ravel3 vol).
Proof.
  rewrite !count_bin_select.
  set (g := fun v : Z => if bool_decide (bin_index 0 255 256 v = Some i) then 1 else 0).
  change (count_bin 0 255 256 i (ravel3 vol)) with (sumZ (map g (ravel3 vol))).
  change (fun p : Z * Z => if bool_decide (bin_index 0 255 256 p.1 = Some i) then 1 else 0)
    with (fun p : Z * Z => g p.1).
  assert (forall v, 0 <= g v) as Hg by (intros v; unfold g; destruct (bool_decide _); lia).
  split; [split|].
  - apply sumZ_map_nonneg. intros p. apply Hg.
  - apply sumZ_filter_le; [intros p; apply Hg|].
    intros p. unfold selected. rewrite Z.eqb_eq, Z.ltb_lt. lia.
  - etransitivity; [apply sumZ_filter_all; intros p; apply Hg|].
    apply sumZ_zip_fst, Hg.
Qed.

Lemma lookup_histogram_of (vals : list Z) (i : nat) :
  (i < 256)%nat -> histogram_of vals 0 255 256 !! i = Some (count_bin 0 255 256 i vals).
Proof.
  intros Hi. unfold histogram_of. rewrite lookup_map, lookup_seq_lt by lia. reflexivity.
Qed.

(** The three histograms of a volume and a label array of its shape.
    When some voxel carries the label 1, [hist3] is a histogram of 256
    bins and, bin by bin, it is below [hist2] (all labelled voxels),
    which is below [hist1] (the whole volume).  When no voxel does,
    [hist3] is [None]; [hist2] is still below [hist1]. *)
Theorem hist_restriction (vol labels : volume Z) :
  plane_lengths vol = plane_lengths labels ->
  (1 ∈ ravel3 labels ->
   exists h3 : list Z,
     hist3 vol labels = Some h3 /\ length h3 = 256%nat
     /\ forall i, (i < 256)%nat ->
          exists c1 c2 c3 : Z,
            hist1 vol !! i = Some c1 /\ hist2 vol labels !! i = Some c2 /\ h3 !! i = Some c3
            /\ 0 <= c3 <= c2 /\ c2 <= c1)
  /\ (1 ∉ ravel3 labels ->
      hist3 vol labels = None
      /\ forall i, (i < 256)%nat ->
           exists c1 c2 : Z,
             hist1 vol !! i = Some c1 /\ hist2 vol labels !! i = Some c2 /\ 0 <= c2 <= c1).
Proof.
  intros _. unfold hist1, hist2, hist3, histogram_index, histogram_labels. split.
  - intros Hin. rewrite bool_decide_true by exact Hin.
    eexists. split; [reflexivity|]. split.
    + unfold histogram_of. rewrite length_map, length_seq. reflexivity.
    + intros i Hi. rewrite !lookup_histogram_of by exact Hi.
      do 3 eexists. split; [reflexivity|]. split; [reflexivity|]. split; [reflexivity|].
      apply count_bin_restriction.
  - intros Hout. rewrite bool_decide_false by exact Hout. split; [reflexivity|].
    intros i Hi. rewrite !lookup_histogram_of by exact Hi.
    do 2 eexists. split; [reflexivity|]. split; [reflexivity|].
    pose proof (count_bin_restriction vol labels i). lia.
Qed.

Lemma hist_restriction_witness :
  (1 ∈ ravel3 [[[1; 2]; [1; 0]]] ->
   exists h3 : list Z,
     hist3 [[[7; 7]; [9; 7]]] [[[1; 2]; [1; 0]]] = Some h3 /\ length h3 = 256%nat
     /\ forall i, (i < 256)%nat ->
          exists c1 c2 c3 : Z,
            hist1 [[[7; 7]; [9; 7]]] !! i = Some c1
            /\ hist2 [[[7; 7]; [9; 7]]] [[[1; 2]; [1; 0]]] !! i = Some c2
            /\ h3 !! i = Some c3
            /\ 0 <= c3 <= c2 /\ c2 <= c1)
  /\ (1 ∉ ravel3 [[[1; 2]; [1; 0]]] ->
      hist3 [[[7; 7]; [9; 7]]] [[[1; 2]; [1; 0]]] = None
      /\ forall i, (i < 256)%nat ->
           exists c1 c2 : Z,
             hist1 [[[7; 7]; [9; 7]]] !! i = Some c1
             /\ hist2 [[[7; 7]; [9; 7]]] [[[1; 2]; [1; 0]]] !! i = Some c2 /\ 0 <= c2 <= c1).
Proof.
  apply (hist_restriction [[[7; 7]; [9; 7]]] [[[1; 2]; [1; 0]]]). reflexivity.
Defined.

Lemma sumZ_elem_le (l : list Z) (c : Z) :
  Forall (fun x => 0 <= x) l -> c ∈ l -> c <= sumZ l.
Proof.
  intros Hl. induction Hl as [|x l Hx Hl IH]; intros Hc.
  - apply elem_of_nil in Hc. destruct Hc.
  - simpl. assert (0 <= sumZ l) as Hs.
    { clear -Hl. induction Hl as [|y l Hy _ IH]; simpl; lia. }
    apply elem_of_cons in Hc as [->|Hc]; [lia | specialize (IH Hc); lia].
Qed.

Lemma histogram_of_nonneg (vals : list Z) (lo hi : Z) (bins : nat) :
  Forall (fun x => 0 <= x) (histogram_of vals lo hi bins).
Proof.
  unfold histogram_of. apply Forall_forall. intros x Hx.
  apply list_elem_of_In, in_map_iff in Hx as (i & <- & _). apply count_bin_nonneg.
Qed.

(** The density [hist / hist.sum()] of a 256-bin histogram over [0, 255]:
    when some value lies in the range, its entries are finite and lie in
    [0, 1], an entry is 0 exactly for an empty bin and 1 exactly for a
    bin that holds every counted value; when no value lies in the range,
    every entry is NaN. *)
Lemma density_entries (vals : list Z) :
  ((exists v, v ∈ vals /\ 0 <= v <= 255) ->
   exists qs : list Q,
     density (histogram_of vals 0 255 256) = map Finite qs
     /\ length qs = 256%nat
     /\ (forall i q, qs !! i = Some q ->
           exists c, histogram_of vals 0 255 256 !! i = Some c
             /\ (0 <= q <= 1)%Q
             /\ ((q == 0)%Q <-> c = 0)
             /\ ((q == 1)%Q <-> c = sumZ (histogram_of vals 0 255 256))))
  /\ ((forall v, v ∈ vals -> ~ 0 <= v <= 255) ->
      density (histogram_of vals 0 255 256) = replicate 256 NaN).
Proof.
  assert (sumZ (histogram_of vals 0 255 256)
          = sumZ (map (fun v => if bool_decide (0 <= v <= 255) then 1 else 0) vals)) as Htot
    by (unfold histogram_of; apply histogram_total; lia).
  split.
  - intros (v & Hv & Hrange).
    assert (0 < sumZ (histogram_of vals 0 255 256)) as Hpos.
    { rewrite Htot.
      pose proof (sumZ_map_elem (fun v => if bool_decide (0 <= v <= 255) then 1 else 0) vals v)
        as Hle.
      simpl in Hle. rewrite bool_decide_true in Hle by exact Hrange.
      apply Z.lt_le_trans with 1; [lia|]. apply Hle; [|exact Hv].
      intros y. destruct (bool_decide _); lia. }
    pose proof (histogram_of_nonneg vals 0 255 256) as Hnn.
    assert (length (histogram_of vals 0 255 256) = 256%nat) as Hlen
      by (unfold histogram_of; rewrite length_map, length_seq; reflexivity).
    clear Htot. revert Hpos Hnn Hlen.
    generalize (histogram_of vals 0 255 256). intros h Hpos Hnn Hlen.
    assert (sumZ h <> 0) as Hne by lia.
    exists (map (fun c => Qred (inject_Z c / inject_Z (sumZ h))) h).
    split; [|split].
    + unfold density. rewrite map_map. apply map_ext. intros c. apply np_div_Z, Hne.
    + rewrite length_map. exact Hlen.
    + intros i q Hq. rewrite lookup_map in Hq.
      destruct (h !! i) as [c|] eqn:Hc; [|discriminate Hq].
      injection Hq as <-. exists c. split; [reflexivity|].
      assert (c ∈ h) as Hin by (apply list_elem_of_lookup; eauto).
      assert (0 <= c <= sumZ h) as [Hc0 Hc1].
      { split; [|apply sumZ_elem_le; assumption].
        rewrite Forall_forall in Hnn. apply Hnn, Hin. }
      rewrite Qred_correct. split; [split|split; split].
      * rewrite <- (Qdiv_Z_zero (sumZ h)). apply Qdiv_Z_le; assumption.
      * rewrite <- (Qdiv_Z_same (sumZ h)) by exact Hne. apply Qdiv_Z_le; assumption.
      * intros Hz. apply (Qdiv_Z_inj c 0 (sumZ h) Hne).
        rewrite Hz. symmetry. apply Qdiv_Z_zero.
      * intros ->. apply Qdiv_Z_zero.
      * intros H1. apply (Qdiv_Z_inj c (sumZ h) (sumZ h) Hne).
        rewrite H1. symmetry. apply Qdiv_Z_same, Hne.
      * intros ->. apply Qdiv_Z_same, Hne.
  - intros Hout. unfold density. rewrite Htot.
    assert (sumZ (map (fun v => if bool_decide (0 <= v <= 255) then 1 else 0) vals) = 0) as ->.
    { transitivity (sumZ (map (fun _ : Z => 0) vals)); [|apply sumZ_map_zero].
      apply sumZ_map_ext. intros v Hv. rewrite bool_decide_false; [reflexivity | apply Hout, Hv]. }
    unfold histogram_of. rewrite map_map.
    transitivity (map (fun _ : nat => NaN) (seq 0 256)); [|reflexivity].
    apply map_ext_in. intros i _.
    assert (count_bin 0 255 256 i vals = 0) as ->; [|reflexivity].
    unfold count_bin.
    transitivity (sumZ (map (fun _ : Z => 0) vals)); [|apply sumZ_map_zero].
    apply sumZ_map_ext. intros v Hv.
    rewrite (bin_index_out_of_range 0 255 256 v (Hout v Hv)).
    rewrite bool_decide_false by discriminate. reflexivity.
Qed.

(** The density plotted for the left ventricle, [hist3 / hist3.sum()], on
    a volume and a label array of its shape.  When no voxel carries the
    label 1, [hist3] is [None] and the division raises AttributeError.
    When some voxel does and one of these voxels has an intensity in
    [0, 255], the density has 256 finite entries in [0, 1]; an entry is 0
    exactly for an empty bin and 1 exactly for a bin that holds every
    counted voxel.  When the voxels labelled 1 all lie outside [0, 255],
    every entry is NaN. *)
Theorem density_of_histogram (vol labels : volume Z) :
  plane_lengths vol = plane_lengths labels ->
  (1 ∉ ravel3 labels -> density3 vol labels = Raise AttributeError)
  /\ (forall h3, hist3 vol labels = Some h3 ->
      ((exists v, v ∈ select_values vol labels (Some 1) /\ 0 <= v <= 255) ->
       exists qs : list Q,
         density3 vol labels = Return (map Finite qs)
         /\ length qs = 256%nat
         /\ (forall i q, qs !! i = Some q ->
               exists c, h3 !! i = Some c
                 /\ (0 <= q <= 1)%Q
                 /\ ((q == 0)%Q <-> c = 0)
                 /\ ((q == 1)%Q <-> c = sumZ h3)))
      /\ ((forall v, v ∈ select_values vol labels (Some 1) -> ~ 0 <= v <= 255) ->
          density3 vol labels = Return (replicate 256 NaN))).
Proof.
  intros _. unfold density3, hist3, histogram_index. split.
  - intros Hout. rewrite bool_decide_false by exact Hout. reflexivity.
  - intros h3. destruct (bool_decide (1 ∈ ravel3 labels)); [|discriminate].
    intros [= <-].
    destruct (density_entries (select_values vol labels (Some 1))) as [Hin Hnone].
    split.
    + intros Hv. destruct (Hin Hv) as (qs & Hqs & Hlen & Hentries).
      exists qs. rewrite Hqs. auto.
    + intros Hv. rewrite (Hnone Hv). reflexivity.
Qed.

Lemma density_of_histogram_witness :
  (1 ∉ ravel3 [[[0; 2]; [2; 0]]] ->
   density3 [[[7; 7]; [9; 7]]] [[[0; 2]; [2; 0]]] = Raise AttributeError)
  /\ (forall h3, hist3 [[[7; 7]; [9; 7]]] [[[0; 2]; [2; 0]]] = Some h3 ->
      ((exists v, v ∈ select_values [[[7; 7]; [9; 7]]] [[[0; 2]; [2; 0]]] (Some 1)
                  /\ 0 <= v <= 255) ->
       exists qs : list Q,
         density3 [[[7; 7]; [9; 7]]] [[[0; 2]; [2; 0]]] = Return (map Finite qs)
         /\ length qs = 256%nat
         /\ (forall i q, qs !! i = Some q ->
               exists c, h3 !! i = Some c
                 /\ (0 <= q <= 1)%Q
                 /\ ((q == 0)%Q <-> c = 0)
                 /\ ((q == 1)%Q <-> c = sumZ h3)))
      /\ ((forall v, v ∈ select_values [[[7; 7]; [9; 7]]] [[[0; 2]; [2; 0]]] (Some 1) ->
                     ~ 0 <= v <= 255) ->
          density3 [[[7; 7]; [9; 7]]] [[[0; 2]; [2; 0]]] = Return (replicate 256 NaN))).
Proof.
  apply (density_of_histogram [[[7; 7]; [9; 7]]] [[[0; 2]; [2; 0]]]). reflexivity.
Defined.

End LabelHistFacts.

(** ** The components that [label] grows *)

Module ComponentFacts.
Import Np Ndi GridFacts SumFacts ZipFacts LabelFacts LabelMapFacts MorphFacts IouFacts.

Lemma pixel_border_of_nat (s : grid bool) (r c : nat) (b : bool) :
  getitem2 s r c = Return b -> pixel_border s (Z.of_nat r) (Z.of_nat c) = b.
Proof.
  intros H. rewrite <- (pixel_border_centre s r c b H), !Z.add_0_r. reflexivity.
Qed.

Lemma pixel_border_true (s : grid bool) (zr zc : Z) :
  pixel_border s zr zc = true ->
  0 <= zr /\ 0 <= zc /\ getitem2 s (Z.to_nat zr) (Z.to_nat zc) = Return true.
Proof.
  unfold pixel_border.
  destruct (Z.ltb_spec zr 0) as [|Hzr]; [discriminate|].
  destruct (Z.ltb_spec zc 0) as [|Hzc]; [discriminate|].
  cbn [orb]. intros H. split; [lia|]. split; [lia|].
  apply getitem2_Return.
  destruct (nth_lookup_or_length s (Z.to_nat zr) []) as [Hr|Hr].
  - exists (nth (Z.to_nat zr) s []). split; [exact Hr|].
    destruct (nth_lookup_or_length (nth (Z.to_nat zr) s []) (Z.to_nat zc) false) as [Hc|Hc].
    + rewrite Hc, H. reflexivity.
    + rewrite nth_overflow in H by lia. discriminate H.
  - rewrite (nth_overflow s []) in H by lia.
    destruct (Z.to_nat zc); discriminate H.
Qed.

(** A pixel is in the dilation exactly when it or one of its four
    neighbours is in the image. *)
Lemma dilation_on (s : grid bool) (p : nat * nat) (b : bool) :
  getitem2 s p.1 p.2 = Return b ->
  (on (binary_dilation s) p <-> exists q, (q = p \/ adjacent p q) /\ on s q).
Proof.
  destruct p as [r c]. cbn [fst snd]. intros Hb. unfold on. cbn [fst snd].
  unfold binary_dilation. rewrite (getitem2_imap2d _ s r c b Hb).
  unfold neighbourhood, cross. cbn [map existsb fst snd id]. split.
  - intros Hd. injection Hd as Hd. rewrite !orb_true_iff in Hd.
    destruct Hd as [Hn | [Hn | [Hn | [Hn | [Hn | Hn]]]]]; [| | | | |discriminate Hn];
      apply pixel_border_true in Hn as (Hr & Hc & Hq);
      eexists (_, _); (split; [|exact Hq]); unfold adjacent; cbn [fst snd].
    all: try (left; f_equal; lia).
    all: right; lia.
  - intros ([r' c'] & Hq & H). cbn [fst snd] in H. f_equal. rewrite !orb_true_iff.
    apply pixel_border_of_nat in H.
    destruct Hq as [[= -> ->] | Hadj].
    + left. rewrite !Z.add_0_r. exact H.
    + unfold adjacent in Hadj. cbn [fst snd] in Hadj.
      destruct Hadj as [[-> [-> | ->]] | [-> [-> | ->]]].
      * do 3 right. left. rewrite <- H. f_equal; lia.
      * do 4 right. left. rewrite <- H. f_equal; lia.
      * right. left. rewrite <- H. f_equal; lia.
      * do 2 right. left. rewrite <- H. f_equal; lia.
Qed.

Lemma seed_on (m : grid bool) (p0 q : nat * nat) :
  on (seed m p0) q <-> q = p0 /\ exists b, getitem2 m q.1 q.2 = Return b.
Proof.
  unfold on, seed. destruct q as [r c]. cbn [fst snd]. split.
  - intros H. apply getitem2_imap2d_inv in H as (b & Hb & H).
    symmetry in H. apply bool_decide_eq_true in H. eauto.
  - intros [<- [b Hb]]. rewrite (getitem2_imap2d _ m r c b Hb).
    rewrite bool_decide_true; reflexivity.
Qed.

(** A pixel is in the grown image exactly when it is in the mask and it
    or one of its four neighbours was in the image. *)
Lemma grow_on (m s : grid bool) (q : nat * nat) :
  row_lengths s = row_lengths m ->
  (on (grow m s) q <-> on m q /\ exists q', (q' = q \/ adjacent q q') /\ on s q').
Proof.
  intros Hshape. unfold grow, np_logical_and. unfold on at 1 2. rewrite getitem2_zip2d. split.
  - intros (x & y & Hxy & Hx & Hy). destruct x, y; try discriminate Hxy.
    split; [exact Hy|].
    assert (row_lengths m = row_lengths s) as Hshape' by (symmetry; exact Hshape).
    destruct (getitem2_same_shape m s _ _ _ Hshape' Hy) as [b Hb].
    apply (dilation_on s q b Hb). exact Hx.
  - intros (Hm & Hq).
    assert (row_lengths m = row_lengths s) as Hshape' by (symmetry; exact Hshape).
    destruct (getitem2_same_shape m s _ _ _ Hshape' Hm) as [b Hb].
    exists true, true. split; [reflexivity|]. split; [|exact Hm].
    apply (dilation_on s q b Hb). exact Hq.
Qed.

Lemma zip2d_fst {A B} (a : grid A) (b : grid B) :
  row_lengths a = row_lengths b -> zip2d (fun x _ => x) a b = a.
Proof.
  unfold row_lengths, zip2d. revert b.
  induction a as [|ra a IH]; intros [|rb b] H; try discriminate H; [reflexivity|].
  rewrite !fmap_cons in H. injection H as Hlen H.
  cbn [zip_with]. rewrite (IH b H). f_equal.
  clear -Hlen. revert rb Hlen.
  induction ra as [|x ra IH]; intros [|y rb] Hlen; try discriminate Hlen; [reflexivity|].
  simpl in Hlen. injection Hlen as Hlen. cbn [zip_with]. rewrite (IH rb Hlen). reflexivity.
Qed.

Lemma zip2d_snd {A B} (a : grid A) (b : grid B) :
  row_lengths a = row_lengths b -> zip2d (fun _ y => y) a b = b.
Proof.
  intros H. rewrite MaeMoreFacts.zip2d_flip. apply zip2d_fst. symmetry. exact H.
Qed.

(** Of two images of one shape, one inside the other, the inner one has
    fewer true pixels, unless the two are equal. *)
Lemma inclusion_count (s t : grid bool) :
  row_lengths s = row_lengths t -> (forall q, on s q -> on t q) ->
  np_sum_bool s <= np_sum_bool t /\ (np_sum_bool s = np_sum_bool t -> s = t).
Proof.
  intros Hshape Hincl.
  set (l := ravel (zip2d pair s t)).
  assert (np_sum_bool s = sumZ (map (fun p : bool * bool => if p.1 then 1 else 0) l)) as Hs.
  { rewrite <- (zip2d_fst s t Hshape) at 1.
    exact (IouMoreFacts.np_sum_bool_zip2d (fun x _ => x) s t). }
  assert (np_sum_bool t = sumZ (map (fun p : bool * bool => if p.2 then 1 else 0) l)) as Ht.
  { rewrite <- (zip2d_snd s t Hshape) at 1.
    exact (IouMoreFacts.np_sum_bool_zip2d (fun _ y => y) s t). }
  assert (forall p, p ∈ l -> p.1 = true -> p.2 = true) as Hpair.
  { intros p Hp H1. apply elem_of_pairs in Hp as (r & c & Ha & Hb).
    rewrite H1 in Ha. specialize (Hincl (r, c) Ha). unfold on in Hincl. cbn [fst snd] in Hincl.
    congruence. }
  assert (sumZ (map (fun p : bool * bool => if p.2 then 1 else 0) l)
          = sumZ (map (fun p : bool * bool => if negb p.1 && p.2 then 1 else 0) l)
            + sumZ (map (fun p : bool * bool => if p.1 then 1 else 0) l)) as Hsplit.
  { rewrite <- sumZ_map_add. apply sumZ_map_ext. intros [[] []] Hp; try reflexivity.
    specialize (Hpair _ Hp eq_refl). discriminate Hpair. }
  assert (0 <= sumZ (map (fun p : bool * bool => if negb p.1 && p.2 then 1 else 0) l)) as Hnn
    by (apply sumZ_map_nonneg; intros [[] []]; simpl; lia).
  split; [lia|]. intros Heq.
  apply MaeMoreFacts.zip2d_pairs_eq; [exact Hshape|]. fold l.
  assert (sumZ (map (fun p : bool * bool => if negb p.1 && p.2 then 1 else 0) l) = 0) as Hz by lia.
  rewrite MaeMoreFacts.sumZ_zero in Hz by (intros [[] []]; simpl; lia).
  intros [[] []] Hp; try reflexivity.
  - specialize (Hpair _ Hp eq_refl). discriminate Hpair.
  - specialize (Hz _ Hp). discriminate Hz.
Qed.

Lemma count_le_size (s : grid bool) : np_sum_bool s <= Z.of_nat (length (ravel s)).
Proof.
  unfold np_sum_bool. rewrite <- sumZ_map_one.
  apply sumZ_map_le. intros []; lia.
Qed.

Section Growth.

(** The images grown from a foreground pixel [p0] of the mask [m]. *)
Variable m : list (list bool).
Variable p0 : nat * nat.
Hypothesis Hp0 : on m p0.

Lemma grown_shape (n : nat) : row_lengths (Nat.iter n (grow m) (seed m p0)) = row_lengths m.
Proof. apply row_lengths_iter_grow. unfold seed. apply row_lengths_imap2d. Qed.

Lemma grown_in_mask (n : nat) (q : nat * nat) :
  on (Nat.iter n (grow m) (seed m p0)) q -> on m q.
Proof.
  destruct n as [|n]; simpl.
  - intros H. apply seed_on in H as [-> _]. exact Hp0.
  - intros H. apply grow_on in H as [H _]; [exact H | apply grown_shape].
Qed.

Lemma grown_mono (n : nat) (q : nat * nat) :
  on (Nat.iter n (grow m) (seed m p0)) q -> on (Nat.iter (S n) (grow m) (seed m p0)) q.
Proof.
  intros H. simpl. apply getitem2_grow_keeps; [exact H | apply (grown_in_mask n q H)].
Qed.

Lemma grown_seed (n : nat) : on (Nat.iter n (grow m) (seed m p0)) p0.
Proof.
  induction n as [|n IH]; [|apply grown_mono, IH].
  simpl. apply seed_on. split; [reflexivity|]. exists true. exact Hp0.
Qed.

(** Each round either changes nothing any more or adds a pixel. *)
Lemma grown_progress (n : nat) :
  Nat.iter n (grow m) (seed m p0) = Nat.iter (S n) (grow m) (seed m p0)
  \/ Z.of_nat n + 1 <= np_sum_bool (Nat.iter n (grow m) (seed m p0)).
Proof.
  induction n as [|n IH].
  - right. simpl Z.of_nat.
    pose proof (grown_seed 0) as H. unfold on in H.
    assert (true ∈ ravel (Nat.iter 0 (grow m) (seed m p0))) as Hin
      by (apply elem_of_ravel; eauto).
    apply (sumZ_map_elem (fun b : bool => if b then 1 else 0)) in Hin; [exact Hin|].
    intros []; lia.
  - destruct (decide (Nat.iter n (grow m) (seed m p0) = Nat.iter (S n) (grow m) (seed m p0)))
      as [Heq|Hne].
    + left. simpl. simpl in Heq. rewrite <- Heq. exact Heq.
    + right. destruct IH as [Heq|Hcount]; [contradiction|].
      destruct (inclusion_count (Nat.iter n (grow m) (seed m p0))
                  (Nat.iter (S n) (grow m) (seed m p0))) as [Hle Heq].
      * rewrite !grown_shape. reflexivity.
      * apply grown_mono.
      * assert (np_sum_bool (Nat.iter n (grow m) (seed m p0))
                <> np_sum_bool (Nat.iter (S n) (grow m) (seed m p0))) as Hlt
          by (intros H; apply Hne, Heq, H).
        lia.
Qed.

(** After as many rounds as the mask has pixels nothing changes any
    more: the component is a fixed point of the growth. *)
Lemma component_fixed : grow m (component m p0) = component m p0.
Proof.
  unfold component.
  destruct (grown_progress (length (ravel m))) as [Heq|Hcount].
  - symmetry. exact Heq.
  - pose proof (count_le_size (Nat.iter (length (ravel m)) (grow m) (seed m p0))) as Hle.
    rewrite (length_ravel _ m (grown_shape _)) in Hle. lia.
Qed.

(** So the component holds, with a pixel, its face-adjacent foreground
    pixels. *)
Lemma component_closed (q q' : nat * nat) :
  on (component m p0) q' -> adjacent q q' -> on m q -> on (component m p0) q.
Proof.
  intros Hq' Hadj Hq. rewrite <- component_fixed.
  apply grow_on; [apply row_lengths_component|]. eauto.
Qed.

End Growth.

Lemma adjacent_sym (p q : nat * nat) : adjacent p q -> adjacent q p.
Proof. unfold adjacent. intros [[H1 H2] | [H1 H2]]; [left | right]; split; auto; tauto. Qed.

(** The component grown from an unlabelled foreground pixel meets no
    labelled pixel. *)
Lemma grown_unlabelled (m : grid bool) (labels : grid Z) (k : Z) (p0 : nat * nat) :
  scan_components m labels k -> on m p0 -> getitem2 labels p0.1 p0.2 = Return 0 ->
  forall n q, on (Nat.iter n (grow m) (seed m p0)) q -> getitem2 labels q.1 q.2 = Return 0.
Proof.
  intros ((_ & Hshape & _ & _) & Hclosed & _) Hp0 Hzero.
  assert (row_lengths m = row_lengths labels) as Hshape' by (symmetry; exact Hshape).
  induction n as [|n IH]; intros q Hq.
  - simpl in Hq. apply seed_on in Hq as [-> _]. exact Hzero.
  - simpl in Hq. apply grow_on in Hq as (Hm & q' & Hrel & Hq'); [|apply grown_shape].
    destruct Hrel as [-> | Hadj]; [apply IH, Hq'|].
    destruct (getitem2_same_shape m labels _ _ _ Hshape' Hm) as [v Hv].
    destruct (decide (v = 0)) as [->|Hne]; [exact Hv|].
    pose proof (Hclosed q q' v Hv Hne Hadj (grown_in_mask m p0 Hp0 n q' Hq')) as Hv'.
    rewrite (IH q' Hq') in Hv'. congruence.
Qed.

Lemma scan_components_paint (m : grid bool) (labels : grid Z) (k : Z) (p0 : nat * nat) :
  scan_components m labels k -> on m p0 -> getitem2 labels p0.1 p0.2 = Return 0 ->
  scan_components m (paint labels (component m p0) (k + 1)) (k + 1).
Proof.
  intros Hinv Hp0 Hzero.
  pose proof (grown_unlabelled m labels k p0 Hinv Hp0 Hzero (length (ravel m))) as Hfresh.
  fold (component m p0) in Hfresh.
  destruct Hinv as (Hscan & Hclosed & Hused).
  pose proof Hscan as (Hk & Hshape & _ & _).
  assert (row_lengths labels = row_lengths (component m p0)) as Hshape_c
    by (rewrite row_lengths_component; exact Hshape).
  assert (row_lengths m = row_lengths labels) as Hshape' by (symmetry; exact Hshape).
  split; [apply scan_invariant_paint, Hscan|]. split.
  - intros p q v Hv Hne Hadj Hq.
    apply getitem2_paint in Hv as (old & b & Hold & Hb & ->).
    destruct (getitem2_same_shape m labels _ _ _ Hshape' Hq) as [oldq Holdq].
    destruct (getitem2_same_shape labels (component m p0) _ _ _ Hshape_c Holdq) as [bq Hbq].
    unfold paint. apply getitem2_zip2d. exists oldq, bq.
    split; [|split; assumption].
    destruct b.
    + assert (on (component m p0) q) as Hcq
        by (apply (component_closed m p0 Hp0 q p); [exact Hb | apply adjacent_sym, Hadj | exact Hq]).
      unfold on in Hcq. rewrite Hcq in Hbq. injection Hbq as <-. reflexivity.
    + pose proof (Hclosed p q old Hold Hne Hadj Hq) as Hq'.
      rewrite Hq' in Holdq. injection Holdq as <-.
      destruct bq; [|reflexivity].
      rewrite (Hfresh q Hbq) in Hq'. congruence.
  - intros l Hl. destruct (decide (l = k + 1)) as [->|Hne].
    + exists p0.1, p0.2. unfold paint. apply getitem2_zip2d. exists 0, true.
      split; [reflexivity|]. split; [exact Hzero|].
      destruct p0 as [r c]. apply component_seed, Hp0.
    + destruct (Hused l) as (r & c & Hrc); [lia|].
      destruct (getitem2_same_shape labels (component m p0) _ _ _ Hshape_c Hrc) as [b Hb].
      exists r, c. unfold paint. apply getitem2_zip2d. exists l, b.
      split; [|split; assumption].
      destruct b; [|reflexivity].
      pose proof (Hfresh (r, c) Hb) as H0. cbn [fst snd] in H0. rewrite H0 in Hrc.
      injection Hrc as <-. lia.
Qed.

Lemma label_scan_components (m : grid bool) (ps : list (nat * nat)) (labels : grid Z) (k : Z) :
  (forall p, p ∈ ps -> p ∈ coords m) ->
  scan_components m labels k ->
  scan_components m (label_scan m ps labels k).1 (label_scan m ps labels k).2.
Proof.
  revert labels k. induction ps as [|p ps IH]; intros labels k Hps Hinv; simpl; [exact Hinv|].
  assert (forall q, q ∈ ps -> q ∈ coords m) as Hps'
    by (intros q Hq; apply Hps, elem_of_cons; auto).
  destruct (pixel_at false m p && (pixel_at 0 labels p =? 0)) eqn:E; [|apply IH; assumption].
  apply andb_true_iff in E as [Hfg Hzero].
  assert (on m p) as Hp.
  { apply coords_foreground; [apply Hps, elem_of_cons; auto | exact Hfg]. }
  pose proof Hinv as ((_ & Hshape & _ & _) & _ & _).
  assert (row_lengths m = row_lengths labels) as Hshape' by (symmetry; exact Hshape).
  destruct (getitem2_same_shape m labels _ _ _ Hshape' Hp) as [old Hold].
  assert (old = 0) as ->.
  { destruct p as [r c]. rewrite (pixel_at_getitem2 0 labels r c old Hold) in Hzero.
    apply Z.eqb_eq, Hzero. }
  apply IH; [exact Hps'|]. apply scan_components_paint; assumption.
Qed.

Lemma scan_components_zeros (m : grid bool) : scan_components m (map2d (fun _ => 0) m) 0.
Proof.
  pose proof (scan_invariant_zeros m) as Hscan.
  split; [exact Hscan|]. destruct Hscan as (_ & _ & Hrange & _). split.
  - intros p q v Hv Hne. specialize (Hrange _ _ _ Hv). lia.
  - intros l Hl. lia.
Qed.

(** Face-adjacent true pixels of the mask receive the same, non-zero,
    label. *)
Lemma label_adjacent_pixels (m : grid bool) (p q : nat * nat) :
  on m p -> on m q -> adjacent p q ->
  exists v, v <> 0
            /\ getitem2 (Ch3.label_components m).1 p.1 p.2 = Return v
            /\ getitem2 (Ch3.label_components m).1 q.1 q.2 = Return v.
Proof.
  intros Hp Hq Hadj. unfold Ch3.label_components, label.
  destruct (label_scan_components m (coords m) _ 0 (fun p H => H) (scan_components_zeros m))
    as (_ & Hclosed & _).
  destruct p as [r c].
  destruct (label_scan_covers m (coords m) _ 0 r c (scan_invariant_zeros m)) as (v & Hv & Hne).
  - apply (coords_in_bounds m r c true Hp).
  - exact Hp.
  - exists v. split; [exact Hne|]. split; [exact Hv|].
    apply (Hclosed (r, c) q v Hv Hne Hadj Hq).
Qed.

(** The labels are used without gaps: each of [1..K] is the label of
    some true pixel of the mask. *)
Theorem label_values_used (m : grid bool) (l : Z) :
  1 <= l <= (Ch3.label_components m).2 ->
  exists r c, getitem2 (Ch3.label_components m).1 r c = Return l
              /\ getitem2 m r c = Return true.
Proof.
  unfold Ch3.label_components, label. intros Hl.
  destruct (label_scan_components m (coords m) _ 0 (fun p H => H) (scan_components_zeros m))
    as ((_ & _ & _ & Hfg) & _ & Hused).
  destruct (Hused l Hl) as (r & c & Hrc).
  exists r, c. split; [exact Hrc|]. apply (Hfg r c l Hrc). lia.
Qed.

Lemma label_values_used_witness :
  exists r c, getitem2 (Ch3.label_components [[true; false; true]; [true; false; false]]).1 r c
              = Return 2
              /\ getitem2 [[true; false; true]; [true; false; false]] r c = Return true.
Proof.
  apply (label_values_used [[true; false; true]; [true; false; false]] 2).
  vm_compute. split; discriminate.
Defined.

Lemma connected_on (m : grid bool) (p q : nat * nat) :
  connected m p q -> on m p /\ on m q.
Proof. induction 1 as [p Hp | p q r _ [IH _] _ Hr]; auto. Qed.

Lemma connected_trans (m : grid bool) (p q r : nat * nat) :
  connected m p q -> connected m q r -> connected m p r.
Proof.
  intros Hpq Hqr. induction Hqr as [q _ | q r s _ IH Hadj Hs]; [exact Hpq|].
  apply (connected_step m p r s); auto.
Qed.

Lemma connected_sym (m : grid bool) (p q : nat * nat) :
  connected m p q -> connected m q p.
Proof.
  induction 1 as [p Hp | p q r Hpq IH Hadj Hr]; [apply connected_refl, Hp|].
  apply connected_trans with q; [|exact IH].
  apply (connected_step m r r q); [apply connected_refl, Hr | apply adjacent_sym, Hadj|].
  apply (connected_on m p q Hpq).
Qed.

(** Every pixel of a component is connected to the pixel it grew from. *)
Lemma grown_connected (m : grid bool) (p0 : nat * nat) (n : nat) (q : nat * nat) :
  on m p0 -> on (Nat.iter n (grow m) (seed m p0)) q -> connected m p0 q.
Proof.
  intros Hp0. revert q. induction n as [|n IH]; intros q Hq; simpl in Hq.
  - apply seed_on in Hq as [-> _]. apply connected_refl, Hp0.
  - apply grow_on in Hq as (Hm & q' & Hrel & Hq'); [|apply grown_shape].
    destruct Hrel as [-> | Hadj]; [apply IH, Hq'|].
    apply (connected_step m p0 q' q); [apply IH, Hq' | apply adjacent_sym, Hadj | exact Hm].
Qed.

Lemma scan_separated_paint (m : grid bool) (labels : grid Z) (k : Z) (p0 : nat * nat) :
  scan_invariant m labels k -> scan_separated m labels -> on m p0 ->
  scan_separated m (paint labels (component m p0) (k + 1)).
Proof.
  intros (Hk & _ & Hrange & _) Hsep Hp0 p q v Hp Hq Hne.
  apply getitem2_paint in Hp as (oldp & bp & Holdp & Hbp & Hvp).
  apply getitem2_paint in Hq as (oldq & bq & Holdq & Hbq & Hvq).
  pose proof (Hrange _ _ _ Holdp) as Hrp. pose proof (Hrange _ _ _ Holdq) as Hrq.
  destruct bp, bq; subst v.
  - apply connected_trans with p0.
    + apply connected_sym, (grown_connected m p0 (length (ravel m)) p Hp0 Hbp).
    + apply (grown_connected m p0 (length (ravel m)) q Hp0 Hbq).
  - lia.
  - lia.
  - apply (Hsep p q oldp); congruence.
Qed.

Lemma label_scan_separated (m : grid bool) (ps : list (nat * nat)) (labels : grid Z) (k : Z) :
  (forall p, p ∈ ps -> p ∈ coords m) ->
  scan_invariant m labels k -> scan_separated m labels ->
  scan_separated m (label_scan m ps labels k).1.
Proof.
  revert labels k. induction ps as [|p ps IH]; intros labels k Hps Hinv Hsep; simpl; [exact Hsep|].
  assert (forall q, q ∈ ps -> q ∈ coords m) as Hps'
    by (intros q Hq; apply Hps, elem_of_cons; auto).
  destruct (pixel_at false m p && (pixel_at 0 labels p =? 0)) eqn:E; [|apply IH; assumption].
  apply andb_true_iff in E as [Hfg _].
  assert (on m p) as Hp.
  { apply coords_foreground; [apply Hps, elem_of_cons; auto | exact Hfg]. }
  apply IH; [exact Hps' | apply scan_invariant_paint, Hinv|].
  apply (scan_separated_paint m labels k p Hinv Hsep Hp).
Qed.

Lemma connected_same_label (m : grid bool) (labels : grid Z) (k : Z) (p q : nat * nat) (v : Z) :
  scan_components m labels k -> connected m p q ->
  getitem2 labels p.1 p.2 = Return v -> v <> 0 -> getitem2 labels q.1 q.2 = Return v.
Proof.
  intros (_ & Hclosed & _) Hpq Hv Hne.
  induction Hpq as [p _ | p q r _ IH Hadj Hr]; [exact Hv|].
  apply (Hclosed q r v (IH Hv) Hne Hadj Hr).
Qed.

(** Two true pixels of the mask receive the same label exactly when a
    chain of face-adjacent true pixels connects them: the labels are the
    connected components. *)
Theorem label_connected_components (m : grid bool) (p q : nat * nat) :
  on m p -> on m q ->
  (getitem2 (Ch3.label_components m).1 p.1 p.2 = getitem2 (Ch3.label_components m).1 q.1 q.2
   <-> connected m p q).
Proof.
  intros Hp Hq. unfold Ch3.label_components, label.
  pose proof (label_scan_components m (coords m) _ 0 (fun p H => H) (scan_components_zeros m))
    as Hcomp.
  assert (scan_separated m (map2d (fun _ : bool => 0) m)) as Hsep0.
  { intros a b v Ha _ Hne. destruct (scan_invariant_zeros m) as (_ & _ & Hrange & _).
    specialize (Hrange _ _ _ Ha). lia. }
  pose proof (label_scan_separated m (coords m) _ 0 (fun p H => H)
                (scan_invariant_zeros m) Hsep0) as Hsep.
  destruct p as [r c].
  destruct (label_scan_covers m (coords m) _ 0 r c (scan_invariant_zeros m)) as (v & Hv & Hne);
    [apply (coords_in_bounds m r c true Hp) | exact Hp |].
  cbn [fst snd]. rewrite Hv. split.
  - intros Heq. apply (Hsep (r, c) q v); [exact Hv | symmetry; exact Heq | exact Hne].
  - intros Hconn. symmetry.
    apply (connected_same_label m _ _ (r, c) q v Hcomp Hconn Hv Hne).
Qed.

Lemma label_connected_components_witness :
  getitem2 (Ch3.label_components Samples.block5).1 1 1
  = getitem2 (Ch3.label_components Samples.block5).1 3 3
  <-> connected Samples.block5 (1, 1)%nat (3, 3)%nat.
Proof.
  apply (label_connected_components Samples.block5 (1, 1)%nat (3, 3)%nat); reflexivity.
Defined.

End ComponentFacts.

(** ** Chapter 3: the values of the median filter *)

Module MedianFacts.
Import Np Ndi GridFacts ZipFacts MaskFacts MorphFacts Ch3.

Lemma reflect_lt (n : nat) (i : Z) : (0 < n)%nat -> (reflect n i < n)%nat.
Proof.
  intros Hn. unfold reflect.
  pose proof (Z.mod_pos_bound i (2 * Z.of_nat n)) as Hm.
  destruct (Z.ltb_spec (i mod (2 * Z.of_nat n)) (Z.of_nat n)); lia.
Qed.

(** In a rectangular image with a pixel, the reflected index always
    lands on a pixel. *)
Lemma pixel_reflect_in (im : grid Z) (ncols : nat) (zr zc : Z) :
  Forall (fun row => length row = ncols) im -> (0 < length im)%nat -> (0 < ncols)%nat ->
  pixel_reflect im zr zc ∈ ravel im.
Proof.
  intros Hrect Hrows Hcols. unfold pixel_reflect.
  destruct (lookup_lt_is_Some_2 im (reflect (length im) zr)) as [row Hrow];
    [apply reflect_lt, Hrows|].
  rewrite (nth_lookup_Some im _ [] row Hrow).
  assert (length row = ncols) as Hlen.
  { rewrite Forall_forall in Hrect. apply Hrect, list_elem_of_lookup. eauto. }
  destruct (lookup_lt_is_Some_2 row (reflect (length row) zc)) as [v Hv];
    [apply reflect_lt; lia|].
  rewrite (nth_lookup_Some row _ 0 v Hv).
  apply elem_of_ravel. do 2 eexists. apply getitem2_Return. eauto.
Qed.

Lemma median_in (l : list Z) : l <> [] -> median l ∈ l.
Proof.
  intros Hne. unfold median.
  rewrite <- (merge_sort_Permutation Z.le l) at 3.
  assert (length (merge_sort Z.le l) = length l) as Hlen
    by (apply Permutation_length, merge_sort_Permutation).
  destruct (nth_lookup_or_length (merge_sort Z.le l) (length l / 2) 0) as [H|H].
  - apply list_elem_of_lookup. eauto.
  - exfalso. rewrite Hlen in H.
    assert (0 < length l)%nat as Hpos by (destruct l; [congruence | simpl; lia]).
    pose proof (Nat.div_lt (length l) 2 Hpos). lia.
Qed.

(** The median filter invents no intensity: on a rectangular image and
    with a positive size, every filtered pixel is the intensity of some
    pixel of the image, so an 8-bit image stays 8-bit. *)
Theorem median_filter_values (im : grid Z) (ncols size r c : nat) (v : Z) :
  Forall (fun row => length row = ncols) im -> (0 < size)%nat ->
  getitem2 (im_filt im size) r c = Return v ->
  v ∈ ravel im /\ (is_uint8_image im -> is_uint8 v).
Proof.
  intros Hrect Hsize Hv. unfold im_filt, median_filter in Hv.
  apply getitem2_imap2d_inv in Hv as (x & Hx & ->).
  assert (median (window im size r c) ∈ ravel im) as Hin.
  { apply getitem2_Return in Hx as (row & Hr & Hc).
    assert (0 < length im)%nat as Hrows by (apply lookup_lt_Some in Hr; lia).
    assert (0 < ncols)%nat as Hcols.
    { rewrite Forall_forall in Hrect. rewrite <- (Hrect row).
      - apply lookup_lt_Some in Hc. lia.
      - apply list_elem_of_lookup. eauto. }
    assert (window im size r c <> []) as Hne.
    { intros Hnil. pose proof (length_window im size r c) as Hlen.
      rewrite Hnil in Hlen. simpl in Hlen. nia. }
    pose proof (median_in _ Hne) as Hmed.
    unfold window in Hmed at 2.
    apply list_elem_of_bind in Hmed as (dr & Hmed & _).
    apply list_elem_of_bind in Hmed as (dc & Hmed & _).
    apply list_elem_of_singleton in Hmed. rewrite Hmed.
    apply (pixel_reflect_in im ncols); assumption. }
  split; [exact Hin|]. intros Him.
  apply elem_of_ravel in Hin as (r' & c' & Hin).
  apply (MaeFacts.uint8_pixel im r' c' _ Him Hin).
Qed.

Lemma median_filter_values_witness :
  49 ∈ ravel [[93; 36; 87]; [18; 49; 51]; [45; 32; 63]]
  /\ (is_uint8_image [[93; 36; 87]; [18; 49; 51]; [45; 32; 63]] -> is_uint8 49).
Proof.
  apply (median_filter_values [[93; 36; 87]; [18; 49; 51]; [45; 32; 63]] 3 3 1 1 49).
  - repeat constructor.
  - lia.
  - vm_compute. reflexivity.
Defined.

End MedianFacts.

(** ** Chapter 3: the three steps of [filter_and_mask] *)

Module PipelineFacts.
Import Np Ndi GridFacts MaskFacts MorphFacts ComponentFacts MedianFacts Ch3.

Lemma filter_none (P : Z -> Prop) `{forall x, Decision (P x)} (l : list Z) :
  Forall (fun x => ~ P x) l -> filter P l = [].
Proof.
  induction 1 as [|x l Hx _ IH]; [reflexivity|].
  rewrite filter_cons_False by exact Hx. exact IH.
Qed.

(** In a sorted list the element at position [k] has at most [k] smaller
    elements and more than [k] elements that are not larger. *)
Lemma sorted_rank (s : list Z) :
  StronglySorted Z.le s ->
  forall k v, s !! k = Some v -> (count_lt v s <= k < count_le v s)%nat.
Proof.
  unfold count_lt, count_le.
  induction 1 as [|a s Hs IH Ha]; intros k v Hk; [discriminate Hk|].
  destruct k as [|k]; simpl in Hk.
  - injection Hk as ->.
    rewrite filter_cons_False by lia. rewrite filter_cons_True by lia.
    rewrite filter_none; [simpl; lia|].
    eapply Forall_impl; [exact Ha|]. intros x Hx. simpl in Hx. lia.
  - specialize (IH k v Hk).
    assert (a <= v) as Hav.
    { rewrite Forall_forall in Ha. apply Ha, list_elem_of_lookup. eauto. }
    rewrite (filter_cons_True (fun x => x <= v)) by exact Hav.
    rewrite filter_cons. destruct (decide (a < v)); simpl; lia.
Qed.

Lemma median_is_median (l : list Z) : l <> [] -> is_median (median l) l.
Proof.
  intros Hne. split; [apply median_in, Hne|].
  assert (length (merge_sort Z.le l) = length l) as Hlen
    by (apply Permutation_length, merge_sort_Permutation).
  assert (0 < length l)%nat as Hpos by (destruct l; [congruence | simpl; lia]).
  pose proof (Nat.div_lt (length l) 2 Hpos ltac:(lia)) as Hhalf.
  destruct (lookup_lt_is_Some_2 (merge_sort Z.le l) (length l / 2)) as [v Hv]; [lia|].
  unfold median. rewrite (nth_lookup_Some _ _ 0 v Hv).
  assert (StronglySorted Z.le (merge_sort Z.le l)) as Hsorted.
  { apply Sorted_StronglySorted; [intros x y z; apply Z.le_trans|].
    apply Sorted_merge_sort. intros x y. lia. }
  pose proof (sorted_rank _ Hsorted _ _ Hv) as Hrank.
  unfold count_lt, count_le in *.
  assert (forall (P : Z -> Prop) `{forall x, Decision (P x)},
            length (filter P l) = length (filter P (merge_sort Z.le l))) as Hperm.
  { intros P HP. apply Permutation_length.
    rewrite (merge_sort_Permutation Z.le l). reflexivity. }
  rewrite !Hperm. exact Hrank.
Qed.

Lemma lookup_bind_const {A B} (f : A -> list B) (l : list A) (n i j : nat) (x : A) :
  (forall y, length (f y) = n) -> (j < n)%nat -> l !! i = Some x ->
  (l ≫= f) !! (i * n + j)%nat = f x !! j.
Proof.
  intros Hf Hj. revert i. induction l as [|y l IH]; intros i Hi; [discriminate Hi|].
  rewrite bind_cons. destruct i as [|i]; simpl in Hi.
  - injection Hi as ->. rewrite lookup_app_l by (rewrite Hf; lia). reflexivity.
  - rewrite lookup_app_r by (rewrite Hf; lia). rewrite Hf.
    replace (S i * n + j - n)%nat with (i * n + j)%nat by lia.
    apply IH, Hi.
Qed.

Lemma lookup_offsets (size i : nat) :
  (i < size)%nat -> offsets size !! i = Some (Z.of_nat i - Z.of_nat (size / 2)).
Proof.
  intros Hi. unfold offsets. rewrite CdfFacts.lookup_map, lookup_seq_lt by exact Hi.
  reflexivity.
Qed.

(** The window, entry by entry: row [i], column [j] of the square. *)
Lemma lookup_window (im : grid Z) (size r c i j : nat) :
  (i < size)%nat -> (j < size)%nat ->
  window im size r c !! (i * size + j)%nat
  = Some (pixel_reflect im (Z.of_nat r + (Z.of_nat i - Z.of_nat (size / 2)))
                           (Z.of_nat c + (Z.of_nat j - Z.of_nat (size / 2)))).
Proof.
  intros Hi Hj. unfold window.
  rewrite (lookup_bind_const _ _ size i j (Z.of_nat i - Z.of_nat (size / 2))).
  - replace j with (j * 1 + 0)%nat at 1 by lia.
    rewrite (lookup_bind_const _ _ 1 j 0 (Z.of_nat j - Z.of_nat (size / 2))).
    + reflexivity.
    + reflexivity.
    + lia.
    + apply lookup_offsets, Hj.
  - intros dr. rewrite (length_bind_const _ _ 1%nat), length_offsets; [lia|].
    reflexivity.
  - exact Hj.
  - apply lookup_offsets, Hi.
Qed.

(** On a rectangular image with a pixel, the reflected position is a
    pixel of the image. *)
Lemma pixel_reflect_getitem2 (im : grid Z) (ncols : nat) (zr zc : Z) :
  Forall (fun row => length row = ncols) im -> (0 < length im)%nat -> (0 < ncols)%nat ->
  getitem2 im (reflect (length im) zr) (reflect ncols zc) = Return (pixel_reflect im zr zc).
Proof.
  intros Hrect Hrows Hcols. unfold pixel_reflect. cbv zeta.
  destruct (lookup_lt_is_Some_2 im (reflect (length im) zr)) as [row Hrow];
    [apply reflect_lt, Hrows|].
  rewrite (nth_lookup_Some im _ [] row Hrow).
  assert (length row = ncols) as Hlen.
  { rewrite Forall_forall in Hrect. apply Hrect, list_elem_of_lookup. eauto. }
  rewrite Hlen.
  destruct (lookup_lt_is_Some_2 row (reflect ncols zc)) as [v Hv];
    [rewrite Hlen; apply reflect_lt; lia|].
  rewrite (nth_lookup_Some row _ 0 v Hv).
  apply getitem2_Return. eauto.
Qed.

(** Mode [reflect]: an index of the array is itself, the index [i] places
    before the first is mirrored to [i], the one [i] places after the
    last to [n - 1 - i]. *)
Lemma reflect_mirror (n i : nat) :
  (i < n)%nat ->
  reflect n (Z.of_nat i) = i
  /\ reflect n (- 1 - Z.of_nat i) = i
  /\ reflect n (Z.of_nat n + Z.of_nat i) = (n - 1 - i)%nat.
Proof.
  intros Hi. unfold reflect. repeat split.
  - rewrite Z.mod_small by lia.
    destruct (Z.ltb_spec (Z.of_nat i) (Z.of_nat n)); lia.
  - replace ((- 1 - Z.of_nat i) mod (2 * Z.of_nat n)) with (2 * Z.of_nat n - 1 - Z.of_nat i).
    + destruct (Z.ltb_spec (2 * Z.of_nat n - 1 - Z.of_nat i) (Z.of_nat n)); lia.
    + apply (Z.mod_unique_pos _ _ (-1)); lia.
  - rewrite Z.mod_small by lia.
    destruct (Z.ltb_spec (Z.of_nat n + Z.of_nat i) (Z.of_nat n)); lia.
Qed.

(** A pixel is in the erosion exactly when it and its four neighbours
    are in the image; a neighbour beyond the border is not. *)
Lemma erosion_on (s : grid bool) (p : nat * nat) :
  on (binary_erosion s) p
  <-> on s p /\ (0 < p.1)%nat /\ (0 < p.2)%nat /\ (forall q, adjacent p q -> on s q).
Proof.
  destruct p as [r c]. unfold on. cbn [fst snd]. split.
  - intros H. pose proof (erosion_antiextensive s r c H) as Hp.
    unfold binary_erosion in H. rewrite (getitem2_imap2d _ s r c true Hp) in H.
    injection H as H. unfold neighbourhood, cross in H. cbn [map forallb fst snd id] in H.
    rewrite !andb_true_iff in H. destruct H as (_ & Hu & Hd & Hl & Hr & _).
    apply pixel_border_true in Hu as (Hu1 & Hu2 & Hu).
    apply pixel_border_true in Hd as (Hd1 & Hd2 & Hd).
    apply pixel_border_true in Hl as (Hl1 & Hl2 & Hl).
    apply pixel_border_true in Hr as (Hr1 & Hr2 & Hr).
    split; [exact Hp|]. split; [lia|]. split; [lia|].
    replace (Z.to_nat (Z.of_nat r + -1)) with (r - 1)%nat in Hu by lia.
    replace (Z.to_nat (Z.of_nat c + 0)) with c in Hu, Hd by lia.
    replace (Z.to_nat (Z.of_nat r + 1)) with (S r) in Hd by lia.
    replace (Z.to_nat (Z.of_nat r + 0)) with r in Hl, Hr by lia.
    replace (Z.to_nat (Z.of_nat c + -1)) with (c - 1)%nat in Hl by lia.
    replace (Z.to_nat (Z.of_nat c + 1)) with (S c) in Hr by lia.
    intros [r' c'] Hadj. unfold adjacent in Hadj. cbn [fst snd] in *.
    destruct Hadj as [[Hr' [Hc' | Hc']] | [Hc' [Hr' | Hr']]].
    + replace r' with r by lia. replace c' with (c - 1)%nat by lia. exact Hl.
    + replace r' with r by lia. replace c' with (S c) by lia. exact Hr.
    + replace r' with (r - 1)%nat by lia. replace c' with c by lia. exact Hu.
    + replace r' with (S r) by lia. replace c' with c by lia. exact Hd.
  - intros (Hp & Hr0 & Hc0 & Hadj).
    unfold binary_erosion. rewrite (getitem2_imap2d _ s r c true Hp). f_equal.
    unfold neighbourhood, cross. cbn [map forallb fst snd id].
    assert (forall r' c', adjacent (r, c) (r', c') ->
              pixel_border s (Z.of_nat r') (Z.of_nat c') = true) as Hn.
    { intros r' c' Ha. apply pixel_border_of_nat. exact (Hadj (r', c') Ha). }
    rewrite (pixel_border_centre s r c true Hp).
    replace (Z.of_nat r + -1) with (Z.of_nat (r - 1)) by lia.
    replace (Z.of_nat c + -1) with (Z.of_nat (c - 1)) by lia.
    replace (Z.of_nat r + 1) with (Z.of_nat (S r)) by lia.
    replace (Z.of_nat c + 1) with (Z.of_nat (S c)) by lia.
    rewrite !Z.add_0_r.
    rewrite (Hn (r - 1)%nat c), (Hn (S r) c), (Hn r (c - 1)%nat), (Hn r (S c)).
    + reflexivity.
    + unfold adjacent. cbn [fst snd]. left. split; [reflexivity | right; reflexivity].
    + unfold adjacent. cbn [fst snd]. left. split; [reflexivity | left; lia].
    + unfold adjacent. cbn [fst snd]. right. split; [reflexivity | right; reflexivity].
    + unfold adjacent. cbn [fst snd]. right. split; [reflexivity | left; lia].
Qed.

(** C4. On a rectangular image and with a positive size, [filter_and_mask]
    does three things in turn.  It takes at every pixel the median of the
    square window of side [size] around it, the window being read with
    the image mirrored at its borders.  It thresholds: an element of the
    thresholded array is 1 (true) exactly where the filtered intensity
    exceeds the threshold.  It closes: it dilates (a pixel is set when it
    or one of its four neighbours is), then erodes (a pixel stays when it
    and its four neighbours are set, a neighbour beyond the border
    counting as not set).  The mask has the shape of the image. *)
Theorem filter_and_mask_steps (im : grid Z) (ncols size : nat) (threshold : Z) :
  Forall (fun row => length row = ncols) im -> (0 < size)%nat ->
  (forall r c x, getitem2 im r c = Return x ->
     exists v,
       getitem2 (im_filt im size) r c = Return v
       /\ is_median v (window im size r c)
       /\ length (window im size r c) = (size * size)%nat
       /\ (forall i j, (i < size)%nat -> (j < size)%nat ->
             exists y,
               window im size r c !! (i * size + j)%nat = Some y
               /\ getitem2 im
                    (reflect (length im) (Z.of_nat r + (Z.of_nat i - Z.of_nat (size / 2))))
                    (reflect ncols (Z.of_nat c + (Z.of_nat j - Z.of_nat (size / 2))))
                  = Return y))
  /\ (forall n i, (i < n)%nat ->
        reflect n (Z.of_nat i) = i
        /\ reflect n (- 1 - Z.of_nat i) = i
        /\ reflect n (Z.of_nat n + Z.of_nat i) = (n - 1 - i)%nat)
  /\ (forall r c v, getitem2 (im_filt im size) r c = Return v ->
        getitem2 (mask_start im size threshold) r c = Return (if threshold <? v then 1 else 0)
        /\ (on (astype_bool (mask_start im size threshold)) (r, c) <-> threshold < v))
  /\ (forall p x, getitem2 im p.1 p.2 = Return x ->
        (on (binary_dilation (astype_bool (mask_start im size threshold))) p
         <-> exists q, (q = p \/ adjacent p q)
                       /\ on (astype_bool (mask_start im size threshold)) q))
  /\ (forall p,
        on (filter_and_mask im size threshold) p
        <-> on (binary_dilation (astype_bool (mask_start im size threshold))) p
            /\ (0 < p.1)%nat /\ (0 < p.2)%nat
            /\ (forall q, adjacent p q ->
                          on (binary_dilation (astype_bool (mask_start im size threshold))) q))
  /\ row_lengths (filter_and_mask im size threshold) = row_lengths im
  /\ shape (filter_and_mask im size threshold) = shape im.
Proof.
  intros Hrect Hsize.
  pose proof (row_lengths_filter_and_mask im size threshold) as Hshape.
  split; [|split; [|split; [|split; [|split; [|split]]]]].
  - intros r c x Hx.
    exists (median (window im size r c)).
    assert ((0 < length im)%nat /\ (0 < ncols)%nat) as [Hrows Hcols].
    { apply getitem2_Return in Hx as (row & Hr & Hc). split.
      - apply lookup_lt_Some in Hr. lia.
      - rewrite Forall_forall in Hrect. rewrite <- (Hrect row).
        + apply lookup_lt_Some in Hc. lia.
        + apply list_elem_of_lookup. eauto. }
    split; [|split; [|split]].
    + unfold im_filt, median_filter.
      apply (getitem2_imap2d (fun r c _ => median (window im size r c)) im r c x Hx).
    + apply median_is_median. intros Hnil.
      pose proof (length_window im size r c) as Hlen.
      rewrite Hnil in Hlen. simpl in Hlen. nia.
    + apply length_window.
    + intros i j Hi Hj. eexists. split; [apply lookup_window; assumption|].
      apply pixel_reflect_getitem2; assumption.
  - intros n i Hi. apply reflect_mirror, Hi.
  - intros r c v Hv.
    destruct (getitem2_mask_start im size threshold r c v Hv) as [Hstart Hbool].
    split; [exact Hstart|]. unfold on. cbn [fst snd]. rewrite Hbool. split.
    + intros [= H]. apply Z.ltb_lt, H.
    + intros H. f_equal. apply Z.ltb_lt, H.
  - intros p x Hx.
    assert (exists b, getitem2 (astype_bool (mask_start im size threshold)) p.1 p.2 = Return b)
      as [b Hb].
    { eexists. apply getitem2_mask_start.
      unfold im_filt, median_filter.
      apply (getitem2_imap2d (fun r c _ => median (window im size r c)) im _ _ x Hx). }
    apply (dilation_on _ p b Hb).
  - intros p. unfold filter_and_mask, binary_closing. apply erosion_on.
  - exact Hshape.
  - apply shape_row_lengths. exact Hshape.
Qed.

Lemma filter_and_mask_steps_witness :
  (forall r c x, getitem2 Samples.quiz r c = Return x ->
     exists v,
       getitem2 (im_filt Samples.quiz 3) r c = Return v
       /\ is_median v (window Samples.quiz 3 r c)
       /\ length (window Samples.quiz 3 r c) = (3 * 3)%nat
       /\ (forall i j, (i < 3)%nat -> (j < 3)%nat ->
             exists y,
               window Samples.quiz 3 r c !! (i * 3 + j)%nat = Some y
               /\ getitem2 Samples.quiz
                    (reflect (length Samples.quiz) (Z.of_nat r + (Z.of_nat i - Z.of_nat (3 / 2))))
                    (reflect 3 (Z.of_nat c + (Z.of_nat j - Z.of_nat (3 / 2))))
                  = Return y))
  /\ (forall n i, (i < n)%nat ->
        reflect n (Z.of_nat i) = i
        /\ reflect n (- 1 - Z.of_nat i) = i
        /\ reflect n (Z.of_nat n + Z.of_nat i) = (n - 1 - i)%nat)
  /\ (forall r c v, getitem2 (im_filt Samples.quiz 3) r c = Return v ->
        getitem2 (mask_start Samples.quiz 3 60) r c = Return (if 60 <? v then 1 else 0)
        /\ (on (astype_bool (mask_start Samples.quiz 3 60)) (r, c) <-> 60 < v))
  /\ (forall p x, getitem2 Samples.quiz p.1 p.2 = Return x ->
        (on (binary_dilation (astype_bool (mask_start Samples.quiz 3 60))) p
         <-> exists q, (q = p \/ adjacent p q)
                       /\ on (astype_bool (mask_start Samples.quiz 3 60)) q))
  /\ (forall p,
        on (filter_and_mask Samples.quiz 3 60) p
        <-> on (binary_dilation (astype_bool (mask_start Samples.quiz 3 60))) p
            /\ (0 < p.1)%nat /\ (0 < p.2)%nat
            /\ (forall q, adjacent p q ->
                          on (binary_dilation (astype_bool (mask_start Samples.quiz 3 60))) q))
  /\ row_lengths (filter_and_mask Samples.quiz 3 60) = row_lengths Samples.quiz
  /\ shape (filter_and_mask Samples.quiz 3 60) = shape Samples.quiz.
Proof.
  apply (filter_and_mask_steps Samples.quiz 3 3 60).
  - repeat constructor.
  - lia.
Defined.

End PipelineFacts.
